(** * AVL trees with string keys: a model of AVLTree_StringKeys.c

    The C library keeps its nodes in the heap and links them with son and
    father pointers.  The model below keeps that shape: a heap is a finite
    map from node addresses to node records, the null pointer is [None],
    and every library routine is a function that threads the heap, in a
    small state-and-failure monad.  A computation that dereferences a null
    or dangling pointer, writes outside a result array, or exceeds its loop
    budget has no result ([None]); such a run has undefined behaviour in C.

    The second half of the file relates heaps to ordinary inductive trees
    and proves the properties of the library on every well-formed heap. *)

From Stdlib Require Import ZArith String Ascii List Lia Sorted Permutation.
From stdpp Require Import gmap list strings.
Import ListNotations.
Local Open Scope Z_scope.

(** ** Data model (AVLTree_StringKeys.h) *)

(** Addresses of allocated nodes.  A C pointer to a node is an
    [option ptr], with [None] for NULL. *)
Abbreviation ptr := positive (only parsing).

(** [struct _avlStrNode].  The key is the byte string before the
    terminating NUL; the datum is an opaque 64-bit word. *)
Record AVLStrNode : Type := mkNode {
  _father : option ptr;
  _leftSon : option ptr;
  _rightSon : option ptr;
  _height : Z;
  _key : string;
  _data : Z
}.

(** [AVLStrTree]: both counters are [unsigned long]. *)
Record AVLStrTree : Type := mkTree {
  _root : option ptr;
  nodesCount : Z;
  maxNodes : Z
}.

Abbreviation heap := (gmap positive AVLStrNode).

Definition ULONG_MAX : Z := 2 ^ 64 - 1.

(** Increment and decrement of an [unsigned long], with wrap-around. *)
Definition ulong_incr (n : Z) : Z := (n + 1) mod 2 ^ 64.
Definition ulong_decr (n : Z) : Z := (n - 1) mod 2 ^ 64.

(** Option flags of the header. *)
Definition DELETE_FREE_DATA : Z := 0x1.
Definition DELETE_FREE_KEYS : Z := 0x2.
Definition SEARCH_DATA : Z := 0x4.
Definition SEARCH_KEYS : Z := 0x8.
Definition SEARCH_NODES : Z := 0x10.
Definition DFS_PRE_ORDER : Z := 0x20.
Definition DFS_IN_ORDER : Z := 0x40.
Definition DFS_POST_ORDER : Z := 0x80.
Definition BFS_LEFT_FIRST : Z := 0x100.
Definition BFS_RIGHT_FIRST : Z := 0x200.

(** The C test [opts & FLAG]. *)
Definition flag (opts f : Z) : bool := negb (Z.land opts f =? 0).

(** [strcmp] on two keys: negative, zero or positive. *)
Definition strcmp (a b : string) : Z :=
  match String.compare a b with
  | Lt => -1
  | Eq => 0
  | Gt => 1
  end.

(** [MAX(X, Y)] *)
Definition MAX (x y : Z) : Z := if x <=? y then y else x.

(** What a cell of a result array, or the result of a search, holds: a
    node pointer, a key pointer or a datum.  NULL is [None]. *)
Inductive cval : Type :=
| VNode (p : ptr)
| VKey (k : string)
| VData (d : Z).

(** ** The heap monad *)

Definition M (A : Type) : Type := heap -> option (A * heap).

Definition ret {A} (a : A) : M A := fun hp => Some (a, hp).

Definition bind {A B} (m : M A) (k : A -> M B) : M B :=
  fun hp => match m hp with
            | Some (a, hp') => k a hp'
            | None => None
            end.

Definition fault {A} : M A := fun _ => None.

Notation "x <- m ;; k" := (bind m (fun x => k))
  (at level 100, m at next level, right associativity).
Notation "m ;;; k" := (bind m (fun _ => k))
  (at level 100, right associativity).

(** Reading [*p]. *)
Definition deref (p : option ptr) : M AVLStrNode :=
  fun hp => match p with
            | Some q => match hp !! q with
                        | Some n => Some (n, hp)
                        | None => None
                        end
            | None => None
            end.

(** Assigning one field of [*p]. *)
Definition modify (p : option ptr) (f : AVLStrNode -> AVLStrNode) : M unit :=
  fun hp => match p with
            | Some q => match hp !! q with
                        | Some n => Some (tt, <[q := f n]> hp)
                        | None => None
                        end
            | None => None
            end.

Definition set_father (v : option ptr) (n : AVLStrNode) : AVLStrNode :=
  mkNode v (_leftSon n) (_rightSon n) (_height n) (_key n) (_data n).
Definition set_leftSon (v : option ptr) (n : AVLStrNode) : AVLStrNode :=
  mkNode (_father n) v (_rightSon n) (_height n) (_key n) (_data n).
Definition set_rightSon (v : option ptr) (n : AVLStrNode) : AVLStrNode :=
  mkNode (_father n) (_leftSon n) v (_height n) (_key n) (_data n).
Definition set_height (v : Z) (n : AVLStrNode) : AVLStrNode :=
  mkNode (_father n) (_leftSon n) (_rightSon n) v (_key n) (_data n).
Definition set_key (v : string) (n : AVLStrNode) : AVLStrNode :=
  mkNode (_father n) (_leftSon n) (_rightSon n) (_height n) v (_data n).
Definition set_data (v : Z) (n : AVLStrNode) : AVLStrNode :=
  mkNode (_father n) (_leftSon n) (_rightSon n) (_height n) (_key n) v.

(** [free(p)] *)
Definition free (p : option ptr) : M unit :=
  fun hp => match p with
            | Some q => match hp !! q with
                        | Some _ => Some (tt, delete q hp)
                        | None => None
                        end
            | None => Some (tt, hp)
            end.

(** Loops run on a budget of steps taken from the number of allocated
    nodes: a walk along son or father links of a tree never visits more
    nodes than the heap holds. *)
Definition with_fuel {A} (f : nat -> M A) : M A :=
  fun hp => f (S (size hp)) hp.

Definition ptr_eqb (a b : option ptr) : bool := bool_decide (a = b).

(** ** Internal subroutines *)

(** [_createStrNode]: [fresh] is what [malloc] returned. *)
Definition _createStrNode (fresh : option ptr) (newKey : string) (newData : Z)
  : M (option ptr) :=
  match fresh with
  | None => ret None
  | Some p => fun hp => Some (Some p, <[p := mkNode None None None 0 newKey newData]> hp)
  end.

Definition _strInsertAsLeftSubtree (father newSon : option ptr) : M unit :=
  (match newSon with
   | Some _ => modify newSon (set_father father)
   | None => ret tt
   end) ;;;
  modify father (set_leftSon newSon).

Definition _strInsertAsRightSubtree (father newSon : option ptr) : M unit :=
  (match newSon with
   | Some _ => modify newSon (set_father father)
   | None => ret tt
   end) ;;;
  modify father (set_rightSon newSon).

Definition _strCutLeftSubtree (father : option ptr) : M (option ptr) :=
  f <- deref father ;;
  let son := _leftSon f in
  match son with
  | None => ret None
  | Some _ =>
      modify son (set_father None) ;;;
      modify father (set_leftSon None) ;;;
      ret son
  end.

Definition _strCutRightSubtree (father : option ptr) : M (option ptr) :=
  f <- deref father ;;
  let son := _rightSon f in
  match son with
  | None => ret None
  | Some _ =>
      modify son (set_father None) ;;;
      modify father (set_rightSon None) ;;;
      ret son
  end.

Definition _strCutSubtree (node : option ptr) : M (option ptr) :=
  match node with
  | None => ret None
  | Some _ =>
      n <- deref node ;;
      match _father n with
      | None => ret node
      | Some _ =>
          let father := _father n in
          f <- deref father ;;
          match _leftSon n, _rightSon n with
          | None, None =>
              (if ptr_eqb (_rightSon f) node
               then modify father (set_rightSon None)
               else modify father (set_leftSon None)) ;;;
              modify node (set_father None) ;;;
              ret node
          | _, _ =>
              if ptr_eqb (_leftSon f) node
              then _strCutLeftSubtree father
              else _strCutRightSubtree father
          end
      end
  end.

Fixpoint _strMaxKeySon_loop (fuel : nat) (curr : option ptr) : M (option ptr) :=
  match fuel with
  | O => fault
  | S fuel' =>
      c <- deref curr ;;
      match _rightSon c with
      | Some _ => _strMaxKeySon_loop fuel' (_rightSon c)
      | None => ret curr
      end
  end.

Definition _strMaxKeySon (node : option ptr) : M (option ptr) :=
  with_fuel (fun fuel => _strMaxKeySon_loop fuel node).

Fixpoint _searchStrNode_loop (fuel : nat) (curr : option ptr) (key : option string)
  : M (option ptr) :=
  match curr with
  | None => ret None
  | Some _ =>
      match fuel with
      | O => fault
      | S fuel' =>
          c <- deref curr ;;
          match key with
          | None => fault
          | Some k =>
              let comp := strcmp (_key c) k in
              if 0 <? comp then _searchStrNode_loop fuel' (_leftSon c) key
              else if comp <? 0 then _searchStrNode_loop fuel' (_rightSon c) key
              else ret curr
          end
      end
  end.

Definition _searchStrNode (tree : AVLStrTree) (key : option string) : M (option ptr) :=
  match _root tree with
  | None => ret None
  | Some _ => with_fuel (fun fuel => _searchStrNode_loop fuel (_root tree) key)
  end.

Definition _strHeight (node : option ptr) : M Z :=
  match node with
  | None => ret (-1)
  | Some _ => n <- deref node ;; ret (_height n)
  end.

Definition _strSetHeight (node : option ptr) (newHeight : Z) : M unit :=
  match node with
  | None => ret tt
  | Some _ => modify node (set_height newHeight)
  end.

Definition _strBalanceFactor (node : option ptr) : M Z :=
  match node with
  | None => ret 0
  | Some _ =>
      n <- deref node ;;
      hl <- _strHeight (_leftSon n) ;;
      hr <- _strHeight (_rightSon n) ;;
      ret (hl - hr)
  end.

Definition _strUpdateHeight (node : option ptr) : M unit :=
  match node with
  | None => ret tt
  | Some _ =>
      n <- deref node ;;
      hl <- _strHeight (_leftSon n) ;;
      hr <- _strHeight (_rightSon n) ;;
      _strSetHeight node (MAX hl hr + 1)
  end.

Definition _strSwapInfo (node1 node2 : option ptr) : M unit :=
  n1 <- deref node1 ;;
  let key1 := _key n1 in
  let data1 := _data n1 in
  n2 <- deref node2 ;;
  let key2 := _key n2 in
  let data2 := _data n2 in
  modify node1 (set_key key2) ;;;
  modify node2 (set_key key1) ;;;
  modify node1 (set_data data2) ;;;
  modify node2 (set_data data1).

Definition _strRightRotation (node : option ptr) : M unit :=
  n <- deref node ;;
  let leftSon := _leftSon n in
  _strSwapInfo node leftSon ;;;
  rTree <- _strCutRightSubtree node ;;
  lTree <- _strCutLeftSubtree node ;;
  lTree_l <- _strCutLeftSubtree leftSon ;;
  lTree_r <- _strCutRightSubtree leftSon ;;
  _strInsertAsRightSubtree lTree rTree ;;;
  _strInsertAsLeftSubtree lTree lTree_r ;;;
  _strInsertAsRightSubtree node lTree ;;;
  _strInsertAsLeftSubtree node lTree_l ;;;
  n' <- deref node ;;
  _strUpdateHeight (_rightSon n') ;;;
  _strUpdateHeight node.

Definition _strLeftRotation (node : option ptr) : M unit :=
  n <- deref node ;;
  let rightSon := _rightSon n in
  _strSwapInfo node rightSon ;;;
  rTree <- _strCutRightSubtree node ;;
  lTree <- _strCutLeftSubtree node ;;
  rTree_l <- _strCutLeftSubtree rightSon ;;
  rTree_r <- _strCutRightSubtree rightSon ;;
  _strInsertAsLeftSubtree rTree lTree ;;;
  _strInsertAsRightSubtree rTree rTree_l ;;;
  _strInsertAsLeftSubtree node rTree ;;;
  _strInsertAsRightSubtree node rTree_r ;;;
  n' <- deref node ;;
  _strUpdateHeight (_leftSon n') ;;;
  _strUpdateHeight node.

Definition _strRotate (node : option ptr) : M unit :=
  balFactor <- _strBalanceFactor node ;;
  if balFactor =? 2 then
    n <- deref node ;;
    b <- _strBalanceFactor (_leftSon n) ;;
    if 0 <=? b then _strRightRotation node
    else _strLeftRotation (_leftSon n) ;;; _strRightRotation node
  else if balFactor =? -2 then
    n <- deref node ;;
    b <- _strBalanceFactor (_rightSon n) ;;
    if b <=? 0 then _strLeftRotation node
    else _strRightRotation (_rightSon n) ;;; _strLeftRotation node
  else ret tt.

(** The loop of [_strBalanceInsert]; its result is [curr] at loop exit. *)
Fixpoint _strBalanceInsert_loop (fuel : nat) (curr : option ptr) : M (option ptr) :=
  match curr with
  | None => ret None
  | Some _ =>
      match fuel with
      | O => fault
      | S fuel' =>
          b <- _strBalanceFactor curr ;;
          if 2 <=? Z.abs b then ret curr
          else
            _strUpdateHeight curr ;;;
            c <- deref curr ;;
            _strBalanceInsert_loop fuel' (_father c)
      end
  end.

Definition _strBalanceInsert (newNode : option ptr) : M unit :=
  n <- deref newNode ;;
  curr <- with_fuel (fun fuel => _strBalanceInsert_loop fuel (_father n)) ;;
  match curr with
  | Some _ => _strRotate curr
  | None => ret tt
  end.

Fixpoint _strBalanceDelete_loop (fuel : nat) (curr : option ptr) : M unit :=
  match curr with
  | None => ret tt
  | Some _ =>
      match fuel with
      | O => fault
      | S fuel' =>
          b <- _strBalanceFactor curr ;;
          (if 2 <=? Z.abs b then _strRotate curr else _strUpdateHeight curr) ;;;
          c <- deref curr ;;
          _strBalanceDelete_loop fuel' (_father c)
      end
  end.

Definition _strBalanceDelete (remFather : option ptr) : M unit :=
  with_fuel (fun fuel => _strBalanceDelete_loop fuel remFather).

Definition _strCutOneSonNode (node : option ptr) : M (option ptr) :=
  n <- deref node ;;
  let father := _father n in
  let son := match _leftSon n with
             | Some _ => _leftSon n
             | None => _rightSon n
             end in
  son' <- match son with
          | None => _strCutSubtree node
          | Some _ =>
              _strSwapInfo node son ;;;
              _strCutSubtree son ;;;
              s <- deref son ;;
              r <- _strCutSubtree (_rightSon s) ;;
              _strInsertAsRightSubtree node r ;;;
              s' <- deref son ;;
              l <- _strCutSubtree (_leftSon s') ;;
              _strInsertAsLeftSubtree node l ;;;
              ret son
          end ;;
  _strBalanceDelete father ;;;
  ret son'.

(** ** Result arrays *)

(** A result array is a list of cells; [calloc] fills it with NULL. *)
Abbreviation buffer := (list (option cval)) (only parsing).

(** [*(base + i) = v]; outside the array the write is undefined. *)
Definition buf_write (buf : buffer) (i : Z) (v : option cval) : option buffer :=
  if (0 <=? i) && (i <? Z.of_nat (length buf))
  then Some (<[Z.to_nat i := v]> buf)
  else None.

(** The visit of a node by the depth-first searches: the cascade on
    [intOpt] that stores a pointer, a key or a datum at the cursor. *)
Definition dfs_visit (intOpt : Z) (p : ptr) (n : AVLStrNode) (buf : buffer) (cur : Z)
  : option buffer :=
  if flag intOpt SEARCH_NODES then buf_write buf cur (Some (VNode p))
  else if flag intOpt SEARCH_KEYS then buf_write buf cur (Some (VKey (_key n)))
  else if flag intOpt SEARCH_DATA then buf_write buf cur (Some (VData (_data n)))
  else Some buf.

(** The three recursive searches read the heap and move a cursor
    ([*intPtr], an index into the array) along the array they fill. *)
Fixpoint _strInODFS (fuel : nat) (hp : heap) (rootNode : option ptr) (intOpt : Z)
    (buf : buffer) (cur : Z) : option (buffer * Z) :=
  match rootNode with
  | None => Some (buf, cur - 1)
  | Some p =>
      match fuel with
      | O => None
      | S fuel' =>
          n ← hp !! p;
          '(buf1, cur1) ← _strInODFS fuel' hp (_leftSon n) intOpt buf cur;
          let cur2 := cur1 + 1 in
          buf2 ← dfs_visit intOpt p n buf1 cur2;
          let cur3 := cur2 + 1 in
          _strInODFS fuel' hp (_rightSon n) intOpt buf2 cur3
      end
  end.

Fixpoint _strPreODFS (fuel : nat) (hp : heap) (rootNode : option ptr) (intOpt : Z)
    (buf : buffer) (cur : Z) : option (buffer * Z) :=
  match rootNode with
  | None => Some (buf, cur - 1)
  | Some p =>
      match fuel with
      | O => None
      | S fuel' =>
          n ← hp !! p;
          buf1 ← dfs_visit intOpt p n buf cur;
          let cur1 := cur + 1 in
          '(buf2, cur2) ← _strPreODFS fuel' hp (_leftSon n) intOpt buf1 cur1;
          let cur3 := cur2 + 1 in
          _strPreODFS fuel' hp (_rightSon n) intOpt buf2 cur3
      end
  end.

Fixpoint _strPostODFS (fuel : nat) (hp : heap) (rootNode : option ptr) (intOpt : Z)
    (buf : buffer) (cur : Z) : option (buffer * Z) :=
  match rootNode with
  | None => Some (buf, cur - 1)
  | Some p =>
      match fuel with
      | O => None
      | S fuel' =>
          n ← hp !! p;
          '(buf1, cur1) ← _strPostODFS fuel' hp (_leftSon n) intOpt buf cur;
          let cur2 := cur1 + 1 in
          '(buf3, cur3) ← _strPostODFS fuel' hp (_rightSon n) intOpt buf1 cur2;
          let cur4 := cur3 + 1 in
          buf4 ← dfs_visit intOpt p n buf3 cur4;
          Some (buf4, cur4)
      end
  end.

(** ** User functions *)

(** [createStrTree]: the fields of a tree that was just created. *)
Definition createStrTree : AVLStrTree := mkTree None 0 ULONG_MAX.

(** [strSearch].  The outer option is the run (no result on undefined
    behaviour), the inner one the pointer returned. *)
Definition strSearch (tree : option AVLStrTree) (key : option string) (opts : Z)
  : M (option cval) :=
  match tree with
  | Some tr =>
      if opts <=? 0 then ret None
      else
        searchedNode <- _searchStrNode tr key ;;
        match searchedNode with
        | Some p =>
            n <- deref searchedNode ;;
            if flag opts SEARCH_DATA then ret (Some (VData (_data n)))
            else if flag opts SEARCH_NODES then ret (Some (VNode p))
            else ret None
        | None => ret None
        end
  | None => ret None
  end.

(** [strDelete].  The buffers of keys and data belong to the caller and
    are outside this model: of [opts] only the sign is looked at. *)
Definition strDelete (tree : option AVLStrTree) (key : option string) (opts : Z)
  : M (Z * option AVLStrTree) :=
  match tree, key with
  | Some tr, Some _ =>
      if opts <? 0 then ret (0, tree)
      else
        toDelete <- _searchStrNode tr key ;;
        match toDelete with
        | Some _ =>
            d <- deref toDelete ;;
            toFree <- match _leftSon d, _rightSon d with
                      | Some _, Some _ =>
                          maxLeft <- _strMaxKeySon (_leftSon d) ;;
                          _strSwapInfo toDelete maxLeft ;;;
                          _strCutOneSonNode maxLeft
                      | _, _ => _strCutOneSonNode toDelete
                      end ;;
            free toFree ;;;
            let count := ulong_decr (nodesCount tr) in
            let root := if count =? 0 then None else _root tr in
            ret (1, Some (mkTree root count (maxNodes tr)))
        | None => ret (0, tree)
        end
  | _, _ => ret (0, tree)
  end.

(** The descent of [strInsert]: its result is [pred] at loop exit. *)
Fixpoint strInsert_loop (fuel : nat) (curr pred : option ptr) (newKey : string)
  : M (option ptr) :=
  match curr with
  | None => ret pred
  | Some _ =>
      match fuel with
      | O => fault
      | S fuel' =>
          c <- deref curr ;;
          let comp := strcmp (_key c) newKey in
          if 0 <=? comp then strInsert_loop fuel' (_leftSon c) curr newKey
          else strInsert_loop fuel' (_rightSon c) curr newKey
      end
  end.

(** [strInsert]; [fresh] is what [malloc] returns to [_createStrNode]. *)
Definition strInsert (tree : option AVLStrTree) (newKey : option string) (newData : Z)
    (fresh : option ptr) : M (Z * option AVLStrTree) :=
  match tree, newKey with
  | Some tr, Some k =>
      if nodesCount tr =? maxNodes tr then ret (0, tree)
      else
        newNode <- _createStrNode fresh k newData ;;
        match _root tr with
        | None =>
            let count := ulong_incr (nodesCount tr) in
            ret (count, Some (mkTree newNode count (maxNodes tr)))
        | Some _ =>
            pred <- with_fuel (fun fuel => strInsert_loop fuel (_root tr) None k) ;;
            p <- deref pred ;;
            let comp := strcmp (_key p) k in
            (if 0 <=? comp then _strInsertAsLeftSubtree pred newNode
             else _strInsertAsRightSubtree pred newNode) ;;;
            _strBalanceInsert newNode ;;;
            let count := ulong_incr (nodesCount tr) in
            ret (count, Some (mkTree (_root tr) count (maxNodes tr)))
        end
  | _, _ => ret (0, tree)
  end.

(** [strDFS]; [calloc_ok] tells whether the result array could be
    allocated.  Inner [None]: the function returned NULL. *)
Definition strDFS (hp : heap) (tree : option AVLStrTree) (type opts : Z)
    (calloc_ok : bool) : option (option buffer) :=
  if (type <=? 0) || (opts <=? 0) then Some None
  else
    match tree with
    | None => Some None
    | Some tr =>
        match _root tr with
        | None => Some None
        | Some _ =>
            let intOpt :=
              if flag opts SEARCH_DATA then Some SEARCH_DATA
              else if flag opts SEARCH_KEYS then Some SEARCH_KEYS
              else if flag opts SEARCH_NODES then Some SEARCH_NODES
              else None in
            match intOpt with
            | None => Some None
            | Some intOpt =>
                if negb calloc_ok then Some None
                else
                  let dfsRes := replicate (Z.to_nat (nodesCount tr)) None in
                  let fuel := S (size hp) in
                  if flag type DFS_PRE_ORDER then
                    r ← _strPreODFS fuel hp (_root tr) intOpt dfsRes 0; Some (Some r.1)
                  else if flag type DFS_IN_ORDER then
                    r ← _strInODFS fuel hp (_root tr) intOpt dfsRes 0; Some (Some r.1)
                  else if flag type DFS_POST_ORDER then
                    r ← _strPostODFS fuel hp (_root tr) intOpt dfsRes 0; Some (Some r.1)
                  else Some None
            end
        end
    end.

(** The loop of [strBFS]: [i] runs over the array, which doubles as the
    queue of the nodes still to visit; [intPtr] is the end of the queue. *)
Fixpoint strBFS_loop (steps : nat) (hp : heap) (type opts : Z)
    (bfsRes : buffer) (i intPtr : Z) : option buffer :=
  match steps with
  | O => Some bfsRes
  | S steps' =>
      cell ← bfsRes !! Z.to_nat i;
      p ← match cell with Some (VNode p) => Some p | _ => None end;
      curr ← hp !! p;
      res1 ← (if flag opts SEARCH_DATA then buf_write bfsRes i (Some (VData (_data curr)))
              else if flag opts SEARCH_KEYS then buf_write bfsRes i (Some (VKey (_key curr)))
              else if flag opts SEARCH_NODES then buf_write bfsRes i (Some (VNode p))
              else Some bfsRes);
      let enqueue (son : option ptr) (st : buffer * Z) : option (buffer * Z) :=
        match son with
        | Some s => b ← buf_write st.1 st.2 (Some (VNode s)); Some (b, st.2 + 1)
        | None => Some st
        end in
      '(res2, intPtr2) ←
        (if flag type BFS_LEFT_FIRST then
           st ← enqueue (_leftSon curr) (res1, intPtr); enqueue (_rightSon curr) st
         else if flag type BFS_RIGHT_FIRST then
           st ← enqueue (_rightSon curr) (res1, intPtr); enqueue (_leftSon curr) st
         else Some (res1, intPtr));
      strBFS_loop steps' hp type opts res2 (i + 1) intPtr2
  end.

(** [strBFS] *)
Definition strBFS (hp : heap) (tree : option AVLStrTree) (type opts : Z)
    (calloc_ok : bool) : option (option buffer) :=
  match tree with
  | None => Some None
  | Some tr =>
      match _root tr with
      | None => Some None
      | Some r =>
          if (type <=? 0) || (opts <=? 0)
             || negb (flag type BFS_LEFT_FIRST || flag type BFS_RIGHT_FIRST)
             || negb (flag opts SEARCH_KEYS || flag opts SEARCH_DATA
                      || flag opts SEARCH_NODES)
          then Some None
          else if negb calloc_ok then Some None
          else
            let bfsRes := replicate (Z.to_nat (nodesCount tr)) None in
            res ← buf_write bfsRes 0 (Some (VNode r));
            res' ← strBFS_loop (Z.to_nat (nodesCount tr)) hp type opts res 0 1;
            Some (Some res')
      end
  end.

(** ** Sequences of operations *)

(** The states a program can build with the library: it starts from an
    empty tree with some capacity, and each step is a call of [strInsert]
    (with the fresh address that [malloc] returned) or of [strDelete] that
    ran to completion.  The last component is the history of the entries
    whose insertion succeeded, the most recent first. *)
Inductive built : heap -> AVLStrTree -> list (string * Z) -> Prop :=
| built_create cap :
    0 <= cap <= ULONG_MAX ->
    built ∅ (mkTree None 0 cap) []
| built_insert hp tr hist k d p r hp' tr' :
    built hp tr hist ->
    hp !! p = None ->
    strInsert (Some tr) (Some k) d (Some p) hp = Some ((r, Some tr'), hp') ->
    r <> 0 ->
    built hp' tr' ((k, d) :: hist)
| built_insert_full hp tr hist k d p hp' tr' :
    built hp tr hist ->
    hp !! p = None ->
    strInsert (Some tr) (Some k) d (Some p) hp = Some ((0, Some tr'), hp') ->
    built hp' tr' hist
| built_delete hp tr hist k opts r hp' tr' :
    built hp tr hist ->
    strDelete (Some tr) (Some k) opts hp = Some ((r, Some tr'), hp') ->
    built hp' tr' hist.

(** ** Trees represented by a heap *)

(** The tree of node objects that hangs from a pointer: each node with
    its address, its key and datum, and its cached height. *)
Inductive tree : Type :=
| E
| T (p : ptr) (l : tree) (k : string) (d : Z) (h : Z) (r : tree).

Definition root (t : tree) : option ptr :=
  match t with
  | E => None
  | T p _ _ _ _ _ => Some p
  end.

(** Addresses of the nodes of a tree. *)
Fixpoint ptrs (t : tree) : list ptr :=
  match t with
  | E => []
  | T p l _ _ _ r => p :: ptrs l ++ ptrs r
  end.

(** Nodes and entries in symmetric order. *)
Fixpoint nodes (t : tree) : list ptr :=
  match t with
  | E => []
  | T p l _ _ _ r => nodes l ++ p :: nodes r
  end.

Fixpoint entries (t : tree) : list (string * Z) :=
  match t with
  | E => []
  | T _ l k d _ r => entries l ++ (k, d) :: entries r
  end.

(** [rep hp fa t]: the heap holds the nodes of [t], linked as in [t],
    and the father of the root of [t] is [fa]. *)
Fixpoint rep (hp : heap) (fa : option ptr) (t : tree) : Prop :=
  match t with
  | E => True
  | T p l k d h r =>
      hp !! p = Some (mkNode fa (root l) (root r) h k d)
      /\ rep hp (Some p) l /\ rep hp (Some p) r
  end.

(** Reading the tree below a pointer back from the heap. *)
Fixpoint reify (fuel : nat) (hp : heap) (p : option ptr) : option tree :=
  match p with
  | None => Some E
  | Some q =>
      match fuel with
      | O => None
      | S fuel' =>
          n ← hp !! q;
          l ← reify fuel' hp (_leftSon n);
          r ← reify fuel' hp (_rightSon n);
          Some (T q l (_key n) (_data n) (_height n) r)
      end
  end.

(** Heights, cached and real. *)
Definition height_a (t : tree) : Z :=
  match t with
  | E => -1
  | T _ _ _ _ h _ => h
  end.

Fixpoint real_height (t : tree) : Z :=
  match t with
  | E => -1
  | T _ l _ _ _ r => 1 + Z.max (real_height l) (real_height r)
  end.

(** The AVL balance invariant, on the heights of the subtrees. *)
Fixpoint balanced (t : tree) : bool :=
  match t with
  | E => true
  | T _ l _ _ _ r =>
      (Z.abs (real_height l - real_height r) <=? 1) && balanced l && balanced r
  end.

(** Consistency of the cached heights. *)
Fixpoint heights_consistent (t : tree) : bool :=
  match t with
  | E => true
  | T _ l _ _ h r =>
      (h =? 1 + Z.max (height_a l) (height_a r))
      && heights_consistent l && heights_consistent r
  end.

(** Cached heights are never negative. *)
Fixpoint heights_nonneg (t : tree) : Prop :=
  match t with
  | E => True
  | T _ l _ _ h r => 0 <= h /\ heights_nonneg l /\ heights_nonneg r
  end.

(** Keys in non-decreasing order. *)
Definition key_le (a b : string) : Prop := strcmp a b <= 0.
Definition sorted_keys (l : list (string * Z)) : Prop := Sorted key_le (map fst l).

Definition keys_lt (k : string) (l : list (string * Z)) : Prop :=
  Forall (fun e => strcmp (fst e) k < 0) l.
Definition keys_ge (k : string) (l : list (string * Z)) : Prop :=
  Forall (fun e => 0 <= strcmp (fst e) k) l.

(** The invariant of the container. *)
Record tree_inv (hp : heap) (tr : AVLStrTree) (t : tree) : Prop := mk_tree_inv {
  inv_rep : rep hp None t;
  inv_nodup : NoDup (ptrs t);
  inv_root : _root tr = root t;
  inv_count : nodesCount tr = Z.of_nat (length (ptrs t));
  inv_cap : nodesCount tr <= maxNodes tr <= ULONG_MAX;
  inv_heights : heights_nonneg t;
  inv_sorted : sorted_keys (entries t)
}.

(** ** The operations on trees *)

Definition bf_a (t : tree) : Z :=
  match t with
  | E => 0
  | T _ l _ _ _ r => height_a l - height_a r
  end.

Definition updateHeight_a (t : tree) : tree :=
  match t with
  | E => E
  | T p l k d _ r => T p l k d (MAX (height_a l) (height_a r) + 1) r
  end.

Definition rightRotation_a (t : tree) : tree :=
  match t with
  | T n (T l a kl dl hl b) kn dn hn c =>
      updateHeight_a (T n a kl dl hn (updateHeight_a (T l b kn dn hl c)))
  | _ => t
  end.

Definition leftRotation_a (t : tree) : tree :=
  match t with
  | T n a kn dn hn (T r b kr dr hr c) =>
      updateHeight_a (T n (updateHeight_a (T r a kn dn hr b)) kr dr hn c)
  | _ => t
  end.

Definition rotate_a (t : tree) : tree :=
  match t with
  | E => E
  | T n l k d h r =>
      if bf_a t =? 2 then
        if 0 <=? bf_a l then rightRotation_a t
        else rightRotation_a (T n (leftRotation_a l) k d h r)
      else if bf_a t =? -2 then
        if bf_a r <=? 0 then leftRotation_a t
        else leftRotation_a (T n l k d h (rightRotation_a r))
      else t
  end.

(** What an operation leaves alone: the cells outside [ps], and the set
    of allocated addresses. *)
Definition same_outside (ps : list ptr) (hp hp' : heap) : Prop :=
  (forall q, q ∉ ps -> hp' !! q = hp !! q) /\ dom hp' = dom hp.

Definition left_of (t : tree) : tree :=
  match t with E => E | T _ l _ _ _ _ => l end.
Definition right_of (t : tree) : tree :=
  match t with E => E | T _ _ _ _ _ r => r end.

(** One step of either walk: rotate or refresh the height. *)
Definition rebalance_step (t : tree) : tree :=
  if 2 <=? Z.abs (bf_a t) then rotate_a t else updateHeight_a t.

(** Paths from a node up to the root: each frame is an ancestor with
    its other subtree; the innermost ancestor comes first. *)
Inductive frame : Type :=
| FL (p : ptr) (k : string) (d : Z) (h : Z) (r : tree)
| FR (p : ptr) (l : tree) (k : string) (d : Z) (h : Z).

Abbreviation ctx := (list frame) (only parsing).

Definition fill (f : frame) (t : tree) : tree :=
  match f with
  | FL p k d h r => T p t k d h r
  | FR p l k d h => T p l k d h t
  end.

Fixpoint plug (c : ctx) (t : tree) : tree :=
  match c with
  | [] => t
  | f :: c' => plug c' (fill f t)
  end.

Definition frame_ptr (f : frame) : ptr :=
  match f with
  | FL p _ _ _ _ => p
  | FR p _ _ _ _ => p
  end.

(** The father of the node at the end of a path that starts below
    [top]; for a path from the root, [top] is NULL. *)
Definition ctx_father_from (top : option ptr) (c : ctx) : option ptr :=
  match c with
  | [] => top
  | f :: _ => Some (frame_ptr f)
  end.

Abbreviation ctx_father c := (ctx_father_from None c).

Definition frame_ptrs (f : frame) : list ptr :=
  match f with
  | FL p _ _ _ r => p :: ptrs r
  | FR p l _ _ _ => p :: ptrs l
  end.

Fixpoint ctx_ptrs (c : ctx) : list ptr :=
  match c with
  | [] => []
  | f :: c' => frame_ptrs f ++ ctx_ptrs c'
  end.

(** The heap holds the ancestors along a path, the innermost one
    pointing at [hole]. *)
Fixpoint rep_ctx_from (hp : heap) (top : option ptr) (c : ctx) (hole : option ptr)
  : Prop :=
  match c with
  | [] => True
  | FL p k d h r :: c' =>
      hp !! p = Some (mkNode (ctx_father_from top c') hole (root r) h k d)
      /\ rep hp (Some p) r /\ rep_ctx_from hp top c' (Some p)
  | FR p l k d h :: c' =>
      hp !! p = Some (mkNode (ctx_father_from top c') (root l) hole h k d)
      /\ rep hp (Some p) l /\ rep_ctx_from hp top c' (Some p)
  end.

Abbreviation rep_ctx hp c hole := (rep_ctx_from hp None c hole).

(** Entries before and after the end of a path, in symmetric order. *)
Fixpoint ctx_before (c : ctx) : list (string * Z) :=
  match c with
  | [] => []
  | FL _ _ _ _ _ :: c' => ctx_before c'
  | FR _ l k d _ :: c' => ctx_before c' ++ entries l ++ [(k, d)]
  end.

Fixpoint ctx_after (c : ctx) : list (string * Z) :=
  match c with
  | [] => []
  | FL _ k d _ r :: c' => (k, d) :: entries r ++ ctx_after c'
  | FR _ _ _ _ _ :: c' => ctx_after c'
  end.

(** The descent of [strInsert]: the path to the free place of a key. *)
Fixpoint descend (k : string) (t : tree) (c : ctx) : ctx :=
  match t with
  | E => c
  | T p l k' d h r =>
      if 0 <=? strcmp k' k then descend k l (FL p k' d h r :: c)
      else descend k r (FR p l k' d h :: c)
  end.

(** The descent of [_searchStrNode]: the path to the first node met
    with the key, and the subtree of that node. *)
Fixpoint find (k : string) (t : tree) (c : ctx) : option (ctx * tree) :=
  match t with
  | E => None
  | T p l k' d h r =>
      if 0 <? strcmp k' k then find k l (FL p k' d h r :: c)
      else if strcmp k' k <? 0 then find k r (FR p l k' d h :: c)
      else Some (c, t)
  end.

(** The walk of [_strBalanceInsert] from the father of the new node. *)
Fixpoint balanceInsert_a (c : ctx) (t : tree) : tree :=
  match c with
  | [] => t
  | f :: c' =>
      let t1 := fill f t in
      if 2 <=? Z.abs (bf_a t1) then plug c' (rotate_a t1)
      else balanceInsert_a c' (updateHeight_a t1)
  end.

(** The walk of [_strBalanceDelete]. *)
Fixpoint balanceDelete_a (c : ctx) (t : tree) : tree :=
  match c with
  | [] => t
  | f :: c' =>
      let t1 := fill f t in
      balanceDelete_a c'
        (if 2 <=? Z.abs (bf_a t1) then rotate_a t1 else updateHeight_a t1)
  end.

Definition head_ok (k : string) (c : ctx) : Prop :=
  match c with
  | [] => True
  | FL _ k' _ _ _ :: _ => (0 <=? strcmp k' k) = true
  | FR _ _ k' _ _ :: _ => (0 <=? strcmp k' k) = false
  end.

Definition insert_a (p : ptr) (k : string) (d : Z) (t : tree) : tree :=
  match t with
  | E => T p E k d 0 E
  | _ => balanceInsert_a (descend k t []) (T p E k d 0 E)
  end.

(** The path to the node with the greatest key. *)
Fixpoint maxKeySon_a (t : tree) (c : ctx) : ctx * tree :=
  match t with
  | E => (c, E)
  | T p l k d h r =>
      match r with
      | E => (c, t)
      | T _ _ _ _ _ _ => maxKeySon_a r (FR p l k d h :: c)
      end
  end.

(** [_strCutOneSonNode] at the root of [t], below the path [c]: the tree
    that remains and the node that was detached. *)
Definition cutOneSonNode_a (c : ctx) (t : tree) : tree * option ptr :=
  match t with
  | E => (plug c E, None)
  | T p l k d h r =>
      match (match l with E => r | _ => l end) with
      | E =>
          (balanceDelete_a c E, Some p)
      | T ps sl ks ds hs sr =>
          (balanceDelete_a c (T p sl ks ds h sr), Some ps)
      end
  end.

Definition set_payload (k : string) (d : Z) (t : tree) : tree :=
  match t with
  | E => E
  | T p l _ _ h r => T p l k d h r
  end.

Definition payload (t : tree) : string * Z :=
  match t with
  | E => (EmptyString, 0)
  | T _ _ k d _ _ => (k, d)
  end.

(** [strDelete] on the tree: the new tree and the node that is freed. *)
Definition delete_a (key : string) (t : tree) : option (tree * option ptr) :=
  match find key t [] with
  | None => None
  | Some (c, E) => None
  | Some (c, T p l k d h r) =>
      match l, r with
      | T _ _ _ _ _ _, T _ _ _ _ _ _ =>
          let '(ci, m) := maxKeySon_a l [] in
          let '(km, dm) := payload m in
          Some (cutOneSonNode_a (ci ++ FL p km dm h r :: c) (set_payload k d m))
      | _, _ => Some (cutOneSonNode_a c (T p l k d h r))
      end
  end.

(** The node a search stops at. *)
Definition found_root (r : option (ctx * tree)) : option ptr :=
  match r with
  | Some (_, t) => root t
  | None => None
  end.

(** A path that only goes to the right. *)
Definition all_right (c : ctx) : Prop :=
  Forall (fun f => match f with FR _ _ _ _ _ => True | FL _ _ _ _ _ => False end) c.

(** The values a search stores, for a projection [pr] of the nodes. *)
Fixpoint inorder_vals (pr : ptr -> string -> Z -> cval) (t : tree) : list (option cval) :=
  match t with
  | E => []
  | T p l k d _ r => inorder_vals pr l ++ Some (pr p k d) :: inorder_vals pr r
  end.

(** The entries with a given key. *)
Definition with_key (k : string) (l : list (string * Z)) : list (string * Z) :=
  filter (fun e => fst e = k) l.

(** For each key, the entries of the tree with that key, in symmetric
    order, follow the history of the insertions read from the last one. *)
Definition hist_ok (l hist : list (string * Z)) : Prop :=
  forall k, sublist (with_key k l) (with_key k hist).

(** ** Programs *)

(** A call of the library: an insertion with the address that [malloc]
    returns, or a deletion. *)
Inductive op : Type :=
| OpInsert (k : string) (d : Z) (fresh : ptr)
| OpDelete (k : string) (opts : Z).

(** One call on a state: heap, tree and history of the insertions. *)
Definition step_op (o : op) (st : heap * AVLStrTree * list (string * Z))
  : option (heap * AVLStrTree * list (string * Z)) :=
  let '(hp, tr, hist) := st in
  match o with
  | OpInsert k d p =>
      match hp !! p with
      | Some _ => None
      | None =>
          match strInsert (Some tr) (Some k) d (Some p) hp with
          | Some ((r, Some tr'), hp') =>
              Some (hp', tr', if r =? 0 then hist else (k, d) :: hist)
          | _ => None
          end
      end
  | OpDelete k opts =>
      match strDelete (Some tr) (Some k) opts hp with
      | Some ((_, Some tr'), hp') => Some (hp', tr', hist)
      | _ => None
      end
  end.

Fixpoint run_ops (ops : list op) (st : heap * AVLStrTree * list (string * Z))
  : option (heap * AVLStrTree * list (string * Z)) :=
  match ops with
  | [] => Some st
  | o :: ops' =>
      match step_op o st with
      | Some st' => run_ops ops' st'
      | None => None
      end
  end.

(** Insertions of a list of entries at the addresses [start],
    [start + 1], ... *)
Fixpoint inserts_from (start : ptr) (items : list (string * Z)) : list op :=
  match items with
  | [] => []
  | (k, d) :: items' => OpInsert k d start :: inserts_from (Pos.succ start) items'
  end.

(** ** Trees of entries *)

(** A tree of entries, without the node objects and the heights. *)
Inductive ptree : Type :=
| PE
| PT (l : ptree) (e : string * Z) (r : ptree).

Fixpoint erase (t : tree) : ptree :=
  match t with
  | E => PE
  | T _ l k d _ r => PT (erase l) (k, d) (erase r)
  end.

(** The classical rotations of a binary search tree. *)
Definition classic_rotate_right (t : ptree) : ptree :=
  match t with
  | PT (PT a x b) y c => PT a x (PT b y c)
  | _ => t
  end.

Definition classic_rotate_left (t : ptree) : ptree :=
  match t with
  | PT a x (PT b y c) => PT (PT a x b) y c
  | _ => t
  end.

(** Nodes with their keys, and the depth of a node. *)
Fixpoint node_keys (t : tree) : list (ptr * string) :=
  match t with
  | E => []
  | T p l k _ _ r => (p, k) :: node_keys l ++ node_keys r
  end.

Fixpoint depth_in (q : ptr) (t : tree) : option nat :=
  match t with
  | E => None
  | T p l _ _ _ r =>
      if decide (q = p) then Some O
      else match depth_in q l with
           | Some n => Some (S n)
           | None => match depth_in q r with
                     | Some n => Some (S n)
                     | None => None
                     end
           end
  end.

Definition frame_key (f : frame) : string :=
  match f with
  | FL _ k _ _ _ => k
  | FR _ _ k _ _ => k
  end.

(** What [strSearch] returns for the outcome of the descent. *)
Definition search_result (opts : Z) (r : option (ctx * tree)) : option cval :=
  match r with
  | Some (_, T p _ _ d _ _) =>
      if opts <=? 0 then None
      else if flag opts SEARCH_DATA then Some (VData d)
      else if flag opts SEARCH_NODES then Some (VNode p)
      else None
  | _ => None
  end.

(** ** Option flags as the operations read them *)

Inductive projection : Type := PData | PKeys | PNodes.
Inductive dfs_order : Type := PreOrder | InOrder | PostOrder.
Inductive bfs_direction : Type := LeftFirst | RightFirst.

Definition projection_flag (p : projection) : Z :=
  match p with
  | PData => SEARCH_DATA
  | PKeys => SEARCH_KEYS
  | PNodes => SEARCH_NODES
  end.

Definition order_flag (o : dfs_order) : Z :=
  match o with
  | PreOrder => DFS_PRE_ORDER
  | InOrder => DFS_IN_ORDER
  | PostOrder => DFS_POST_ORDER
  end.

Definition direction_flag (d : bfs_direction) : Z :=
  match d with
  | LeftFirst => BFS_LEFT_FIRST
  | RightFirst => BFS_RIGHT_FIRST
  end.

(** The cascades of tests of [strDFS] and [strBFS]: the first flag that
    is set decides. *)
Definition projection_of (opts : Z) : option projection :=
  if flag opts SEARCH_DATA then Some PData
  else if flag opts SEARCH_KEYS then Some PKeys
  else if flag opts SEARCH_NODES then Some PNodes
  else None.

Definition order_of (type : Z) : option dfs_order :=
  if flag type DFS_PRE_ORDER then Some PreOrder
  else if flag type DFS_IN_ORDER then Some InOrder
  else if flag type DFS_POST_ORDER then Some PostOrder
  else None.

Definition direction_of (type : Z) : option bfs_direction :=
  if flag type BFS_LEFT_FIRST then Some LeftFirst
  else if flag type BFS_RIGHT_FIRST then Some RightFirst
  else None.

(** The cascade of [strSearch], which has no test for the keys. *)
Definition search_projection_of (opts : Z) : option projection :=
  if flag opts SEARCH_DATA then Some PData
  else if flag opts SEARCH_NODES then Some PNodes
  else None.

(** ** The orders of the depth-first searches *)

(** The value that a search stores for a node, by projection. *)
Definition proj_val (pj : projection) (p : ptr) (k : string) (d : Z) : cval :=
  match pj with
  | PData => VData d
  | PKeys => VKey k
  | PNodes => VNode p
  end.



(** ** The AVL invariant on cached heights *)

(** Every cached height is one more than the greater height of the two
    subtrees, and the heights of the two subtrees differ by one at most. *)
Fixpoint avl (t : tree) : Prop :=
  match t with
  | E => True
  | T _ l _ _ h r =>
      h = 1 + Z.max (height_a l) (height_a r)
      /\ -1 <= height_a l - height_a r <= 1
      /\ avl l /\ avl r
  end.

(** Programs that only insert. *)
Definition is_insert (o : op) : bool :=
  match o with
  | OpInsert _ _ _ => true
  | OpDelete _ _ => false
  end.

Definition is_leaf (t : tree) : bool :=
  match t with
  | T _ E _ _ _ E => true
  | _ => false
  end.

(** The node that [strDelete] unlinks and frees for a key: the node
    where the search stops, or, when that node has two sons, the node
    with the greatest key of its left subtree. *)
Definition unlinked (key : string) (t : tree) : option tree :=
  match find key t [] with
  | Some (_, T p l k d h r) =>
      match l, r with
      | T _ _ _ _ _ _, T _ _ _ _ _ _ => Some (snd (maxKeySon_a l []))
      | _, _ => Some (T p l k d h r)
      end
  | _ => None
  end.

(** ** The breadth-first search on trees *)

Definition nonempty (t : tree) : list tree :=
  match t with
  | E => []
  | T _ _ _ _ _ _ => [t]
  end.

(** The sons of a node in the order in which [strBFS] queues them. *)
Definition sons (dr : bfs_direction) (t : tree) : list tree :=
  match t with
  | E => []
  | T _ l _ _ _ r =>
      match dr with
      | LeftFirst => nonempty l ++ nonempty r
      | RightFirst => nonempty r ++ nonempty l
      end
  end.

(** The visit with a queue of subtrees, one node for each step. *)
Fixpoint bfs_a (steps : nat) (dr : bfs_direction) (queue : list tree) : list tree :=
  match steps with
  | O => []
  | S steps' =>
      match queue with
      | [] => []
      | t :: q => t :: bfs_a steps' dr (q ++ sons dr t)
      end
  end.

(** The subtrees whose root is at a given depth, from the side that the
    direction names. *)
Fixpoint at_depth (dr : bfs_direction) (n : nat) (t : tree) {struct t} : list tree :=
  match t with
  | E => []
  | T _ l _ _ _ r =>
      match n with
      | O => [t]
      | S n' =>
          match dr with
          | LeftFirst => at_depth dr n' l ++ at_depth dr n' r
          | RightFirst => at_depth dr n' r ++ at_depth dr n' l
          end
      end
  end.

(** The nodes level by level: depth 0, then depth 1, and so on. *)
Definition level_order (dr : bfs_direction) (t : tree) : list tree :=
  flat_map (fun n => at_depth dr n t) (seq 0 (length (ptrs t))).

(** The cell that a search fills for a node, and the cell of the queue. *)
Definition node_val (pr : ptr -> string -> Z -> cval) (t : tree) : option cval :=
  match t with
  | E => None
  | T p _ k d _ _ => Some (pr p k d)
  end.

Definition total_size (ts : list tree) : nat := length (flat_map ptrs ts).

(** ** [deleteStrTree] *)

(** [_deleteStrNode] *)
Definition _deleteStrNode (node : option ptr) : M unit := free node.

(** The loop of [deleteStrTree] over the array that [strBFS] returned;
    the array is [None] when [strBFS] returned NULL.  The keys and the
    data are buffers of the caller: the model reads the fields that hold
    them and leaves the buffers alone. *)
Fixpoint deleteStrTree_loop (steps : nat) (nodes : option (list (option cval)))
    (opts : Z) (i : Z) : M unit :=
  match steps with
  | O => ret tt
  | S steps' =>
      match nodes with
      | None => fault
      | Some arr =>
          match arr !! Z.to_nat i with
          | None => fault
          | Some (Some (VKey _)) | Some (Some (VData _)) => fault
          | Some cell =>
              let node := match cell with
                          | Some (VNode p) => Some p
                          | _ => None
                          end in
              (if flag opts DELETE_FREE_KEYS then deref node ;;; ret tt else ret tt) ;;;
              (if flag opts DELETE_FREE_DATA then deref node ;;; ret tt else ret tt) ;;;
              _deleteStrNode node ;;;
              deleteStrTree_loop steps' nodes opts (i + 1)
          end
      end
  end.

(** [deleteStrTree]; [calloc_ok] tells whether the array of [strBFS]
    could be allocated.  The tree record is freed: no tree is left. *)
Definition deleteStrTree (tree : option AVLStrTree) (opts : Z) (calloc_ok : bool)
  : M (Z * option AVLStrTree) :=
  match tree with
  | None => ret (-1, None)
  | Some tr =>
      if opts <? 0 then ret (-1, tree)
      else
        match _root tr with
        | None => ret (0, None)
        | Some _ =>
            fun hp =>
              match strBFS hp tree BFS_LEFT_FIRST SEARCH_NODES calloc_ok with
              | Some nodes =>
                  (deleteStrTree_loop (Z.to_nat (nodesCount tr)) nodes opts 0 ;;;
                   ret (0, None)) hp
              | None => None
              end
        end
  end.

(** ** Examples *)

(** The tree with the single entry ("a", 7). *)
Definition heap_a : heap := <[1%positive := mkNode None None None 0 "a" 7]> ∅.
Definition tree_a : AVLStrTree := mkTree (Some 1%positive) 1 ULONG_MAX.

(** Three insertions, two of them with the same key. *)
Definition dup_ops : list op :=
  [OpInsert "a" 1 1; OpInsert "a" 2 2; OpInsert "b" 3 3].
Definition heap_dup : heap :=
  <[1%positive := mkNode None (Some 2%positive) (Some 3%positive) 1 "a" 1]>
    (<[2%positive := mkNode (Some 1%positive) None None 0 "a" 2]>
       (<[3%positive := mkNode (Some 1%positive) None None 0 "b" 3]> ∅)).
Definition tree_dup : AVLStrTree := mkTree (Some 1%positive) 3 ULONG_MAX.
Definition shape_dup : tree :=
  T 1 (T 2 E "a" 2 0 E) "a" 1 1 (T 3 E "b" 3 0 E).

(** A left-heavy tree of three nodes, before and after a rotation. *)
Definition heap_rot : heap :=
  <[1%positive := mkNode None (Some 2%positive) None 2 "c" 30]>
    (<[2%positive := mkNode (Some 1%positive) (Some 3%positive) None 1 "b" 20]>
       (<[3%positive := mkNode (Some 2%positive) None None 0 "a" 10]> ∅)).
Definition shape_rot : tree :=
  T 1 (T 2 (T 3 E "a" 10 0 E) "b" 20 1 E) "c" 30 2 E.

Definition shape_a : tree := T 1 E "a" 7 0 E.

(** Seven insertions that build a tree of height 3 whose node "b" has
    the single son "a" and whose right subtree is one level deeper. *)
Definition unbalancing_inserts : list op :=
  [OpInsert "d" 0 1; OpInsert "b" 0 2; OpInsert "f" 0 3; OpInsert "a" 0 4;
   OpInsert "e" 0 5; OpInsert "g" 0 6; OpInsert "h" 0 7].
Definition unbalancing_hist : list (string * Z) :=
  [("h", 0); ("g", 0); ("e", 0); ("a", 0); ("f", 0); ("b", 0); ("d", 0)].
Definition heap_before_cut : heap :=
  <[1%positive := mkNode None (Some 2%positive) (Some 3%positive) 3 "d" 0]>
    (<[2%positive := mkNode (Some 1%positive) (Some 4%positive) None 1 "b" 0]>
    (<[3%positive := mkNode (Some 1%positive) (Some 5%positive) (Some 6%positive) 2 "f" 0]>
    (<[4%positive := mkNode (Some 2%positive) None None 0 "a" 0]>
    (<[5%positive := mkNode (Some 3%positive) None None 0 "e" 0]>
    (<[6%positive := mkNode (Some 3%positive) None (Some 7%positive) 1 "g" 0]>
    (<[7%positive := mkNode (Some 6%positive) None None 0 "h" 0]> ∅)))))).
Definition tree_before_cut : AVLStrTree := mkTree (Some 1%positive) 7 ULONG_MAX.
Definition shape_before_cut : tree :=
  T 1 (T 2 (T 4 E "a" 0 0 E) "b" 0 1 E) "d" 0 3
      (T 3 (T 5 E "e" 0 0 E) "f" 0 2 (T 6 E "g" 0 1 (T 7 E "h" 0 0 E))).

(** The same tree once "b" is deleted. *)
Definition heap_after_cut : heap :=
  <[1%positive := mkNode None (Some 2%positive) (Some 3%positive) 3 "d" 0]>
    (<[2%positive := mkNode (Some 1%positive) None None 1 "a" 0]>
    (<[3%positive := mkNode (Some 1%positive) (Some 5%positive) (Some 6%positive) 2 "f" 0]>
    (<[5%positive := mkNode (Some 3%positive) None None 0 "e" 0]>
    (<[6%positive := mkNode (Some 3%positive) None (Some 7%positive) 1 "g" 0]>
    (<[7%positive := mkNode (Some 6%positive) None None 0 "h" 0]> ∅))))).
Definition tree_after_cut : AVLStrTree := mkTree (Some 1%positive) 6 ULONG_MAX.
Definition shape_after_cut : tree :=
  T 1 (T 2 E "a" 0 1 E) "d" 0 3
      (T 3 (T 5 E "e" 0 0 E) "f" 0 2 (T 6 E "g" 0 1 (T 7 E "h" 0 0 E))).

(** Two insertions, and the tree once its root "b", which has the single
    son "a", is deleted. *)
Definition stale_inserts : list op := [OpInsert "b" 0 1; OpInsert "a" 0 2].
Definition stale_hist : list (string * Z) := [("a", 0); ("b", 0)].
Definition heap_two : heap :=
  <[1%positive := mkNode None (Some 2%positive) None 1 "b" 0]>
    (<[2%positive := mkNode (Some 1%positive) None None 0 "a" 0]> ∅).
Definition tree_two : AVLStrTree := mkTree (Some 1%positive) 2 ULONG_MAX.
Definition shape_two : tree := T 1 (T 2 E "a" 0 0 E) "b" 0 1 E.
Definition heap_stale : heap := <[1%positive := mkNode None None None 1 "a" 0]> ∅.
Definition tree_stale : AVLStrTree := mkTree (Some 1%positive) 1 ULONG_MAX.
Definition shape_stale : tree := T 1 E "a" 0 1 E.

(** The history of [dup_ops]. *)
Definition dup_hist : list (string * Z) := [("b", 3); ("a", 2); ("a", 1)].

(** The empty tree after an insertion in which [malloc] returned NULL:
    one node counted, none linked; and the state after a second
    insertion, of ("a", 0), in which [malloc] returned node 1. *)
Definition tree_counted : AVLStrTree := mkTree None 1 ULONG_MAX.
Definition heap_short : heap := <[1%positive := mkNode None None None 0 "a" 0]> ∅.
Definition tree_short : AVLStrTree := mkTree (Some 1%positive) 2 ULONG_MAX.

(** * Running the heap monad *)

Lemma bind_run {A B} (m : M A) (k : A -> M B) hp a hp1 R :
  m hp = Some (a, hp1) -> k a hp1 = R -> bind m k hp = R.
Proof. intros H1 H2. unfold bind. rewrite H1. exact H2. Qed.

Lemma deref_run (hp : heap) p n :
  hp !! p = Some n -> deref (Some p) hp = Some (n, hp).
Proof. intros H. unfold deref. rewrite H. reflexivity. Qed.

Lemma modify_run (hp : heap) p f n :
  hp !! p = Some n -> modify (Some p) f hp = Some (tt, <[p := f n]> hp).
Proof. intros H. unfold modify. rewrite H. reflexivity. Qed.

Create HintDb runs.
Create HintDb prims.

Ltac neq := first [ assumption | apply not_eq_sym; assumption | congruence ].

Ltac lookup :=
  repeat first [ rewrite lookup_insert_eq
               | rewrite lookup_insert_ne by neq ];
  first [ reflexivity | eassumption ].

Ltac fields :=
  cbn [_father _leftSon _rightSon _height _key _data
       set_father set_leftSon set_rightSon set_height set_key set_data root
       height_a].

#[local] Hint Unfold _strSetHeight _strHeight _strSwapInfo
  _strInsertAsLeftSubtree _strInsertAsRightSubtree
  _strCutLeftSubtree _strCutRightSubtree : prims.

Ltac run :=
  fields;
  lazymatch goal with
  | |- bind _ _ _ = _ =>
      first [ eapply bind_run; [ solve [run] | cbv beta; run ] | idtac ]
  | |- ret _ _ = _ => reflexivity
  | |- deref (Some _) _ = _ => apply deref_run; lookup
  | |- modify (Some _) _ _ = _ => eapply modify_run; lookup
  | |- _ =>
      first [ solve [eauto 3 with runs]
            | progress autounfold with prims; run
            | idtac ]
  end.

Lemma rep_root_cell hp fa p l k d h r :
  rep hp fa (T p l k d h r) ->
  hp !! p = Some (mkNode fa (root l) (root r) h k d).
Proof. intros [H _]. exact H. Qed.

(** [rep] only reads the cells of the tree. *)
Lemma rep_agree (hp hp' : heap) t : forall fa,
  (forall q, q ∈ ptrs t -> hp' !! q = hp !! q) ->
  rep hp fa t -> rep hp' fa t.
Proof.
  induction t as [|p l IHl k d h r IHr]; intros fa Hag; simpl; [tauto|].
  intros (Hp & Hl & Hr). split; [|split].
  - rewrite Hag; [exact Hp | set_solver].
  - apply IHl; [|exact Hl]. intros q Hq. apply Hag. set_solver.
  - apply IHr; [|exact Hr]. intros q Hq. apply Hag. set_solver.
Qed.

(** Changing the father of the root. *)
Lemma rep_refather (hp hp' : heap) fa fa' p l k d h r :
  rep hp fa (T p l k d h r) ->
  hp' !! p = Some (mkNode fa' (root l) (root r) h k d) ->
  (forall q, q ∈ ptrs l ++ ptrs r -> hp' !! q = hp !! q) ->
  rep hp' fa' (T p l k d h r).
Proof.
  intros (Hp & Hl & Hr) Hp' Hag. split; [exact Hp'|]. split.
  - eapply rep_agree; [|exact Hl]. intros q Hq. apply Hag. set_solver.
  - eapply rep_agree; [|exact Hr]. intros q Hq. apply Hag. set_solver.
Qed.

Lemma rep_ptrs_dom hp fa t q : rep hp fa t -> q ∈ ptrs t -> is_Some (hp !! q).
Proof.
  revert fa. induction t as [|p l IHl k d h r IHr]; intros fa; simpl.
  - intros _ Hq. set_solver.
  - intros (Hp & Hl & Hr) Hq.
    apply elem_of_cons in Hq as [->|Hq]; [eauto|].
    apply elem_of_app in Hq as [Hq|Hq]; eauto.
Qed.

(** Reading heights and balance factors. *)
Lemma height_run hp fa t :
  rep hp fa t -> _strHeight (root t) hp = Some (height_a t, hp).
Proof.
  destruct t as [|p l k d h r]; simpl; [reflexivity|].
  intros (Hp & _). unfold _strHeight. run.
Qed.
#[local] Hint Resolve height_run : runs.

Lemma balanceFactor_run hp fa t :
  rep hp fa t -> _strBalanceFactor (root t) hp = Some (bf_a t, hp).
Proof.
  destruct t as [|p l k d h r]; simpl; [reflexivity|].
  intros (Hp & Hl & Hr). unfold _strBalanceFactor. run.
Qed.
#[local] Hint Resolve balanceFactor_run : runs.


Lemma same_outside_refl ps hp : same_outside ps hp hp.
Proof. split; auto. Qed.

Lemma same_outside_trans ps hp1 hp2 hp3 :
  same_outside ps hp1 hp2 -> same_outside ps hp2 hp3 -> same_outside ps hp1 hp3.
Proof.
  intros [H1 D1] [H2 D2]. split; [|congruence].
  intros q Hq. rewrite H2, H1; auto.
Qed.

Lemma same_outside_mono ps ps' hp hp' :
  (forall q, q ∈ ps -> q ∈ ps') -> same_outside ps hp hp' -> same_outside ps' hp hp'.
Proof. intros Hs [H D]. split; [|exact D]. intros q Hq. apply H. auto. Qed.

Lemma same_outside_insert ps (hp hp' : heap) p n :
  p ∈ ps -> is_Some (hp !! p) -> same_outside ps hp hp' ->
  same_outside ps hp (<[p := n]> hp').
Proof.
  intros Hp Hs [H Hd]. split.
  - intros q Hq. rewrite lookup_insert_ne; [auto|]. intros ->. contradiction.
  - rewrite dom_insert_L, Hd. apply elem_of_dom in Hs.
    apply set_eq. intros x. rewrite elem_of_union, elem_of_singleton.
    split; [intros [->|]; auto | auto].
Qed.

Lemma updateHeight_run hp fa t :
  rep hp fa t -> NoDup (ptrs t) ->
  exists hp', _strUpdateHeight (root t) hp = Some (tt, hp')
    /\ rep hp' fa (updateHeight_a t) /\ same_outside (ptrs t) hp hp'.
Proof.
  destruct t as [|p l k d h r]; simpl.
  - intros _ _. exists hp. split; [reflexivity|]. split; [exact I|apply same_outside_refl].
  - intros (Hp & Hl & Hr) Hnd.
    apply NoDup_cons in Hnd as [Hnp Hnd].
    eexists. split; [|split].
    + unfold _strUpdateHeight. run.
    + fields. split; [|split].
      * rewrite lookup_insert_eq. reflexivity.
      * eapply rep_agree; [|exact Hl]. intros q Hq.
        rewrite lookup_insert_ne; [reflexivity|]. intros ->. set_solver.
      * eapply rep_agree; [|exact Hr]. intros q Hq.
        rewrite lookup_insert_ne; [reflexivity|]. intros ->. set_solver.
    + apply same_outside_insert; [set_solver|eauto|apply same_outside_refl].
Qed.

Lemma disj_cons_l (p : positive) (l1 l2 : list positive) :
  (forall x, x ∈ p :: l1 -> x ∉ l2) -> (p ∉ l2) /\ (forall x, x ∈ l1 -> x ∉ l2).
Proof. intros H. split; [apply H; left|intros x Hx; apply H; right; exact Hx]. Qed.

Lemma disj_cons_r (p : positive) (l1 l2 : list positive) :
  (forall x, x ∈ l1 -> x ∉ p :: l2) -> (p ∉ l1) /\ (forall x, x ∈ l1 -> x ∉ l2).
Proof.
  intros H. split.
  - intros Hp. apply (H p Hp). left.
  - intros x Hx Hx2. apply (H x Hx). right. exact Hx2.
Qed.

Lemma disj_app_l (l1 l1' l2 : list positive) :
  (forall x, x ∈ l1 ++ l1' -> x ∉ l2) ->
  (forall x, x ∈ l1 -> x ∉ l2) /\ (forall x, x ∈ l1' -> x ∉ l2).
Proof.
  intros H. split; intros x Hx; apply H; apply elem_of_app; [left|right]; exact Hx.
Qed.

Lemma disj_app_r (l1 l2 l2' : list positive) :
  (forall x, x ∈ l1 -> x ∉ l2 ++ l2') ->
  (forall x, x ∈ l1 -> x ∉ l2) /\ (forall x, x ∈ l1 -> x ∉ l2').
Proof.
  intros H. split; intros x Hx Hx2; apply (H x Hx); apply elem_of_app; [left|right]; exact Hx2.
Qed.

Ltac nodup_facts :=
  repeat match goal with
  | H : NoDup (_ :: _) |- _ => apply NoDup_cons in H as [? ?]
  | H : NoDup (_ ++ _) |- _ => apply NoDup_app in H as (? & ? & ?)
  | H : NoDup [] |- _ => clear H
  | H : _ ∉ [] |- _ => clear H
  | H : _ ∉ _ :: _ |- _ => apply not_elem_of_cons in H as [? ?]
  | H : _ ∉ _ ++ _ |- _ => apply not_elem_of_app in H as [? ?]
  | H : forall x, x ∈ [] -> _ |- _ => clear H
  | H : forall x, x ∈ _ -> x ∉ [] |- _ => clear H
  | H : forall x, x ∈ _ :: _ -> x ∉ _ |- _ => apply disj_cons_l in H as [? ?]
  | H : forall x, x ∈ _ ++ _ -> x ∉ _ |- _ => apply disj_app_l in H as [? ?]
  | H : forall x, x ∈ _ -> x ∉ _ :: _ |- _ => apply disj_cons_r in H as [? ?]
  | H : forall x, x ∈ _ -> x ∉ _ ++ _ |- _ => apply disj_app_r in H as [? ?]
  end.

Ltac in_list :=
  lazymatch goal with
  | |- ?p ∈ ?p :: _ => apply list_elem_of_here
  | |- _ ∈ _ :: _ => apply list_elem_of_further; in_list
  | |- _ ∈ _ ++ _ =>
      apply elem_of_app; first [ left; solve [in_list] | right; solve [in_list] ]
  | |- _ => assumption
  end.

Ltac solve_same_outside :=
  repeat (apply same_outside_insert; [ in_list | eexists; eassumption | ]);
  apply same_outside_refl.

Ltac solve_agree :=
  let q := fresh "q" in
  let Hq := fresh "Hq" in
  intros q Hq;
  repeat (rewrite lookup_insert_ne; [ | intros ->; contradiction ]);
  reflexivity.

Ltac solve_rep :=
  simpl; repeat split;
  first [ solve [lookup]
        | solve [eapply rep_agree; [ | eassumption ]; solve_agree ] ].

Lemma rightRotation_run_aux hp fa n l a kl dl hl b kn dn hn c :
  let t := T n (T l a kl dl hl b) kn dn hn c in
  rep hp fa t -> NoDup (ptrs t) ->
  exists hp', _strRightRotation (Some n) hp = Some (tt, hp')
    /\ rep hp' fa (rightRotation_a t) /\ same_outside (ptrs t) hp hp'.
Proof.
  intros t (Hn & (Hl & Ha & Hb) & Hc) Hnd. subst t. simpl in Hnd.
  destruct a as [|pa a1 ka da ha a2], b as [|pb b1 kb db hb b2], c as [|pc c1 kc dc hc c2];
    simpl in *; nodup_facts; destruct_and?.
  all: eexists; split; [|split];
    [ unfold _strRightRotation; run; unfold _strUpdateHeight; run
    | solve_rep
    | solve_same_outside ].
Qed.

Lemma leftRotation_run_aux hp fa n a kn dn hn r b kr dr hr c :
  let t := T n a kn dn hn (T r b kr dr hr c) in
  rep hp fa t -> NoDup (ptrs t) ->
  exists hp', _strLeftRotation (Some n) hp = Some (tt, hp')
    /\ rep hp' fa (leftRotation_a t) /\ same_outside (ptrs t) hp hp'.
Proof.
  intros t (Hn & Ha & (Hr & Hb & Hc)) Hnd. subst t. simpl in Hnd.
  destruct a as [|pa a1 ka da ha a2], b as [|pb b1 kb db hb b2], c as [|pc c1 kc dc hc c2];
    simpl in *; nodup_facts; destruct_and?.
  all: eexists; split; [|split];
    [ unfold _strLeftRotation; run; unfold _strUpdateHeight; run
    | solve_rep
    | solve_same_outside ].
Qed.


Lemma rightRotation_run hp fa t :
  is_Some (root (left_of t)) -> rep hp fa t -> NoDup (ptrs t) ->
  exists hp', _strRightRotation (root t) hp = Some (tt, hp')
    /\ rep hp' fa (rightRotation_a t) /\ same_outside (ptrs t) hp hp'.
Proof.
  destruct t as [|n [|l a kl dl hl b] kn dn hn c]; intros Hs;
    try (exfalso; destruct Hs as [? Hs]; discriminate Hs).
  exact (rightRotation_run_aux hp fa n l a kl dl hl b kn dn hn c).
Qed.

Lemma leftRotation_run hp fa t :
  is_Some (root (right_of t)) -> rep hp fa t -> NoDup (ptrs t) ->
  exists hp', _strLeftRotation (root t) hp = Some (tt, hp')
    /\ rep hp' fa (leftRotation_a t) /\ same_outside (ptrs t) hp hp'.
Proof.
  destruct t as [|n a kn dn hn [|r b kr dr hr c]]; intros Hs;
    try (exfalso; destruct Hs as [? Hs]; discriminate Hs).
  exact (leftRotation_run_aux hp fa n a kn dn hn r b kr dr hr c).
Qed.

(** * The operations on trees: shape, addresses, heights, entries *)

Lemma root_updateHeight t : root (updateHeight_a t) = root t.
Proof. destruct t; reflexivity. Qed.

Lemma root_rightRotation t : root (rightRotation_a t) = root t.
Proof. destruct t as [|n [|l a kl dl hl b] kn dn hn c]; reflexivity. Qed.

Lemma root_leftRotation t : root (leftRotation_a t) = root t.
Proof. destruct t as [|n a kn dn hn [|r b kr dr hr c]]; reflexivity. Qed.

Lemma root_rotate t : root (rotate_a t) = root t.
Proof.
  destruct t as [|n l k d h r]; [reflexivity|]. unfold rotate_a.
  repeat case_match; rewrite ?root_rightRotation, ?root_leftRotation; reflexivity.
Qed.

Lemma ptrs_updateHeight t : ptrs (updateHeight_a t) = ptrs t.
Proof. destruct t; reflexivity. Qed.

Lemma ptrs_rightRotation t : ptrs (rightRotation_a t) ≡ₚ ptrs t.
Proof.
  destruct t as [|n [|l a kl dl hl b] kn dn hn c]; try reflexivity.
  simpl. apply perm_skip. rewrite <- !app_assoc. simpl.
  rewrite <- (Permutation_middle (ptrs a)). reflexivity.
Qed.

Lemma ptrs_leftRotation t : ptrs (leftRotation_a t) ≡ₚ ptrs t.
Proof.
  destruct t as [|n a kn dn hn [|r b kr dr hr c]]; try reflexivity.
  simpl. apply perm_skip. rewrite <- !app_assoc. simpl.
  rewrite <- (Permutation_middle (ptrs a)). reflexivity.
Qed.

Lemma ptrs_rotate t : ptrs (rotate_a t) ≡ₚ ptrs t.
Proof.
  destruct t as [|n l k d h r]; [reflexivity|]. unfold rotate_a.
  repeat case_match; rewrite ?ptrs_rightRotation, ?ptrs_leftRotation; simpl;
    rewrite ?ptrs_rightRotation, ?ptrs_leftRotation; reflexivity.
Qed.

Lemma entries_updateHeight t : entries (updateHeight_a t) = entries t.
Proof. destruct t; reflexivity. Qed.

Lemma entries_rightRotation t : entries (rightRotation_a t) = entries t.
Proof.
  destruct t as [|n [|l a kl dl hl b] kn dn hn c]; try reflexivity.
  simpl. rewrite <- !app_assoc. reflexivity.
Qed.

Lemma entries_leftRotation t : entries (leftRotation_a t) = entries t.
Proof.
  destruct t as [|n a kn dn hn [|r b kr dr hr c]]; try reflexivity.
  simpl. rewrite <- !app_assoc. reflexivity.
Qed.

Lemma entries_rotate t : entries (rotate_a t) = entries t.
Proof.
  destruct t as [|n l k d h r]; [reflexivity|]. unfold rotate_a.
  repeat case_match; rewrite ?entries_rightRotation, ?entries_leftRotation; simpl;
    rewrite ?entries_rightRotation, ?entries_leftRotation; reflexivity.
Qed.

Lemma nodes_updateHeight t : nodes (updateHeight_a t) = nodes t.
Proof. destruct t; reflexivity. Qed.

Lemma MAX_lower x y : -1 <= x -> 0 <= MAX x y + 1.
Proof. unfold MAX. destruct (x <=? y) eqn:Hxy; lia. Qed.

Lemma height_a_lower t : heights_nonneg t -> -1 <= height_a t.
Proof. destruct t; simpl; [lia|]. intros (H & _). lia. Qed.

Lemma heights_nonneg_updateHeight t :
  heights_nonneg t -> heights_nonneg (updateHeight_a t).
Proof.
  destruct t as [|p l k d h r]; simpl; [tauto|].
  intros (H & Hl & Hr). split; [|tauto].
  apply MAX_lower. apply height_a_lower. exact Hl.
Qed.

Lemma heights_nonneg_rightRotation t :
  heights_nonneg t -> heights_nonneg (rightRotation_a t).
Proof.
  destruct t as [|n [|l a kl dl hl b] kn dn hn c]; try tauto.
  simpl. intros (H1 & (H2 & Ha & Hb) & Hc).
  repeat split; auto using MAX_lower, height_a_lower.
Qed.

Lemma heights_nonneg_leftRotation t :
  heights_nonneg t -> heights_nonneg (leftRotation_a t).
Proof.
  destruct t as [|n a kn dn hn [|r b kr dr hr c]]; try tauto.
  simpl. intros (H1 & Ha & (H2 & Hb & Hc)).
  repeat split; auto using MAX_lower, height_a_lower.
  apply MAX_lower.
  pose proof (MAX_lower (height_a a) (height_a b) (height_a_lower a Ha)). lia.
Qed.

Lemma heights_nonneg_rotate t :
  heights_nonneg t -> heights_nonneg (rotate_a t).
Proof.
  destruct t as [|n l k d h r]; [tauto|]. unfold rotate_a. intros H.
  repeat case_match; try exact H.
  - apply heights_nonneg_rightRotation. exact H.
  - apply heights_nonneg_rightRotation. simpl in *.
    destruct H as (? & ? & ?). auto using heights_nonneg_leftRotation.
  - apply heights_nonneg_leftRotation. exact H.
  - apply heights_nonneg_leftRotation. simpl in *.
    destruct H as (? & ? & ?). auto using heights_nonneg_rightRotation.
Qed.

(** * Paths *)

Lemma root_fill f t : root (fill f t) = Some (frame_ptr f).
Proof. destruct f; reflexivity. Qed.

Lemma ptrs_fill f t : ptrs (fill f t) ≡ₚ frame_ptrs f ++ ptrs t.
Proof.
  destruct f as [p k d h r|p l k d h]; simpl.
  - apply perm_skip. apply Permutation_app_comm.
  - reflexivity.
Qed.

Lemma ptrs_plug c : forall t, ptrs (plug c t) ≡ₚ ctx_ptrs c ++ ptrs t.
Proof.
  induction c as [|f c IH]; intros t; simpl; [reflexivity|].
  rewrite IH, ptrs_fill. rewrite <- !app_assoc.
  rewrite (Permutation_app_swap_app (ctx_ptrs c)). reflexivity.
Qed.

Lemma entries_fill_eq f t t' :
  entries t' = entries t -> entries (fill f t') = entries (fill f t).
Proof. intros H. destruct f; simpl; rewrite H; reflexivity. Qed.

Lemma entries_plug_eq c : forall t t',
  entries t' = entries t -> entries (plug c t') = entries (plug c t).
Proof.
  induction c as [|f c IH]; intros t t' H; simpl; [exact H|].
  apply IH. apply entries_fill_eq. exact H.
Qed.

Lemma NoDup_T_l p l k d h r : NoDup (ptrs (T p l k d h r)) -> NoDup (ptrs l).
Proof.
  cbn [ptrs]. intros H. apply NoDup_cons in H as [_ H].
  apply NoDup_app in H as (H & _). exact H.
Qed.

Lemma NoDup_T_r p l k d h r : NoDup (ptrs (T p l k d h r)) -> NoDup (ptrs r).
Proof.
  cbn [ptrs]. intros H. apply NoDup_cons in H as [_ H].
  apply NoDup_app in H as (_ & _ & H). exact H.
Qed.

Lemma in_ptrs_T_l p l k d h r q : q ∈ ptrs l -> q ∈ ptrs (T p l k d h r).
Proof. cbn [ptrs]. intros H. right. apply elem_of_app. left. exact H. Qed.

Lemma in_ptrs_T_r p l k d h r q : q ∈ ptrs r -> q ∈ ptrs (T p l k d h r).
Proof. cbn [ptrs]. intros H. right. apply elem_of_app. right. exact H. Qed.

Lemma in_ptrs_T_perm_l p l l' k d h r q :
  ptrs l' ≡ₚ ptrs l -> q ∈ ptrs (T p l' k d h r) -> q ∈ ptrs (T p l k d h r).
Proof. cbn [ptrs]. intros H. rewrite H. auto. Qed.

Lemma in_ptrs_T_perm_r p l r r' k d h q :
  ptrs r' ≡ₚ ptrs r -> q ∈ ptrs (T p l k d h r') -> q ∈ ptrs (T p l k d h r).
Proof. cbn [ptrs]. intros H. rewrite H. auto. Qed.

Lemma rep_plug_from hp top c : forall t,
  rep hp top (plug c t) <->
  rep_ctx_from hp top c (root t) /\ rep hp (ctx_father_from top c) t.
Proof.
  induction c as [|f c IH]; intros t; simpl; [tauto|].
  rewrite IH, root_fill. destruct f as [p k d h r|p l k d h]; simpl; tauto.
Qed.

Lemma rep_plug hp c t :
  rep hp None (plug c t) <-> rep_ctx hp c (root t) /\ rep hp (ctx_father c) t.
Proof. apply rep_plug_from. Qed.

Lemma rep_ctx_agree (hp hp' : heap) top c : forall hole,
  (forall q, q ∈ ctx_ptrs c -> hp' !! q = hp !! q) ->
  rep_ctx_from hp top c hole -> rep_ctx_from hp' top c hole.
Proof.
  induction c as [|f c IH]; intros hole Hag; simpl; [tauto|].
  assert (Hc : forall q, q ∈ ctx_ptrs c -> hp' !! q = hp !! q).
  { intros q Hq. apply Hag. simpl. apply elem_of_app. right. exact Hq. }
  destruct f as [p k d h r|p l k d h]; simpl in *; intros (Hp & Hr & Hctx).
  - split; [|split].
    + rewrite Hag; [exact Hp|]. left.
    + eapply rep_agree; [|exact Hr]. intros q Hq. apply Hag.
      right. apply elem_of_app. left. exact Hq.
    + apply IH; assumption.
  - split; [|split].
    + rewrite Hag; [exact Hp|]. left.
    + eapply rep_agree; [|exact Hr]. intros q Hq. apply Hag.
      right. apply elem_of_app. left. exact Hq.
    + apply IH; assumption.
Qed.

(** Replacing the subtree at the end of a path by a tree with the same
    root, when the heap did not change along the path. *)
Lemma plug_replace_from (hp hp' : heap) top c t t' :
  rep hp top (plug c t) -> NoDup (ptrs (plug c t)) ->
  rep hp' (ctx_father_from top c) t' -> root t' = root t ->
  (forall q, q ∈ ctx_ptrs c -> hp' !! q = hp !! q) ->
  NoDup (ptrs t') -> (forall q, q ∈ ptrs t' -> q ∈ ptrs t) ->
  rep hp' top (plug c t') /\ NoDup (ptrs (plug c t')).
Proof.
  intros Hrep Hnd Hrep' Hroot Hout Hnd' Hsub.
  rewrite ptrs_plug in Hnd. apply NoDup_app in Hnd as (Hndc & Hdisj & Hndt).
  split.
  - apply rep_plug_from. apply rep_plug_from in Hrep as [Hctx _]. split; [|exact Hrep'].
    rewrite Hroot. eapply rep_ctx_agree; [|exact Hctx]. exact Hout.
  - rewrite ptrs_plug. apply NoDup_app. split; [exact Hndc|]. split; [|exact Hnd'].
    intros q Hq Hq'. apply (Hdisj q Hq). apply Hsub. exact Hq'.
Qed.

Lemma plug_replace (hp hp' : heap) c t t' :
  rep hp None (plug c t) -> NoDup (ptrs (plug c t)) ->
  rep hp' (ctx_father c) t' -> root t' = root t ->
  (forall q, q ∉ ptrs t -> hp' !! q = hp !! q) ->
  NoDup (ptrs t') -> (forall q, q ∈ ptrs t' -> q ∈ ptrs t) ->
  rep hp' None (plug c t') /\ NoDup (ptrs (plug c t')).
Proof.
  intros Hrep Hnd Hrep' Hroot Hout Hnd' Hsub.
  apply (plug_replace_from hp hp' None c t t'); auto.
  intros q Hq. apply Hout.
  rewrite ptrs_plug in Hnd. apply NoDup_app in Hnd as (_ & Hdisj & _).
  apply Hdisj. exact Hq.
Qed.

(** The same under one node, whatever its father. *)
Lemma fill_replace (hp hp' : heap) fa f t t' :
  rep hp fa (fill f t) -> NoDup (ptrs (fill f t)) ->
  rep hp' (Some (frame_ptr f)) t' -> root t' = root t ->
  (forall q, q ∉ ptrs t -> hp' !! q = hp !! q) ->
  rep hp' fa (fill f t').
Proof.
  intros Hrep Hnd Hrep' Hroot Hout.
  rewrite ptrs_fill in Hnd. apply NoDup_app in Hnd as (Hndc & Hdisj & Hndt).
  destruct f as [p k d h r|p l k d h]; simpl in *; destruct Hrep as (Hp & H1 & H2).
  - split; [|split]; [|exact Hrep'|].
    + rewrite Hroot, Hout; [exact Hp|]. apply Hdisj. left.
    + eapply rep_agree; [|exact H2]. intros q Hq. apply Hout. apply Hdisj. right. exact Hq.
  - split; [|split]; [| |exact Hrep'].
    + rewrite Hroot, Hout; [exact Hp|]. apply Hdisj. left.
    + eapply rep_agree; [|exact H1]. intros q Hq. apply Hout. apply Hdisj. right. exact Hq.
Qed.

(** * [_strRotate] *)

Lemma rotate_run hp fa t :
  rep hp fa t -> NoDup (ptrs t) -> heights_nonneg t ->
  exists hp', _strRotate (root t) hp = Some (tt, hp')
    /\ rep hp' fa (rotate_a t) /\ same_outside (ptrs t) hp hp'.
Proof.
  intros Hrep Hnd Hh. unfold _strRotate.
  destruct t as [|n l k d h r].
  { exists hp. split; [reflexivity|]. split; [exact I|apply same_outside_refl]. }
  pose proof (balanceFactor_run _ _ _ Hrep) as Hbf.
  pose proof Hrep as (Hn & Hl & Hr). destruct Hh as (Hh0 & Hhl & Hhr).
  pose proof (height_a_lower _ Hhl). pose proof (height_a_lower _ Hhr).
  unfold rotate_a. remember (bf_a (T n l k d h r)) as b eqn:Hb.
  simpl in Hb.
  destruct (b =? 2) eqn:E2; [|destruct (b =? -2) eqn:E3].
  - (* left-heavy *)
    assert (Hsl : is_Some (root l)).
    { destruct l; simpl in *; [lia|eauto]. }
    destruct (0 <=? bf_a l) eqn:E4.
    + destruct (rightRotation_run hp fa (T n l k d h r) Hsl Hrep Hnd)
        as (hp' & Hrun & Hrep' & Hso).
      exists hp'. split; [|split; assumption].
      eapply bind_run; [exact Hbf|]. cbv beta. rewrite E2.
      eapply bind_run; [apply deref_run; exact Hn|]. cbv beta. fields.
      eapply bind_run; [exact (balanceFactor_run _ _ _ Hl)|]. cbv beta.
      rewrite E4. exact Hrun.
    + assert (Hsr : is_Some (root (right_of l))).
      { destruct l as [|pl la kl dl hl [|pb b1 kb db hb b2]]; simpl in *; eauto.
        exfalso. destruct Hhl as (? & Hla & _). pose proof (height_a_lower _ Hla).
          apply Z.leb_gt in E4. lia. }
      pose proof (NoDup_T_l _ _ _ _ _ _ Hnd) as Hndl.
      destruct (leftRotation_run hp (Some n) l Hsr Hl Hndl)
        as (hp1 & Hrun1 & Hrep1 & Hso1).
      assert (Hrep2 : rep hp1 fa (T n (leftRotation_a l) k d h r)).
      { apply (fill_replace hp hp1 fa (FL n k d h r) l); auto.
        - apply root_leftRotation.
        - destruct Hso1 as [Hso1 _]. exact Hso1. }
      assert (Hnd2 : NoDup (ptrs (T n (leftRotation_a l) k d h r))).
      { cbn [ptrs] in *. rewrite ptrs_leftRotation. exact Hnd. }
      assert (Hsl2 : is_Some (root (left_of (T n (leftRotation_a l) k d h r)))).
      { simpl. rewrite root_leftRotation. exact Hsl. }
      destruct (rightRotation_run hp1 fa _ Hsl2 Hrep2 Hnd2)
        as (hp' & Hrun & Hrep' & Hso).
      exists hp'. split; [|split].
      * eapply bind_run; [exact Hbf|]. cbv beta. rewrite E2.
        eapply bind_run; [apply deref_run; exact Hn|]. cbv beta. fields.
        eapply bind_run; [exact (balanceFactor_run _ _ _ Hl)|]. cbv beta.
        rewrite E4.
        eapply bind_run; [exact Hrun1|]. cbv beta. exact Hrun.
      * exact Hrep'.
      * eapply same_outside_trans.
        -- eapply same_outside_mono; [|exact Hso1]. intros q Hq.
           apply in_ptrs_T_l. exact Hq.
        -- eapply same_outside_mono; [|exact Hso]. intros q Hq.
           eapply in_ptrs_T_perm_l; [|exact Hq]. apply ptrs_leftRotation.
  - (* right-heavy *)
    apply Z.eqb_eq in E3.
    assert (Hsr : is_Some (root r)).
    { destruct r; simpl in *; [lia|eauto]. }
    apply Z.eqb_eq in E3.
    destruct (bf_a r <=? 0) eqn:E4.
    + destruct (leftRotation_run hp fa (T n l k d h r) Hsr Hrep Hnd)
        as (hp' & Hrun & Hrep' & Hso).
      exists hp'. split; [|split; assumption].
      eapply bind_run; [exact Hbf|]. cbv beta. rewrite E2, E3.
      eapply bind_run; [apply deref_run; exact Hn|]. cbv beta. fields.
      eapply bind_run; [exact (balanceFactor_run _ _ _ Hr)|]. cbv beta.
      rewrite E4. exact Hrun.
    + assert (Hsl : is_Some (root (left_of r))).
      { destruct r as [|pr [|pa a1 ka da ha a2] kr dr hr rb]; simpl in *; eauto.
        exfalso. destruct Hhr as (? & _ & Hrb). pose proof (height_a_lower _ Hrb).
          apply Z.leb_gt in E4. lia. }
      pose proof (NoDup_T_r _ _ _ _ _ _ Hnd) as Hndr.
      destruct (rightRotation_run hp (Some n) r Hsl Hr Hndr)
        as (hp1 & Hrun1 & Hrep1 & Hso1).
      assert (Hrep2 : rep hp1 fa (T n l k d h (rightRotation_a r))).
      { apply (fill_replace hp hp1 fa (FR n l k d h) r); auto.
        - apply root_rightRotation.
        - destruct Hso1 as [Hso1 _]. exact Hso1. }
      assert (Hnd2 : NoDup (ptrs (T n l k d h (rightRotation_a r)))).
      { cbn [ptrs] in *. rewrite ptrs_rightRotation. exact Hnd. }
      assert (Hsr2 : is_Some (root (right_of (T n l k d h (rightRotation_a r))))).
      { simpl. rewrite root_rightRotation. exact Hsr. }
      destruct (leftRotation_run hp1 fa _ Hsr2 Hrep2 Hnd2)
        as (hp' & Hrun & Hrep' & Hso).
      exists hp'. split; [|split].
      * eapply bind_run; [exact Hbf|]. cbv beta. rewrite E2, E3.
        eapply bind_run; [apply deref_run; exact Hn|]. cbv beta. fields.
        eapply bind_run; [exact (balanceFactor_run _ _ _ Hr)|]. cbv beta.
        rewrite E4.
        eapply bind_run; [exact Hrun1|]. cbv beta. exact Hrun.
      * exact Hrep'.
      * eapply same_outside_trans.
        -- eapply same_outside_mono; [|exact Hso1]. intros q Hq.
           apply in_ptrs_T_r. exact Hq.
        -- eapply same_outside_mono; [|exact Hso]. intros q Hq.
           eapply in_ptrs_T_perm_r; [|exact Hq]. apply ptrs_rightRotation.
  - exists hp. split; [|split; [exact Hrep|apply same_outside_refl]].
    eapply bind_run; [exact Hbf|]. cbv beta. rewrite E2, E3. reflexivity.
Qed.

(** * The rebalancing walks *)

Lemma rep_root_father hp fa t p :
  rep hp fa t -> root t = Some p -> exists n, hp !! p = Some n /\ _father n = fa.
Proof.
  destruct t as [|q l k d h r]; simpl; [discriminate|].
  intros (Hq & _) [= ->]. eexists. split; [exact Hq|reflexivity].
Qed.

Lemma heights_nonneg_fill f t :
  heights_nonneg (fill f t) <-> heights_nonneg (fill f E) /\ heights_nonneg t.
Proof. destruct f; simpl; tauto. Qed.

Lemma heights_nonneg_plug c : forall t,
  heights_nonneg (plug c t) <-> heights_nonneg (plug c E) /\ heights_nonneg t.
Proof.
  induction c as [|f c IH]; intros t; simpl; [tauto|].
  rewrite IH, (IH (fill f E)), heights_nonneg_fill. tauto.
Qed.

Lemma root_plug_cons f c t t' : root (plug (f :: c) t) = root (plug (f :: c) t').
Proof.
  revert f t t'. induction c as [|g c IH]; intros f t t'; simpl.
  - rewrite !root_fill. reflexivity.
  - apply (IH g).
Qed.

Lemma root_plug c t t' : root t' = root t -> root (plug c t') = root (plug c t).
Proof. destruct c; [auto|]. intros _. apply root_plug_cons. Qed.


Lemma root_rebalance_step t : root (rebalance_step t) = root t.
Proof. unfold rebalance_step. case_match; [apply root_rotate|apply root_updateHeight]. Qed.

Lemma ptrs_rebalance_step t : ptrs (rebalance_step t) ≡ₚ ptrs t.
Proof.
  unfold rebalance_step. case_match; [apply ptrs_rotate|rewrite ptrs_updateHeight; reflexivity].
Qed.

Lemma entries_rebalance_step t : entries (rebalance_step t) = entries t.
Proof.
  unfold rebalance_step. case_match; [apply entries_rotate|apply entries_updateHeight].
Qed.

Lemma heights_nonneg_rebalance_step t :
  heights_nonneg t -> heights_nonneg (rebalance_step t).
Proof.
  unfold rebalance_step. case_match;
    [apply heights_nonneg_rotate|apply heights_nonneg_updateHeight].
Qed.

Lemma balanceDelete_a_step f c t :
  balanceDelete_a (f :: c) t = balanceDelete_a c (rebalance_step (fill f t)).
Proof. reflexivity. Qed.

Lemma ptrs_balanceDelete c : forall t, ptrs (balanceDelete_a c t) ≡ₚ ptrs (plug c t).
Proof.
  induction c as [|f c IH]; intros t; [reflexivity|].
  rewrite balanceDelete_a_step, IH. simpl.
  rewrite !ptrs_plug, ptrs_rebalance_step. reflexivity.
Qed.

Lemma entries_balanceDelete c : forall t, entries (balanceDelete_a c t) = entries (plug c t).
Proof.
  induction c as [|f c IH]; intros t; [reflexivity|].
  rewrite balanceDelete_a_step, IH. simpl.
  apply entries_plug_eq. apply entries_rebalance_step.
Qed.

Lemma heights_nonneg_balanceDelete c : forall t,
  heights_nonneg (plug c t) -> heights_nonneg (balanceDelete_a c t).
Proof.
  induction c as [|f c IH]; intros t; [auto|].
  rewrite balanceDelete_a_step. simpl. intros H. apply IH.
  apply heights_nonneg_plug in H as [H1 H2]. apply heights_nonneg_plug.
  split; [exact H1|]. apply heights_nonneg_rebalance_step. exact H2.
Qed.

Lemma root_balanceDelete c : forall t, root (balanceDelete_a c t) = root (plug c t).
Proof.
  induction c as [|f c IH]; intros t; [reflexivity|].
  rewrite balanceDelete_a_step, IH. simpl.
  apply root_plug. apply root_rebalance_step.
Qed.

(** The body shared by the two loops. *)
Lemma rebalance_step_run hp fa t :
  rep hp fa t -> NoDup (ptrs t) -> heights_nonneg t ->
  exists hp',
    (if 2 <=? Z.abs (bf_a t) then _strRotate (root t) else _strUpdateHeight (root t)) hp
      = Some (tt, hp')
    /\ rep hp' fa (rebalance_step t) /\ same_outside (ptrs t) hp hp'.
Proof.
  intros Hrep Hnd Hh. unfold rebalance_step.
  destruct (2 <=? Z.abs (bf_a t)).
  - apply rotate_run; assumption.
  - apply updateHeight_run; assumption.
Qed.

Lemma NoDup_plug_inner c t : NoDup (ptrs (plug c t)) -> NoDup (ptrs t).
Proof.
  rewrite ptrs_plug. intros H. apply NoDup_app in H as (_ & _ & H). exact H.
Qed.

Lemma in_ptrs_plug c t q : q ∈ ptrs t -> q ∈ ptrs (plug c t).
Proof. rewrite ptrs_plug. intros H. apply elem_of_app. right. exact H. Qed.

Lemma balanceDelete_loop_run c : forall t hp fuel,
  rep hp None (plug c t) -> NoDup (ptrs (plug c t)) -> heights_nonneg (plug c t) ->
  (length c <= fuel)%nat ->
  exists hp', _strBalanceDelete_loop fuel (ctx_father c) hp = Some (tt, hp')
    /\ rep hp' None (balanceDelete_a c t)
    /\ same_outside (ptrs (plug c t)) hp hp'.
Proof.
  induction c as [|f c IH]; intros t hp fuel Hrep Hnd Hh Hfuel.
  - exists hp. split; [destruct fuel; reflexivity|]. split; [exact Hrep|apply same_outside_refl].
  - destruct fuel as [|fuel]; [simpl in Hfuel; lia|].
    simpl in Hrep, Hnd, Hh. set (t1 := fill f t) in *.
    pose proof (proj1 (rep_plug hp c t1) Hrep) as [Hctx Hrep1].
    pose proof (NoDup_plug_inner _ _ Hnd) as Hnd1.
    pose proof (proj1 (heights_nonneg_plug c t1) Hh) as [Hhc Hh1].
    destruct (rebalance_step_run hp _ t1 Hrep1 Hnd1 Hh1) as (hp1 & Hrun1 & Hrep2 & Hso1).
    assert (Hroot : root t1 = Some (frame_ptr f)) by apply root_fill.
    destruct (plug_replace hp hp1 c t1 (rebalance_step t1)) as [Hrep3 Hnd3]; auto.
    { apply root_rebalance_step. }
    { apply Hso1. }
    { rewrite ptrs_rebalance_step. exact Hnd1. }
    { intros q. rewrite ptrs_rebalance_step. auto. }
    destruct (rep_root_father hp1 _ (rebalance_step t1) (frame_ptr f) Hrep2)
      as (n & Hn & Hfa).
    { rewrite root_rebalance_step. exact Hroot. }
    destruct (IH (rebalance_step t1) hp1 fuel Hrep3 Hnd3) as (hp' & Hrun & Hrep' & Hso).
    { apply heights_nonneg_plug. split; [exact Hhc|].
      apply heights_nonneg_rebalance_step. exact Hh1. }
    { simpl in Hfuel. lia. }
    exists hp'. split; [|split].
    + cbn [_strBalanceDelete_loop ctx_father_from].
      eapply bind_run; [rewrite <- Hroot; eapply balanceFactor_run; exact Hrep1|].
      cbv beta. eapply bind_run; [rewrite <- Hroot; exact Hrun1|]. cbv beta.
      eapply bind_run; [apply deref_run; exact Hn|]. cbv beta.
      rewrite Hfa. exact Hrun.
    + rewrite balanceDelete_a_step. exact Hrep'.
    + simpl. fold t1. eapply same_outside_trans.
      * eapply same_outside_mono; [|exact Hso1]. intros q. apply in_ptrs_plug.
      * eapply same_outside_mono; [|exact Hso]. intros q.
        rewrite !ptrs_plug, ptrs_rebalance_step. auto.
Qed.

(** The walk after an insertion stops at the first unbalanced node. *)
Lemma balanceInsert_a_step f c t :
  balanceInsert_a (f :: c) t =
  if 2 <=? Z.abs (bf_a (fill f t)) then plug c (rotate_a (fill f t))
  else balanceInsert_a c (updateHeight_a (fill f t)).
Proof. reflexivity. Qed.

Lemma ptrs_balanceInsert c : forall t, ptrs (balanceInsert_a c t) ≡ₚ ptrs (plug c t).
Proof.
  induction c as [|f c IH]; intros t; [reflexivity|].
  rewrite balanceInsert_a_step. simpl. case_match.
  - rewrite !ptrs_plug, ptrs_rotate. reflexivity.
  - rewrite IH, !ptrs_plug, ptrs_updateHeight. reflexivity.
Qed.

Lemma entries_balanceInsert c : forall t, entries (balanceInsert_a c t) = entries (plug c t).
Proof.
  induction c as [|f c IH]; intros t; [reflexivity|].
  rewrite balanceInsert_a_step. simpl. case_match.
  - apply entries_plug_eq. apply entries_rotate.
  - rewrite IH. apply entries_plug_eq. apply entries_updateHeight.
Qed.

Lemma heights_nonneg_balanceInsert c : forall t,
  heights_nonneg (plug c t) -> heights_nonneg (balanceInsert_a c t).
Proof.
  induction c as [|f c IH]; intros t; [auto|].
  rewrite balanceInsert_a_step. simpl. intros H.
  apply heights_nonneg_plug in H as [H1 H2]. case_match.
  - apply heights_nonneg_plug. split; [exact H1|]. apply heights_nonneg_rotate. exact H2.
  - apply IH. apply heights_nonneg_plug. split; [exact H1|].
    apply heights_nonneg_updateHeight. exact H2.
Qed.

Lemma root_balanceInsert c : forall t, root (balanceInsert_a c t) = root (plug c t).
Proof.
  induction c as [|f c IH]; intros t; [reflexivity|].
  rewrite balanceInsert_a_step. simpl. case_match.
  - apply root_plug. apply root_rotate.
  - rewrite IH. apply root_plug. apply root_updateHeight.
Qed.

Lemma balanceInsert_loop_run c : forall t hp fuel,
  rep hp None (plug c t) -> NoDup (ptrs (plug c t)) -> heights_nonneg (plug c t) ->
  (length c <= fuel)%nat ->
  exists hp1 curr hp',
    _strBalanceInsert_loop fuel (ctx_father c) hp = Some (curr, hp1)
    /\ match curr with
       | Some _ => _strRotate curr hp1
       | None => Some (tt, hp1)
       end = Some (tt, hp')
    /\ rep hp' None (balanceInsert_a c t)
    /\ same_outside (ptrs (plug c t)) hp hp'.
Proof.
  induction c as [|f c IH]; intros t hp fuel Hrep Hnd Hh Hfuel.
  - exists hp, None, hp. split; [destruct fuel; reflexivity|]. split; [reflexivity|].
    split; [exact Hrep|apply same_outside_refl].
  - destruct fuel as [|fuel]; [simpl in Hfuel; lia|].
    simpl in Hrep, Hnd, Hh. set (t1 := fill f t) in *.
    pose proof (proj1 (rep_plug hp c t1) Hrep) as [Hctx Hrep1].
    pose proof (NoDup_plug_inner _ _ Hnd) as Hnd1.
    pose proof (proj1 (heights_nonneg_plug c t1) Hh) as [Hhc Hh1].
    assert (Hroot : root t1 = Some (frame_ptr f)) by apply root_fill.
    rewrite balanceInsert_a_step. fold t1.
    cbn [_strBalanceInsert_loop ctx_father_from].
    destruct (2 <=? Z.abs (bf_a t1)) eqn:Eb.
    + destruct (rotate_run hp _ t1 Hrep1 Hnd1 Hh1) as (hp' & Hrun & Hrep' & Hso).
      destruct (plug_replace hp hp' c t1 (rotate_a t1)) as [Hrep3 Hnd3]; auto.
      { apply root_rotate. }
      { apply Hso. }
      { rewrite ptrs_rotate. exact Hnd1. }
      { intros q. rewrite ptrs_rotate. auto. }
      exists hp, (Some (frame_ptr f)), hp'. split; [|split; [|split]].
      * eapply bind_run; [rewrite <- Hroot; eapply balanceFactor_run; exact Hrep1|].
        cbv beta. rewrite Eb. reflexivity.
      * rewrite <- Hroot. exact Hrun.
      * exact Hrep3.
      * simpl. fold t1. eapply same_outside_mono; [|exact Hso].
        intros q. apply in_ptrs_plug.
    + destruct (updateHeight_run hp _ t1 Hrep1 Hnd1) as (hp1 & Hrun1 & Hrep2 & Hso1).
      destruct (plug_replace hp hp1 c t1 (updateHeight_a t1)) as [Hrep3 Hnd3]; auto.
      { apply root_updateHeight. }
      { apply Hso1. }
      { rewrite ptrs_updateHeight. exact Hnd1. }
      { intros q. rewrite ptrs_updateHeight. auto. }
      destruct (rep_root_father hp1 _ (updateHeight_a t1) (frame_ptr f) Hrep2)
        as (n & Hn & Hfa).
      { rewrite root_updateHeight. exact Hroot. }
      destruct (IH (updateHeight_a t1) hp1 fuel Hrep3 Hnd3)
        as (hp2 & curr & hp' & Hrun & Hrot & Hrep' & Hso).
      { apply heights_nonneg_plug. split; [exact Hhc|].
        apply heights_nonneg_updateHeight. exact Hh1. }
      { simpl in Hfuel. lia. }
      exists hp2, curr, hp'. split; [|split; [|split]].
      * eapply bind_run; [rewrite <- Hroot; eapply balanceFactor_run; exact Hrep1|].
        cbv beta. rewrite Eb.
        eapply bind_run; [rewrite <- Hroot; exact Hrun1|]. cbv beta.
        eapply bind_run; [apply deref_run; exact Hn|]. cbv beta.
        rewrite Hfa. exact Hrun.
      * exact Hrot.
      * exact Hrep'.
      * simpl. fold t1. eapply same_outside_trans.
        -- eapply same_outside_mono; [|exact Hso1]. intros q. apply in_ptrs_plug.
        -- eapply same_outside_mono; [|exact Hso]. intros q.
           rewrite !ptrs_plug, ptrs_updateHeight. auto.
Qed.

(** * Budgets *)

Lemma ptrs_in_dom hp fa t : rep hp fa t -> forall q, q ∈ ptrs t -> q ∈ dom hp.
Proof. intros H q Hq. apply elem_of_dom. eapply rep_ptrs_dom; eassumption. Qed.

Lemma length_ptrs_size (hp : heap) fa t :
  rep hp fa t -> NoDup (ptrs t) -> (length (ptrs t) <= size hp)%nat.
Proof.
  intros Hrep Hnd.
  rewrite <- (size_list_to_set (C := gset positive) (ptrs t)) by exact Hnd.
  rewrite <- size_dom. apply subseteq_size.
  intros q Hq. apply elem_of_list_to_set in Hq. eapply ptrs_in_dom; eassumption.
Qed.

Lemma length_ctx_ptrs c : (length c <= length (ctx_ptrs c))%nat.
Proof.
  induction c as [|f c IH]; simpl; [lia|].
  rewrite length_app. destruct f; simpl; lia.
Qed.

Lemma length_ctx_plug c t : (length c <= length (ptrs (plug c t)))%nat.
Proof.
  rewrite ptrs_plug, length_app. pose proof (length_ctx_ptrs c). lia.
Qed.

Lemma same_outside_size ps (hp hp' : heap) : same_outside ps hp hp' -> size hp' = size hp.
Proof. intros [_ H]. rewrite <- !size_dom, H. reflexivity. Qed.

(** * The descent of [strInsert] *)

Lemma plug_descend k t : forall c, plug (descend k t c) E = plug c t.
Proof.
  induction t as [|p l IHl k' d h r IHr]; intros c; simpl; [reflexivity|].
  destruct (0 <=? strcmp k' k); [rewrite IHl|rewrite IHr]; reflexivity.
Qed.

Lemma head_ok_descend k t : forall c, head_ok k c -> head_ok k (descend k t c).
Proof.
  induction t as [|p l IHl k' d h r IHr]; intros c Hc; simpl; [exact Hc|].
  destruct (0 <=? strcmp k' k) eqn:Hk; [apply IHl|apply IHr]; exact Hk.
Qed.

Lemma descend_nonempty k t : forall c, t <> E \/ c <> [] -> descend k t c <> [].
Proof.
  induction t as [|p l IHl k' d h r IHr]; intros c Hc; simpl.
  - destruct Hc as [Hc|Hc]; [congruence|exact Hc].
  - destruct (0 <=? strcmp k' k); [apply IHl|apply IHr]; right; discriminate.
Qed.

Lemma insert_loop_run k t : forall c hp fuel,
  rep hp (ctx_father c) t -> (length (ptrs t) <= fuel)%nat ->
  strInsert_loop fuel (root t) (ctx_father c) k hp
  = Some (ctx_father (descend k t c), hp).
Proof.
  induction t as [|p l IHl k' d h r IHr]; intros c hp fuel Hrep Hfuel.
  - destruct fuel; reflexivity.
  - destruct fuel as [|fuel]; [simpl in Hfuel; lia|].
    destruct Hrep as (Hp & Hl & Hr). cbn [strInsert_loop root descend].
    eapply bind_run; [apply deref_run; exact Hp|]. cbv beta. fields.
    simpl in Hfuel. rewrite length_app in Hfuel.
    destruct (0 <=? strcmp k' k).
    + apply (IHl (FL p k' d h r :: c)); [exact Hl|lia].
    + apply (IHr (FR p l k' d h :: c)); [exact Hr|lia].
Qed.

(** * Hanging the new leaf *)

Lemma attach_run (hp : heap) c p k d :
  c <> [] -> head_ok k c ->
  rep hp None (plug c E) -> NoDup (ptrs (plug c E)) ->
  p ∉ ptrs (plug c E) ->
  hp !! p = Some (mkNode None None None 0 k d) ->
  exists hp',
    (pn <- deref (ctx_father c) ;;
     (if 0 <=? strcmp (_key pn) k
      then _strInsertAsLeftSubtree (ctx_father c) (Some p)
      else _strInsertAsRightSubtree (ctx_father c) (Some p))) hp = Some (tt, hp')
    /\ rep hp' None (plug c (T p E k d 0 E))
    /\ NoDup (ptrs (plug c (T p E k d 0 E)))
    /\ same_outside (p :: ptrs (plug c E)) hp hp'.
Proof.
  intros Hne Hok Hrep Hnd Hp Hcell.
  destruct c as [|f c]; [congruence|]. clear Hne.
  assert (Hnd' : NoDup (ptrs (plug (f :: c) (T p E k d 0 E)))).
  { rewrite ptrs_plug in *. simpl in *. rewrite app_nil_r in Hnd, Hp.
    apply NoDup_app. split; [exact Hnd|]. split; [|apply NoDup_singleton].
    intros q Hq Hq'. apply list_elem_of_singleton in Hq'. subst q. contradiction. }
  apply rep_plug in Hrep as [Hctx _].
  rewrite ptrs_plug in Hp, Hnd. simpl in Hp, Hnd. rewrite app_nil_r in Hp, Hnd.
  assert (Hso : forall hp', same_outside (p :: frame_ptrs f ++ ctx_ptrs c) hp hp' ->
                            same_outside (p :: ptrs (plug (f :: c) E)) hp hp').
  { intros hp' H. eapply same_outside_mono; [|exact H]. intros q.
    rewrite ptrs_plug. simpl. rewrite app_nil_r. auto. }
  destruct f as [pp kk dd hh r|pp l kk dd hh]; simpl in Hok, Hctx, Hp, Hnd;
    destruct Hctx as (Hpp & Hr & Hctx); nodup_facts.
  - eexists. split; [|split; [|split]].
    + cbn [ctx_father_from frame_ptr]. run. rewrite Hok.
      unfold _strInsertAsLeftSubtree. run.
    + apply rep_plug. split; [|simpl; split; [lookup|tauto]].
      cbn [rep_ctx_from root]. split; [lookup|]. split.
      * eapply rep_agree; [|exact Hr]. solve_agree.
      * eapply rep_ctx_agree; [|exact Hctx]. solve_agree.
    + exact Hnd'.
    + apply Hso. simpl. solve_same_outside.
  - eexists. split; [|split; [|split]].
    + cbn [ctx_father_from frame_ptr]. run. rewrite Hok.
      unfold _strInsertAsRightSubtree. run.
    + apply rep_plug. split; [|simpl; split; [lookup|tauto]].
      cbn [rep_ctx_from root]. split; [lookup|]. split.
      * eapply rep_agree; [|exact Hr]. solve_agree.
      * eapply rep_ctx_agree; [|exact Hctx]. solve_agree.
    + exact Hnd'.
    + apply Hso. simpl. solve_same_outside.
Qed.

(** * The order of the keys *)

Lemma ascii_compare_refl a : Ascii.compare a a = Eq.
Proof. unfold Ascii.compare. apply N.compare_refl. Qed.

Lemma string_compare_refl s : String.compare s s = Eq.
Proof.
  induction s as [|a s IH]; simpl; [reflexivity|].
  rewrite ascii_compare_refl. exact IH.
Qed.

Lemma ascii_compare_lt_trans a b c :
  Ascii.compare a b = Lt -> Ascii.compare b c = Lt -> Ascii.compare a c = Lt.
Proof.
  unfold Ascii.compare. rewrite !N.compare_lt_iff. apply N.lt_trans.
Qed.

Lemma string_compare_lt_trans s1 : forall s2 s3,
  String.compare s1 s2 = Lt -> String.compare s2 s3 = Lt -> String.compare s1 s3 = Lt.
Proof.
  induction s1 as [|a s1 IH]; intros [|b s2] [|c s3]; simpl; try congruence.
  destruct (Ascii.compare a b) eqn:Hab; try discriminate.
  - apply Ascii.compare_eq_iff in Hab. subst b.
    destruct (Ascii.compare a c); try congruence. apply IH.
  - intros _. destruct (Ascii.compare b c) eqn:Hbc; try discriminate.
    + apply Ascii.compare_eq_iff in Hbc. subst c. rewrite Hab. reflexivity.
    + intros _. rewrite (ascii_compare_lt_trans _ _ _ Hab Hbc). reflexivity.
Qed.

Lemma strcmp_refl a : strcmp a a = 0.
Proof. unfold strcmp. rewrite string_compare_refl. reflexivity. Qed.

Lemma strcmp_eq a b : strcmp a b = 0 <-> a = b.
Proof.
  split; [|intros ->; apply strcmp_refl].
  unfold strcmp. destruct (String.compare a b) eqn:H; try discriminate.
  intros _. apply String.compare_eq_iff. exact H.
Qed.

Lemma strcmp_antisym a b : strcmp b a = - strcmp a b.
Proof.
  unfold strcmp. rewrite (String.compare_antisym a b).
  destruct (String.compare b a); reflexivity.
Qed.

Lemma strcmp_lt a b : strcmp a b < 0 <-> String.compare a b = Lt.
Proof. unfold strcmp. destruct (String.compare a b); split; intros; (lia || congruence). Qed.

Lemma strcmp_lt_trans a b c : strcmp a b < 0 -> strcmp b c < 0 -> strcmp a c < 0.
Proof. rewrite !strcmp_lt. apply string_compare_lt_trans. Qed.

Lemma strcmp_le_lt_trans a b c : strcmp a b <= 0 -> strcmp b c < 0 -> strcmp a c < 0.
Proof.
  intros H1 H2. destruct (Z.eq_dec (strcmp a b) 0) as [H|H].
  - apply strcmp_eq in H. subst b. exact H2.
  - eapply strcmp_lt_trans; [|exact H2]. lia.
Qed.

Lemma strcmp_lt_le_trans a b c : strcmp a b < 0 -> strcmp b c <= 0 -> strcmp a c < 0.
Proof.
  intros H1 H2. destruct (Z.eq_dec (strcmp b c) 0) as [H|H].
  - apply strcmp_eq in H. subst c. exact H1.
  - eapply strcmp_lt_trans; [exact H1|]. lia.
Qed.

Lemma key_le_refl a : key_le a a.
Proof. unfold key_le. rewrite strcmp_refl. lia. Qed.

Lemma key_le_trans a b c : key_le a b -> key_le b c -> key_le a c.
Proof.
  unfold key_le. intros H1 H2. destruct (Z.eq_dec (strcmp b c) 0) as [H|H].
  - apply strcmp_eq in H. subst c. exact H1.
  - assert (strcmp a c < 0); [|lia]. eapply strcmp_le_lt_trans; [exact H1|lia].
Qed.

(** * Sorted lists of entries *)

Lemma sorted_keys_strong l :
  sorted_keys l <-> StronglySorted key_le (map fst l).
Proof.
  unfold sorted_keys. split.
  - apply Sorted_StronglySorted. exact key_le_trans.
  - apply StronglySorted_Sorted.
Qed.

Lemma StronglySorted_app_iff {A} (R : A -> A -> Prop) (l1 l2 : list A) :
  StronglySorted R (l1 ++ l2) <->
  StronglySorted R l1 /\ StronglySorted R l2
  /\ (forall a b, In a l1 -> In b l2 -> R a b).
Proof.
  induction l1 as [|x l1 IH]; simpl.
  - split; [intros H; repeat split; [constructor|exact H|tauto]|tauto].
  - split.
    + intros H. apply StronglySorted_inv in H as [H1 H2].
      apply IH in H1 as (Ha & Hb & Hc). rewrite Forall_app in H2.
      destruct H2 as [H2 H3]. repeat split; try assumption.
      * constructor; assumption.
      * intros a b [<-|Ha'] Hb'; [|auto].
        rewrite Forall_forall in H3. apply H3. apply list_elem_of_In. exact Hb'.
    + intros (Ha & Hb & Hc). apply StronglySorted_inv in Ha as [Ha1 Ha2].
      constructor.
      * apply IH. repeat split; auto.
      * rewrite Forall_app. split; [exact Ha2|].
        rewrite Forall_forall. intros b Hb'. apply Hc; [left; reflexivity|].
        apply list_elem_of_In. exact Hb'.
Qed.

Lemma sorted_keys_app l1 l2 :
  sorted_keys (l1 ++ l2) <->
  sorted_keys l1 /\ sorted_keys l2
  /\ (forall a b, In a l1 -> In b l2 -> key_le (fst a) (fst b)).
Proof.
  rewrite !sorted_keys_strong, map_app, StronglySorted_app_iff.
  split; intros (H1 & H2 & H3); repeat split; auto.
  - intros a b Ha Hb. apply H3; apply in_map; assumption.
  - intros a b Ha Hb. apply in_map_iff in Ha as (a' & <- & Ha).
    apply in_map_iff in Hb as (b' & <- & Hb). auto.
Qed.

Lemma sorted_keys_cons e l :
  sorted_keys (e :: l) <->
  sorted_keys l /\ (forall b, In b l -> key_le (fst e) (fst b)).
Proof.
  change (e :: l) with ([e] ++ l). rewrite sorted_keys_app. split.
  - intros (_ & H & H'). split; [exact H|]. intros b Hb. apply H'; [left; reflexivity|exact Hb].
  - intros (H & H'). split; [|split; [exact H|]].
    + unfold sorted_keys. simpl. repeat constructor.
    + intros a b [<-|[]] Hb. auto.
Qed.

(** Inserting an entry between the smaller keys and the others. *)
Lemma sorted_keys_insert l1 l2 k d :
  sorted_keys (l1 ++ l2) -> keys_lt k l1 -> keys_ge k l2 ->
  sorted_keys (l1 ++ (k, d) :: l2).
Proof.
  intros H H1 H2. apply sorted_keys_app in H as (Ha & Hb & Hc).
  unfold keys_lt, keys_ge in *. rewrite Forall_forall in H1, H2.
  apply sorted_keys_app. split; [exact Ha|]. split.
  - apply sorted_keys_cons. split; [exact Hb|]. intros b Hb'. simpl.
    unfold key_le. rewrite strcmp_antisym.
    specialize (H2 b). rewrite list_elem_of_In in H2. specialize (H2 Hb'). lia.
  - intros a b Ha' [<-|Hb']; [|auto]. simpl. unfold key_le.
    specialize (H1 a). rewrite list_elem_of_In in H1. specialize (H1 Ha'). lia.
Qed.

Lemma sorted_keys_remove l1 e l2 :
  sorted_keys (l1 ++ e :: l2) -> sorted_keys (l1 ++ l2).
Proof.
  rewrite !sorted_keys_app, sorted_keys_cons.
  intros (H1 & (H2 & _) & H3). repeat split; auto.
  intros a b Ha Hb. apply H3; [exact Ha|right; exact Hb].
Qed.

(** * Entries along a path *)

Lemma entries_plug c : forall t,
  entries (plug c t) = ctx_before c ++ entries t ++ ctx_after c.
Proof.
  induction c as [|f c IH]; intros t; simpl.
  - rewrite app_nil_r. reflexivity.
  - rewrite IH. destruct f as [p k d h r|p l k d h]; simpl;
      rewrite <- ?app_assoc; simpl; rewrite <- ?app_assoc; reflexivity.
Qed.

Lemma plug_app c1 c2 t : plug (c1 ++ c2) t = plug c2 (plug c1 t).
Proof. revert t. induction c1 as [|f c1 IH]; intros t; simpl; [reflexivity|apply IH]. Qed.

Lemma ctx_before_app c1 c2 : ctx_before (c1 ++ c2) = ctx_before c2 ++ ctx_before c1.
Proof.
  induction c1 as [|f c1 IH]; simpl; [rewrite app_nil_r; reflexivity|].
  destruct f; rewrite IH; rewrite <- ?app_assoc; reflexivity.
Qed.

Lemma ctx_after_app c1 c2 : ctx_after (c1 ++ c2) = ctx_after c1 ++ ctx_after c2.
Proof.
  induction c1 as [|f c1 IH]; simpl; [reflexivity|].
  destruct f; rewrite IH; simpl; rewrite <- ?app_assoc; reflexivity.
Qed.

(** The place found by the descent of [strInsert] splits the entries
    into the keys below the new key and the keys from it on. *)
Lemma descend_split k t : forall c,
  sorted_keys (entries (plug c t)) ->
  keys_lt k (ctx_before c) -> keys_ge k (ctx_after c) ->
  keys_lt k (ctx_before (descend k t c)) /\ keys_ge k (ctx_after (descend k t c)).
Proof.
  induction t as [|p l IHl k' d h r IHr]; intros c Hs Hb Ha; simpl; [tauto|].
  pose proof Hs as Hs'. rewrite entries_plug in Hs'. simpl in Hs'.
  apply sorted_keys_app in Hs' as (_ & Hs' & _).
  apply sorted_keys_app in Hs' as (Hs' & _ & _).
  apply sorted_keys_app in Hs' as (_ & Hr & Hlr).
  apply sorted_keys_cons in Hr as (_ & Hr).
  destruct (0 <=? strcmp k' k) eqn:Hk.
  - apply Z.leb_le in Hk. apply IHl; [exact Hs|exact Hb|].
    simpl. unfold keys_ge in *. constructor; [exact Hk|].
    rewrite Forall_app. split; [|exact Ha].
    rewrite Forall_forall. intros e He. apply list_elem_of_In in He.
    specialize (Hr e He). simpl in Hr. unfold key_le in Hr.
    destruct (Z.eq_dec (strcmp k' k) 0) as [H0|H0].
    + apply strcmp_eq in H0. subst k'. rewrite strcmp_antisym. lia.
    + assert (strcmp k k' < 0) by (rewrite strcmp_antisym; lia).
      pose proof (strcmp_lt_le_trans _ _ _ H Hr). rewrite strcmp_antisym. lia.
  - apply Z.leb_gt in Hk. apply IHr; [exact Hs| |exact Ha].
    simpl. unfold keys_lt in *. rewrite !Forall_app. split; [exact Hb|].
    split; [|repeat constructor; exact Hk].
    rewrite Forall_forall. intros e He. apply list_elem_of_In in He.
    specialize (Hlr e (k', d) He (or_introl eq_refl)). simpl in Hlr.
    eapply strcmp_le_lt_trans; [exact Hlr|exact Hk].
Qed.

Lemma entries_insert_a p k d t :
  sorted_keys (entries t) ->
  exists l1 l2, entries t = l1 ++ l2 /\ keys_lt k l1 /\ keys_ge k l2
    /\ entries (insert_a p k d t) = l1 ++ (k, d) :: l2.
Proof.
  intros Hs. destruct t as [|q l k' d' h r].
  - exists [], []. repeat split; constructor.
  - set (t := T q l k' d' h r) in *. unfold insert_a. fold t.
    destruct (descend_split k t [] Hs) as [Hb Ha]; try constructor.
    exists (ctx_before (descend k t [])), (ctx_after (descend k t [])).
    split; [|split; [exact Hb|split; [exact Ha|]]].
    + change (entries t) with (entries (plug [] t)).
      rewrite <- (plug_descend k t []), entries_plug. reflexivity.
    + change (match t with E => T p E k d 0 E | _ => balanceInsert_a (descend k t []) (T p E k d 0 E) end)
        with (balanceInsert_a (descend k t []) (T p E k d 0 E)).
      rewrite entries_balanceInsert, entries_plug. reflexivity.
Qed.

(** * [strInsert] on a well-formed heap *)

Lemma with_fuel_run {A} (f : nat -> M A) (hp : heap) :
  with_fuel f hp = f (S (size hp)) hp.
Proof. reflexivity. Qed.

Lemma fresh_not_in_tree (hp : heap) fa t p :
  rep hp fa t -> hp !! p = None -> p ∉ ptrs t.
Proof.
  intros Hrep Hp Hin. destruct (rep_ptrs_dom hp fa t p Hrep Hin) as [n Hn]. congruence.
Qed.

Lemma ulong_incr_small n : 0 <= n < ULONG_MAX -> ulong_incr n = n + 1.
Proof. unfold ulong_incr, ULONG_MAX. intros H. apply Z.mod_small. lia. Qed.

Lemma ulong_decr_small n : 0 < n <= ULONG_MAX -> ulong_decr n = n - 1.
Proof. unfold ulong_decr, ULONG_MAX. intros H. apply Z.mod_small. lia. Qed.

Lemma strInsert_run hp tr t k d p :
  tree_inv hp tr t -> hp !! p = None -> nodesCount tr <> maxNodes tr ->
  exists hp' tr',
    strInsert (Some tr) (Some k) d (Some p) hp
    = Some ((nodesCount tr + 1, Some tr'), hp')
    /\ tree_inv hp' tr' (insert_a p k d t)
    /\ nodesCount tr' = nodesCount tr + 1
    /\ maxNodes tr' = maxNodes tr
    /\ dom hp' = {[p]} ∪ dom hp.
Proof.
  intros [Hrep Hnd Hroot Hcount Hcap Hh Hs] Hp Hfull.
  assert (Hincr : ulong_incr (nodesCount tr) = nodesCount tr + 1).
  { apply ulong_incr_small. lia. }
  assert (Hpt : p ∉ ptrs t) by (eapply fresh_not_in_tree; eassumption).
  set (leaf := mkNode None None None 0 k d).
  set (hp0 := <[p := leaf]> hp).
  assert (Hrep0 : rep hp0 None t).
  { eapply rep_agree; [|exact Hrep]. intros q Hq. unfold hp0.
    apply lookup_insert_ne. intros ->. contradiction. }
  assert (Hdom0 : dom hp0 = {[p]} ∪ dom hp) by apply dom_insert_L.
  destruct (entries_insert_a p k d t Hs) as (l1 & l2 & Hl12 & Hlt & Hge & Hent).
  assert (Hsorted : sorted_keys (entries (insert_a p k d t))).
  { rewrite Hent. apply sorted_keys_insert; [rewrite <- Hl12; exact Hs|exact Hlt|exact Hge]. }
  unfold strInsert. apply Z.eqb_neq in Hfull. rewrite Hfull.
  rewrite Hincr.
  destruct t as [|q l k' d' h r].
  - (* the tree is empty *)
    eapply ex_intro. eapply ex_intro.
    simpl in Hroot. rewrite Hroot. split; [reflexivity|].
    split; [|split; [reflexivity|split; [reflexivity|exact Hdom0]]].
    constructor; simpl; auto.
    + split; [apply lookup_insert_eq|tauto].
    + apply NoDup_singleton.
    + simpl in Hcount. lia.
    + lia.
    + split; [lia|tauto].
  - set (t := T q l k' d' h r) in *.
    set (cf := descend k t []).
    assert (Hcf : cf <> []) by (apply descend_nonempty; left; discriminate).
    assert (Hplug : plug cf E = t) by apply plug_descend.
    assert (Hok : head_ok k cf) by (apply head_ok_descend; exact I).
    destruct (attach_run hp0 cf p k d Hcf Hok) as (hp1 & Hrun1 & Hrep1 & Hnd1 & Hso1).
    { rewrite Hplug. exact Hrep0. }
    { rewrite Hplug. exact Hnd. }
    { rewrite Hplug. exact Hpt. }
    { apply lookup_insert_eq. }
    set (lf := T p E k d 0 E) in *.
    assert (Hh1 : heights_nonneg (plug cf lf)).
    { apply heights_nonneg_plug. rewrite Hplug. split; [exact Hh|]. simpl. lia. }
    destruct (balanceInsert_loop_run cf lf hp1 (S (size hp1)) Hrep1 Hnd1 Hh1)
      as (hp2 & curr & hp' & Hloop & Hrot & Hrep' & Hso2).
    { pose proof (length_ctx_plug cf lf).
      pose proof (length_ptrs_size hp1 None _ Hrep1 Hnd1). lia. }
    destruct (proj1 (rep_plug hp1 cf lf) Hrep1) as [_ Hlf].
    destruct Hlf as (Hlf & _).
    eapply ex_intro. eapply ex_intro.
    split.
    { rewrite Hroot. cbn [root t].
      eapply bind_run; [reflexivity|]. cbv beta.
      eapply bind_run.
      { rewrite with_fuel_run.
        apply (insert_loop_run k t [] hp0 (S (size hp0)) Hrep0).
        pose proof (length_ptrs_size hp0 None t Hrep0 Hnd). lia. }
      cbv beta. fold cf.
      unfold bind at 1. unfold bind at 1 in Hrun1.
      destruct (deref (ctx_father cf) hp0) as [[pn hpx]|] eqn:Hderef; [|discriminate].
      unfold bind at 1. rewrite Hrun1.
      eapply bind_run.
      { unfold _strBalanceInsert.
        eapply bind_run; [apply deref_run; exact Hlf|]. cbv beta. fields.
        eapply bind_run; [rewrite with_fuel_run; exact Hloop|]. cbv beta.
        destruct curr; exact Hrot. }
      reflexivity. }
    assert (Hins : insert_a p k d t = balanceInsert_a cf lf) by reflexivity.
    rewrite Hins. split; [|split; [reflexivity|split; [reflexivity|]]].
    + constructor; simpl.
      * exact Hrep'.
      * rewrite ptrs_balanceInsert. exact Hnd1.
      * rewrite root_balanceInsert.
        destruct cf as [|f cf'] eqn:Ecf; [congruence|].
        rewrite (root_plug_cons f cf' lf E), Hplug. reflexivity.
      * rewrite ptrs_balanceInsert, ptrs_plug, length_app.
        rewrite <- Hplug, ptrs_plug, length_app in Hcount. simpl in *. lia.
      * lia.
      * apply heights_nonneg_balanceInsert. exact Hh1.
      * rewrite <- Hins. exact Hsorted.
    + destruct Hso1 as [_ Hd1]. destruct Hso2 as [_ Hd2].
      rewrite Hd2, Hd1. exact Hdom0.
Qed.

(** * The descent of [_searchStrNode] *)


Lemma search_loop_run k t : forall c hp fuel,
  rep hp (ctx_father c) t -> (length (ptrs t) <= fuel)%nat ->
  _searchStrNode_loop fuel (root t) (Some k) hp
  = Some (found_root (find k t c), hp).
Proof.
  induction t as [|p l IHl k' d h r IHr]; intros c hp fuel Hrep Hfuel.
  - destruct fuel; reflexivity.
  - destruct fuel as [|fuel]; [simpl in Hfuel; lia|].
    destruct Hrep as (Hp & Hl & Hr). cbn [_searchStrNode_loop root find].
    eapply bind_run; [apply deref_run; exact Hp|]. cbv beta. fields.
    simpl in Hfuel. rewrite length_app in Hfuel.
    destruct (0 <? strcmp k' k); [|destruct (strcmp k' k <? 0)].
    + apply (IHl (FL p k' d h r :: c)); [exact Hl|lia].
    + apply (IHr (FR p l k' d h :: c)); [exact Hr|lia].
    + reflexivity.
Qed.

Lemma find_Some k t : forall c c' t',
  find k t c = Some (c', t') ->
  plug c' t' = plug c t
  /\ (exists ci, c' = ci ++ c)
  /\ exists p l d h r, t' = T p l k d h r.
Proof.
  induction t as [|p l IHl k' d h r IHr]; intros c c' t'; simpl; [discriminate|].
  destruct (0 <? strcmp k' k) eqn:H1; [|destruct (strcmp k' k <? 0) eqn:H2].
  - intros H. apply IHl in H as (Hp & (ci & ->) & Ht). split; [exact Hp|]. split; [|exact Ht].
    exists (ci ++ [FL p k' d h r]). rewrite <- app_assoc. reflexivity.
  - intros H. apply IHr in H as (Hp & (ci & ->) & Ht). split; [exact Hp|]. split; [|exact Ht].
    exists (ci ++ [FR p l k' d h]). rewrite <- app_assoc. reflexivity.
  - intros [= <- <-]. split; [reflexivity|]. split; [exists []; reflexivity|].
    assert (k' = k) as ->.
    { apply strcmp_eq. apply Z.ltb_ge in H1, H2. lia. }
    eauto 10.
Qed.

(** A key that is not in the tree is not found. *)
Lemma find_None k t : forall c,
  ~ In k (map fst (entries t)) -> find k t c = None.
Proof.
  induction t as [|p l IHl k' d h r IHr]; intros c Hk; simpl; [reflexivity|].
  simpl in Hk. rewrite map_app, in_app_iff in Hk. simpl in Hk.
  destruct (0 <? strcmp k' k) eqn:H1; [|destruct (strcmp k' k <? 0) eqn:H2].
  - apply IHl. tauto.
  - apply IHr. tauto.
  - exfalso. apply Hk. right. left.
    apply strcmp_eq. apply Z.ltb_ge in H1, H2. lia.
Qed.

(** In a sorted tree, a key that is in the tree is found. *)
Lemma find_In k t : forall c,
  sorted_keys (entries t) -> In k (map fst (entries t)) ->
  exists c' t', find k t c = Some (c', t').
Proof.
  induction t as [|p l IHl k' d h r IHr]; intros c Hs Hk; simpl; [destruct Hk|].
  simpl in Hs, Hk. rewrite map_app, in_app_iff in Hk. simpl in Hk.
  apply sorted_keys_app in Hs as (Hsl & Hsr & Hlr).
  apply sorted_keys_cons in Hsr as (Hsr & Hr).
  destruct (0 <? strcmp k' k) eqn:H1; [|destruct (strcmp k' k <? 0) eqn:H2].
  - apply IHl; [exact Hsl|]. destruct Hk as [Hk|[Hk|Hk]]; [exact Hk| |].
    + subst k'. rewrite strcmp_refl in H1. discriminate.
    + exfalso. apply in_map_iff in Hk as (e & <- & He).
      specialize (Hr e He). simpl in Hr. unfold key_le in Hr.
      apply Z.ltb_lt in H1. lia.
  - apply IHr; [exact Hsr|]. destruct Hk as [Hk|[Hk|Hk]]; [| |exact Hk].
    + exfalso. apply in_map_iff in Hk as (e & <- & He).
      specialize (Hlr e (k', d) He (or_introl eq_refl)). simpl in Hlr.
      unfold key_le in Hlr. apply Z.ltb_lt in H2. rewrite strcmp_antisym in H2. lia.
    + subst k'. rewrite strcmp_refl in H2. discriminate.
  - eauto.
Qed.

(** * The descent of [_strMaxKeySon] *)

Lemma maxKeySon_loop_run t : forall c hp fa fuel,
  t <> E -> rep hp fa t -> (length (ptrs t) <= fuel)%nat ->
  _strMaxKeySon_loop fuel (root t) hp = Some (root (snd (maxKeySon_a t c)), hp).
Proof.
  induction t as [|p l IHl k d h r IHr]; intros c hp fa fuel Hne Hrep Hfuel; [congruence|].
  destruct fuel as [|fuel]; [simpl in Hfuel; lia|].
  destruct Hrep as (Hp & Hl & Hr). cbn [_strMaxKeySon_loop root].
  eapply bind_run; [apply deref_run; exact Hp|]. cbv beta. fields.
  simpl in Hfuel. rewrite length_app in Hfuel.
  destruct r as [|pr rl kr dr hr rr]; [reflexivity|].
  cbn [root maxKeySon_a].
  apply (IHr (FR p l k d h :: c) hp (Some p)); [discriminate|exact Hr|lia].
Qed.


Lemma maxKeySon_spec t : forall c c' m,
  t <> E -> maxKeySon_a t c = (c', m) ->
  plug c' m = plug c t
  /\ (exists ci, c' = ci ++ c /\ all_right ci)
  /\ exists p l k d h, m = T p l k d h E.
Proof.
  induction t as [|p l IHl k d h r IHr]; intros c c' m Hne; [congruence|].
  destruct r as [|pr rl kr dr hr rr].
  - simpl. intros [= <- <-]. split; [reflexivity|]. split; [exists []; split; [reflexivity|constructor]|].
    eauto 10.
  - cbn [maxKeySon_a]. intros H. apply IHr in H as (Hp & (ci & -> & Hci) & Hm); [|discriminate].
    split; [exact Hp|]. split; [|exact Hm].
    exists (ci ++ [FR p l k d h]). rewrite <- app_assoc. split; [reflexivity|].
    apply Forall_app. split; [exact Hci|repeat constructor].
Qed.

Lemma all_right_after ci : all_right ci -> ctx_after ci = [].
Proof.
  induction 1 as [|f ci Hf _ IH]; [reflexivity|].
  destruct f; [destruct Hf|]. exact IH.
Qed.

(** * Cutting a son *)

Lemma ptr_eqb_true a : ptr_eqb a a = true.
Proof. unfold ptr_eqb. apply bool_decide_eq_true. reflexivity. Qed.

Lemma ptr_eqb_false a b : a <> b -> ptr_eqb a b = false.
Proof. unfold ptr_eqb. apply bool_decide_eq_false. Qed.

Lemma cutSubtree_left_run (hp : heap) x xn pf fn :
  hp !! x = Some xn -> _father xn = Some pf -> hp !! pf = Some fn -> x <> pf ->
  _leftSon fn = Some x -> _rightSon fn <> Some x ->
  _strCutSubtree (Some x) hp
  = Some (Some x, <[pf := set_leftSon None fn]> (<[x := set_father None xn]> hp)).
Proof.
  intros Hx Hfa Hpf Hne Hl Hr. unfold _strCutSubtree.
  eapply bind_run; [apply deref_run; exact Hx|]. cbv beta. rewrite Hfa.
  eapply bind_run; [apply deref_run; exact Hpf|]. cbv beta.
  rewrite (ptr_eqb_false _ _ Hr), Hl, ptr_eqb_true.
  assert (Hcut : _strCutLeftSubtree (Some pf) hp
    = Some (Some x, <[pf := set_leftSon None fn]> (<[x := set_father None xn]> hp))).
  { unfold _strCutLeftSubtree.
    eapply bind_run; [apply deref_run; exact Hpf|]. cbv beta. rewrite Hl.
    eapply bind_run; [apply modify_run; exact Hx|]. cbv beta.
    eapply bind_run; [apply modify_run; rewrite lookup_insert_ne by exact Hne; exact Hpf|].
    reflexivity. }
  destruct (_leftSon xn), (_rightSon xn); try exact Hcut.
  eapply bind_run; [apply modify_run; exact Hpf|]. cbv beta.
  eapply bind_run; [apply modify_run; rewrite lookup_insert_ne by congruence; exact Hx|].
  cbv beta. unfold ret. rewrite insert_insert_ne by congruence. reflexivity.
Qed.

Lemma cutSubtree_right_run (hp : heap) x xn pf fn :
  hp !! x = Some xn -> _father xn = Some pf -> hp !! pf = Some fn -> x <> pf ->
  _rightSon fn = Some x -> _leftSon fn <> Some x ->
  _strCutSubtree (Some x) hp
  = Some (Some x, <[pf := set_rightSon None fn]> (<[x := set_father None xn]> hp)).
Proof.
  intros Hx Hfa Hpf Hne Hr Hl. unfold _strCutSubtree.
  eapply bind_run; [apply deref_run; exact Hx|]. cbv beta. rewrite Hfa.
  eapply bind_run; [apply deref_run; exact Hpf|]. cbv beta.
  rewrite (ptr_eqb_false _ _ Hl), Hr, ptr_eqb_true.
  assert (Hcut : _strCutRightSubtree (Some pf) hp
    = Some (Some x, <[pf := set_rightSon None fn]> (<[x := set_father None xn]> hp))).
  { unfold _strCutRightSubtree.
    eapply bind_run; [apply deref_run; exact Hpf|]. cbv beta. rewrite Hr.
    eapply bind_run; [apply modify_run; exact Hx|]. cbv beta.
    eapply bind_run; [apply modify_run; rewrite lookup_insert_ne by exact Hne; exact Hpf|].
    reflexivity. }
  destruct (_leftSon xn), (_rightSon xn); try exact Hcut.
  eapply bind_run; [apply modify_run; exact Hpf|]. cbv beta.
  eapply bind_run; [apply modify_run; rewrite lookup_insert_ne by congruence; exact Hx|].
  cbv beta. unfold ret. rewrite insert_insert_ne by congruence. reflexivity.
Qed.

Ltac run_cut :=
  first
    [ reflexivity
    | eapply cutSubtree_left_run;
      [ lookup | fields; reflexivity | lookup | neq | fields; reflexivity
      | fields; congruence ]
    | eapply cutSubtree_right_run;
      [ lookup | fields; reflexivity | lookup | neq | fields; reflexivity
      | fields; congruence ] ].

Ltac runc :=
  run;
  repeat (lazymatch goal with
          | |- bind (_strCutSubtree _) _ _ = _ =>
              eapply bind_run; [ run_cut | cbv beta; run ]
          end).

(** The node takes the entry and the sons of its only son, which is
    detached. *)
Lemma cut_one_son_run hp fa p l k d h r ps sl ks ds hs sr :
  let son := T ps sl ks ds hs sr in
  (l = son /\ r = E) \/ (l = E /\ r = son) ->
  rep hp fa (T p l k d h r) -> NoDup (ptrs (T p l k d h r)) ->
  exists hp',
    (_strSwapInfo (Some p) (Some ps) ;;;
     _strCutSubtree (Some ps) ;;;
     s <- deref (Some ps) ;;
     r <- _strCutSubtree (_rightSon s) ;;
     _strInsertAsRightSubtree (Some p) r ;;;
     s' <- deref (Some ps) ;;
     l <- _strCutSubtree (_leftSon s') ;;
     _strInsertAsLeftSubtree (Some p) l ;;;
     ret (Some ps)) hp = Some (Some ps, hp')
    /\ rep hp' fa (T p sl ks ds h sr)
    /\ same_outside (ptrs (T p l k d h r)) hp hp'.
Proof.
  intros son Hcase Hrep Hnd. subst son.
  destruct Hcase as [[-> ->]|[-> ->]];
    destruct sl as [|pa a1 ka da ha a2], sr as [|pb b1 kb db hb b2];
    simpl in Hrep, Hnd; nodup_facts; destruct_and?.
  all: eexists; split; [|split]; [ runc | solve_rep | simpl; solve_same_outside ].
Qed.

(** Cutting a leaf below a path. *)
Lemma cut_leaf_run hp f c p k d h :
  rep hp None (plug (f :: c) (T p E k d h E)) ->
  NoDup (ptrs (plug (f :: c) (T p E k d h E))) ->
  exists hp',
    _strCutSubtree (Some p) hp = Some (Some p, hp')
    /\ rep hp' None (plug (f :: c) E)
    /\ same_outside (ptrs (plug (f :: c) (T p E k d h E))) hp hp'.
Proof.
  intros Hrep Hnd.
  assert (Hso : forall hp', same_outside (frame_ptrs f ++ ctx_ptrs c ++ [p]) hp hp' ->
                 same_outside (ptrs (plug (f :: c) (T p E k d h E))) hp hp').
  { intros hp' H. eapply same_outside_mono; [|exact H]. intros q.
    rewrite ptrs_plug. simpl. rewrite <- app_assoc. auto. }
  apply rep_plug in Hrep as [Hctx Hleaf].
  rewrite ptrs_plug in Hnd. simpl in Hnd, Hleaf.
  destruct f as [pf kf df hf r|pf l kf df hf]; simpl in Hctx, Hnd, Hleaf;
    destruct Hctx as (Hpf & Hr & Hctx); destruct Hleaf as (Hp & _);
    rewrite <- ?app_assoc in Hnd; nodup_facts.
  - eexists. split; [|split].
    + eapply cutSubtree_left_run; [lookup|fields; reflexivity|lookup|neq|reflexivity|].
      fields. destruct r; simpl in *; [congruence|]. nodup_facts. congruence.
    + apply rep_plug. split; [|exact I].
      cbn [rep_ctx_from root]. split; [lookup|]. split.
      * eapply rep_agree; [|exact Hr]. solve_agree.
      * eapply rep_ctx_agree; [|exact Hctx]. solve_agree.
    + apply Hso. simpl. solve_same_outside.
  - eexists. split; [|split].
    + eapply cutSubtree_right_run; [lookup|fields; reflexivity|lookup|neq|reflexivity|].
      fields. destruct l; simpl in *; [congruence|]. nodup_facts. congruence.
    + apply rep_plug. split; [|exact I].
      cbn [rep_ctx_from root]. split; [lookup|]. split.
      * eapply rep_agree; [|exact Hr]. solve_agree.
      * eapply rep_ctx_agree; [|exact Hctx]. solve_agree.
    + apply Hso. simpl. solve_same_outside.
Qed.

(** * [_strCutOneSonNode] *)

Lemma heights_nonneg_T_inv p l k d h r :
  heights_nonneg (T p l k d h r) -> 0 <= h /\ heights_nonneg l /\ heights_nonneg r.
Proof. simpl. tauto. Qed.

Lemma cutOneSonNode_run hp c p l k d h r :
  l = E \/ r = E ->
  rep hp None (plug c (T p l k d h r)) ->
  NoDup (ptrs (plug c (T p l k d h r))) ->
  heights_nonneg (plug c (T p l k d h r)) ->
  exists hp' pf t',
    _strCutOneSonNode (Some p) hp = Some (Some pf, hp')
    /\ cutOneSonNode_a c (T p l k d h r) = (t', Some pf)
    /\ rep hp' None t'
    /\ same_outside (ptrs (plug c (T p l k d h r))) hp hp'
    /\ pf ∈ ptrs (T p l k d h r).
Proof.
  intros Hcase Hrep Hnd Hh. set (t := T p l k d h r) in *.
  pose proof (proj1 (rep_plug hp c t) Hrep) as [Hctx Hrept].
  pose proof Hrept as (Hp & Hl & Hr).
  pose proof (NoDup_plug_inner _ _ Hnd) as Hndt.
  pose proof (proj1 (heights_nonneg_plug c t) Hh) as [Hhc Hht].
  apply heights_nonneg_T_inv in Hht as (Hh0 & Hhl & Hhr).
  unfold _strCutOneSonNode.
  destruct (match l with E => r | _ => l end) as [|ps sl ks ds hs sr] eqn:Hson.
  - (* a leaf *)
    assert (l = E /\ r = E) as [-> ->].
    { destruct l, r; try discriminate; auto. }
    destruct c as [|f c].
    + exists hp, p, E. split; [|split; [reflexivity|split; [exact I|split]]].
      * eapply bind_run; [apply deref_run; exact Hp|]. cbv beta. fields.
        eapply bind_run.
        { unfold _strCutSubtree. eapply bind_run; [apply deref_run; exact Hp|].
          reflexivity. }
        cbv beta. reflexivity.
      * apply same_outside_refl.
      * left.
    + destruct (cut_leaf_run hp f c p k d h Hrep Hnd) as (hp1 & Hcut & Hrep1 & Hso1).
      assert (Hnd1 : NoDup (ptrs (plug (f :: c) E))).
      { rewrite ptrs_plug in Hnd |- *. apply NoDup_app in Hnd as (Hnd & _).
        rewrite app_nil_r. exact Hnd. }
      destruct (balanceDelete_loop_run (f :: c) E hp1 (S (size hp1)) Hrep1 Hnd1)
        as (hp' & Hbal & Hrep' & Hso2).
      { apply heights_nonneg_plug. split; [exact Hhc|exact I]. }
      { pose proof (length_ctx_plug (f :: c) E).
        pose proof (length_ptrs_size hp1 None _ Hrep1 Hnd1). lia. }
      exists hp', p, (balanceDelete_a (f :: c) E).
      split; [|split; [reflexivity|split; [exact Hrep'|split]]].
      * eapply bind_run; [apply deref_run; exact Hp|]. cbv beta. fields.
        eapply bind_run; [exact Hcut|]. cbv beta.
        eapply bind_run; [unfold _strBalanceDelete; rewrite with_fuel_run; exact Hbal|].
        reflexivity.
      * eapply same_outside_trans; [exact Hso1|].
        eapply same_outside_mono; [|exact Hso2]. intros q.
        rewrite !ptrs_plug, !elem_of_app. simpl. rewrite elem_of_nil. tauto.
      * left.
  - (* one son *)
    assert (Hcase' : (l = T ps sl ks ds hs sr /\ r = E) \/ (l = E /\ r = T ps sl ks ds hs sr)).
    { destruct l; [right; auto|]. destruct Hcase as [Hc|Hc]; [discriminate|].
      subst r. left. auto. }
    destruct (cut_one_son_run hp (ctx_father c) p l k d h r ps sl ks ds hs sr Hcase' Hrept Hndt)
      as (hp1 & Hcut & Hrep1 & Hso1).
    set (t1 := T p sl ks ds h sr) in *.
    assert (Hsub : forall q, q ∈ ptrs t1 -> q ∈ ptrs t).
    { intros q. unfold t1, t. destruct Hcase' as [[-> ->]|[-> ->]]; simpl;
        rewrite ?app_nil_r, ?elem_of_cons, ?elem_of_app, ?elem_of_cons, ?elem_of_app; tauto. }
    assert (Hps : ps ∈ ptrs t /\ ps ∉ ptrs t1).
    { clear Hso1 Hrep1 Hcut Hsub.
      unfold t, t1 in *. destruct Hcase' as [[-> ->]|[-> ->]]; simpl in Hndt |- *;
        rewrite ?app_nil_r in *; nodup_facts; (split; [in_list|]);
        (apply not_elem_of_cons; split; [neq|apply not_elem_of_app; split; assumption]). }
    assert (Hndt1 : NoDup (ptrs t1)).
    { clear Hso1 Hrep1 Hcut Hsub Hps.
      unfold t, t1 in *. destruct Hcase' as [[-> ->]|[-> ->]]; simpl in Hndt |- *;
        rewrite ?app_nil_r in *; nodup_facts;
        (apply NoDup_cons; split; [apply not_elem_of_app; split; assumption|]);
        apply NoDup_app; auto. }
    destruct (plug_replace hp hp1 c t t1 Hrep Hnd Hrep1 eq_refl) as [Hrep2 Hnd2]; auto.
    { apply Hso1. }
    assert (Hh1 : heights_nonneg (plug c t1)).
    { apply heights_nonneg_plug. split; [exact Hhc|]. unfold t1. simpl.
      destruct Hcase' as [[-> ->]|[-> ->]]; simpl in *; tauto. }
    destruct (balanceDelete_loop_run c t1 hp1 (S (size hp1)) Hrep2 Hnd2 Hh1)
      as (hp' & Hbal & Hrep' & Hso2).
    { pose proof (length_ctx_plug c t1).
      pose proof (length_ptrs_size hp1 None _ Hrep2 Hnd2). lia. }
    exists hp', ps, (balanceDelete_a c t1).
    split; [|split; [|split; [exact Hrep'|split; [|apply Hps]]]].
    + eapply bind_run; [apply deref_run; exact Hp|]. cbv beta. fields.
      replace (match root l with Some _ => root l | None => root r end) with (Some ps).
      2:{ destruct Hcase' as [[-> ->]|[-> ->]]; reflexivity. }
      eapply bind_run; [exact Hcut|]. cbv beta.
      eapply bind_run; [unfold _strBalanceDelete; rewrite with_fuel_run; exact Hbal|].
      reflexivity.
    + unfold cutOneSonNode_a, t. rewrite Hson. reflexivity.
    + eapply same_outside_trans.
      * eapply same_outside_mono; [|exact Hso1]. intros q. apply in_ptrs_plug.
      * eapply same_outside_mono; [|exact Hso2]. intros q.
        rewrite !ptrs_plug, !elem_of_app. intros [Hq|Hq]; auto.
Qed.

(** * The exchange with the predecessor *)

Lemma swapInfo_run (hp : heap) p pn q qn :
  hp !! p = Some pn -> hp !! q = Some qn -> p <> q ->
  _strSwapInfo (Some p) (Some q) hp
  = Some (tt, <[q := set_data (_data pn) (set_key (_key pn) qn)]>
               (<[p := set_data (_data qn) (set_key (_key qn) pn)]> hp)).
Proof.
  intros Hp Hq Hne. unfold _strSwapInfo.
  eapply bind_run; [apply deref_run; exact Hp|]. cbv beta.
  eapply bind_run; [apply deref_run; exact Hq|]. cbv beta.
  eapply bind_run; [apply modify_run; exact Hp|]. cbv beta.
  eapply bind_run; [apply modify_run; rewrite lookup_insert_ne by exact Hne; exact Hq|].
  cbv beta.
  eapply bind_run.
  { apply modify_run. rewrite lookup_insert_ne by congruence. apply lookup_insert_eq. }
  cbv beta.
  erewrite modify_run.
  2:{ rewrite lookup_insert_ne by exact Hne. apply lookup_insert_eq. }
  f_equal. f_equal. apply map_eq. intros z.
  destruct (decide (z = q)) as [->|Hzq].
  { rewrite !lookup_insert_eq. reflexivity. }
  rewrite !(lookup_insert_ne _ q z) by congruence.
  destruct (decide (z = p)) as [->|Hzp].
  { rewrite !lookup_insert_eq. reflexivity. }
  rewrite !lookup_insert_ne by congruence. reflexivity.
Qed.

Lemma swap_pred_run hp c p k d h r ci pm ml km dm hm :
  let m := T pm ml km dm hm E in
  let m' := T pm ml k d hm E in
  rep hp None (plug c (T p (plug ci m) k d h r)) ->
  NoDup (ptrs (plug c (T p (plug ci m) k d h r))) ->
  exists hp',
    _strSwapInfo (Some p) (Some pm) hp = Some (tt, hp')
    /\ rep hp' None (plug (ci ++ FL p km dm h r :: c) m')
    /\ NoDup (ptrs (plug (ci ++ FL p km dm h r :: c) m'))
    /\ same_outside (ptrs (plug c (T p (plug ci m) k d h r))) hp hp'.
Proof.
  intros m m' Hrep Hnd.
  set (T1 := T p (plug ci m) k d h r) in *.
  set (T1' := T p (plug ci m') km dm h r).
  assert (Hplug' : plug (ci ++ FL p km dm h r :: c) m' = plug c T1').
  { rewrite plug_app. reflexivity. }
  rewrite Hplug'.
  pose proof (proj1 (rep_plug hp c T1) Hrep) as [Hctx (Hp & Hl & Hr)].
  pose proof (proj1 (rep_plug_from hp (Some p) ci m) Hl) as [Hci (Hpm & Hml & _)].
  pose proof Hnd as Hnd0.
  rewrite ptrs_plug in Hnd. unfold T1 in Hnd. cbn [ptrs] in Hnd.
  rewrite ptrs_plug in Hnd. unfold m in Hnd. cbn [ptrs] in Hnd.
  rewrite app_nil_r in Hnd. nodup_facts.
  assert (Hne : p <> pm) by congruence.
  eexists. split; [apply (swapInfo_run hp p _ pm _ Hp Hpm Hne)|]. fields.
  set (hp' := <[pm := _]> (<[p := _]> hp)).
  assert (Hag : forall q, q <> p -> q <> pm -> hp' !! q = hp !! q).
  { intros q Hq1 Hq2. unfold hp'. rewrite !lookup_insert_ne by congruence. reflexivity. }
  assert (Hrep1 : rep hp' (ctx_father c) T1').
  { unfold T1'. split; [|split].
    - unfold hp'. rewrite lookup_insert_ne by congruence. rewrite lookup_insert_eq.
      rewrite (root_plug ci m m') by reflexivity. reflexivity.
    - apply (plug_replace_from hp hp' (Some p) ci m m'); auto.
      + rewrite ptrs_plug. unfold m. cbn [ptrs]. rewrite app_nil_r.
        apply NoDup_app. split; [assumption|]. split; [|apply NoDup_cons; split; assumption].
        intros x Hx. apply not_elem_of_cons. split; [intros ->; contradiction|auto].
      + unfold m'. split; [|split; [|exact I]].
        * unfold hp'. rewrite lookup_insert_eq. reflexivity.
        * eapply rep_agree; [|exact Hml]. intros q Hq. apply Hag; intros ->; contradiction.
      + intros q Hq. apply Hag; intros ->; contradiction.
      + unfold m'. cbn [ptrs]. rewrite app_nil_r. apply NoDup_cons. split; assumption.
    - eapply rep_agree; [|exact Hr]. intros q Hq. apply Hag; intros ->; contradiction. }
  assert (Hsub : forall q, q ∈ ptrs T1' <-> q ∈ ptrs T1).
  { intros q. unfold T1', T1. cbn [ptrs]. rewrite !elem_of_cons, !elem_of_app, !ptrs_plug.
    reflexivity. }
  assert (HndT1 : NoDup (ptrs T1')).
  { pose proof (NoDup_plug_inner _ _ Hnd0) as H'. unfold T1', T1 in *. cbn [ptrs] in *.
    rewrite ptrs_plug in *. exact H'. }
  destruct (plug_replace_from hp hp' None c T1 T1' Hrep Hnd0 Hrep1 eq_refl) as [Hrep' Hnd'];
    auto.
  { intros q Hq. apply Hag; intros ->; contradiction. }
  { intros q. apply Hsub. }
  split; [exact Hrep'|]. split; [exact Hnd'|].
  eapply same_outside_mono with (ps := [p; pm]).
  - intros q Hq. apply in_ptrs_plug. unfold T1. cbn [ptrs].
    apply elem_of_cons in Hq as [->|Hq]; [left|].
    apply list_elem_of_singleton in Hq as ->. right. apply elem_of_app. left.
    apply in_ptrs_plug. left.
  - unfold hp'. solve_same_outside.
Qed.

(** * Deletion on trees *)

Lemma cutOneSonNode_a_spec c p l k d h r t' pf :
  l = E \/ r = E ->
  cutOneSonNode_a c (T p l k d h r) = (t', pf) ->
  exists q, pf = Some q
    /\ q :: ptrs t' ≡ₚ ptrs (plug c (T p l k d h r))
    /\ entries t' = ctx_before c ++ (entries l ++ entries r) ++ ctx_after c
    /\ (heights_nonneg (plug c (T p l k d h r)) -> heights_nonneg t')
    /\ (c <> [] \/ l <> E \/ r <> E -> root t' = root (plug c (T p l k d h r))).
Proof.
  intros Hcase. unfold cutOneSonNode_a.
  destruct (match l with E => r | _ => l end) as [|ps sl ks ds hs sr] eqn:Hson.
  - assert (l = E /\ r = E) as [-> ->].
    { destruct l, r; try discriminate; auto. }
    intros [= <- <-]. exists p. split; [reflexivity|]. split; [|split; [|split]].
    + rewrite ptrs_balanceDelete, !ptrs_plug. simpl. rewrite app_nil_r.
      apply Permutation_cons_append.
    + rewrite entries_balanceDelete, entries_plug. reflexivity.
    + intros H. apply heights_nonneg_balanceDelete.
      apply heights_nonneg_plug in H as [H _]. apply heights_nonneg_plug. split; [exact H|exact I].
    + intros [Hc|[Hc|Hc]]; try congruence.
      rewrite root_balanceDelete. destruct c as [|f c]; [congruence|].
      apply root_plug_cons.
  - assert (Hcase' : (l = T ps sl ks ds hs sr /\ r = E) \/ (l = E /\ r = T ps sl ks ds hs sr)).
    { destruct l; [right; auto|]. destruct Hcase as [Hc|Hc]; [discriminate|].
      subst r. left. auto. }
    intros [= <- <-]. exists ps. split; [reflexivity|]. split; [|split; [|split]].
    + rewrite ptrs_balanceDelete, !ptrs_plug.
      rewrite (Permutation_middle (ctx_ptrs c)). apply Permutation_app_head.
      destruct Hcase' as [[-> ->]|[-> ->]]; simpl; rewrite ?app_nil_r.
      * apply perm_swap.
      * apply perm_swap.
    + rewrite entries_balanceDelete, entries_plug.
      destruct Hcase' as [[-> ->]|[-> ->]]; simpl; rewrite ?app_nil_r; reflexivity.
    + intros H. apply heights_nonneg_balanceDelete.
      apply heights_nonneg_plug in H as [H H']. apply heights_nonneg_plug. split; [exact H|].
      destruct Hcase' as [[-> ->]|[-> ->]]; simpl in *; tauto.
    + intros _. rewrite root_balanceDelete. apply root_plug. reflexivity.
Qed.

Lemma plug_nonempty c : forall t, t <> E -> plug c t <> E.
Proof.
  induction c as [|f c IH]; intros t Ht; simpl; [exact Ht|].
  apply IH. destruct f; discriminate.
Qed.

Lemma heights_nonneg_set_payload k d t :
  heights_nonneg (set_payload k d t) <-> heights_nonneg t.
Proof. destruct t; simpl; tauto. Qed.

Lemma delete_a_spec key t t' pf :
  NoDup (ptrs t) ->
  delete_a key t = Some (t', pf) ->
  exists q l1 d l2,
    pf = Some q
    /\ q :: ptrs t' ≡ₚ ptrs t
    /\ entries t = l1 ++ (key, d) :: l2
    /\ entries t' = l1 ++ l2
    /\ (heights_nonneg t -> heights_nonneg t')
    /\ ((1 < length (ptrs t))%nat -> root t' = root t).
Proof.
  intros Hnd. unfold delete_a.
  destruct (find key t []) as [[c tf]|] eqn:Hfind; [|discriminate].
  apply find_Some in Hfind as (Hplug & _ & (p & l & d & h & r & ->)).
  simpl in Hplug.
  assert (Hroot1 : forall c0 l0 r0, c0 <> [] \/ l0 <> E \/ r0 <> E ->
             (1 < length (ptrs (plug c0 (T p l0 key d h r0))))%nat).
  { intros c0 l0 r0 H. rewrite ptrs_plug, length_app. simpl. rewrite length_app.
    destruct H as [H|[H|H]].
    - pose proof (length_ctx_ptrs c0). destruct c0; [congruence|simpl in *; lia].
    - destruct l0; [congruence|simpl; lia].
    - destruct r0; [congruence|simpl; lia]. }
  destruct l as [|pl ll kl dl hl lr] eqn:El.
  { (* no left son *)
    intros H0.
    assert (H : cutOneSonNode_a c (T p E key d h r) = (t', pf)) by congruence.
    apply cutOneSonNode_a_spec in H as (q & -> & Hp & He & Hh & Hr); [|left; reflexivity].
    exists q, (ctx_before c), d, (entries r ++ ctx_after c).
    rewrite <- Hplug. split; [reflexivity|]. split; [exact Hp|].
    split; [rewrite entries_plug; reflexivity|]. split; [exact He|]. split; [exact Hh|].
    intros Hlen. apply Hr. destruct c; [|left; discriminate].
    destruct r; [simpl in Hlen; lia|right; right; discriminate]. }
  destruct r as [|pr rl kr dr hr rr] eqn:Er.
  { (* no right son *)
    intros H0.
    assert (H : cutOneSonNode_a c (T p (T pl ll kl dl hl lr) key d h E) = (t', pf))
      by congruence.
    apply cutOneSonNode_a_spec in H as (q & -> & Hp & He & Hh & Hr); [|right; reflexivity].
    exists q, (ctx_before c ++ entries (T pl ll kl dl hl lr)), d, (ctx_after c).
    rewrite <- Hplug. split; [reflexivity|]. split; [exact Hp|].
    split; [rewrite entries_plug; cbn [entries]; rewrite <- !app_assoc; reflexivity|].
    split; [rewrite He; cbn [entries]; rewrite <- !app_assoc; reflexivity|].
    split; [exact Hh|]. intros _. apply Hr. right. left. discriminate. }
  (* two sons *)
  rewrite <- El. rewrite <- El in Hplug. rewrite <- Er. rewrite <- Er in Hplug.
  assert (Hl : l <> E) by (rewrite El; discriminate).
  clear El Er.
  destruct (maxKeySon_a l []) as [ci m] eqn:Hmax.
  apply maxKeySon_spec in Hmax as (Hpl & (ci' & Hci & Hall) & (pm & ml & km & dm & hm & ->));
    [|exact Hl].
  rewrite app_nil_r in Hci. subst ci'. simpl in Hpl.
  cbn [payload set_payload].
  intros H0.
  assert (H : cutOneSonNode_a (ci ++ FL p km dm h r :: c) (T pm ml key d hm E) = (t', pf))
    by congruence.
  apply cutOneSonNode_a_spec in H as (q & -> & Hp & He & Hh & Hr); [|right; reflexivity].
  assert (Hplug2 : forall k1 d1 k2 d2,
            plug (ci ++ FL p k1 d1 h r :: c) (T pm ml k2 d2 hm E)
            = plug c (T p (plug ci (T pm ml k2 d2 hm E)) k1 d1 h r)).
  { intros. rewrite plug_app. reflexivity. }
  rewrite Hplug2 in Hp, Hh, Hr.
  exists q, (ctx_before c ++ ctx_before ci ++ entries ml ++ [(km, dm)]), d,
    (entries r ++ ctx_after c).
  split; [reflexivity|]. split; [|split; [|split; [|split]]].
  - rewrite Hp, <- Hplug, <- Hpl, !ptrs_plug. cbn [ptrs]. rewrite !ptrs_plug. reflexivity.
  - rewrite <- Hplug, <- Hpl, entries_plug. cbn [entries]. rewrite entries_plug.
    rewrite (all_right_after ci Hall). cbn [entries]. rewrite !app_nil_r.
    rewrite <- !app_assoc. reflexivity.
  - rewrite He, ctx_before_app, ctx_after_app. cbn [ctx_before ctx_after entries].
    rewrite (all_right_after ci Hall). rewrite !app_nil_r. cbn [app].
    rewrite <- !app_assoc. reflexivity.
  - intros H. apply Hh. rewrite <- Hplug, <- Hpl in H.
    apply heights_nonneg_plug in H as [H1 H2]. apply heights_nonneg_plug. split; [exact H1|].
    simpl in H2 |- *. destruct H2 as (H2 & H3 & H4). split; [exact H2|]. split; [|exact H4].
    apply heights_nonneg_plug in H3 as [H3 H5]. apply heights_nonneg_plug. split; [exact H3|].
    exact H5.
  - intros Hlen. rewrite Hr; [|left; destruct ci; discriminate].
    rewrite <- Hplug. apply root_plug. reflexivity.
Qed.

Lemma delete_a_None key t :
  delete_a key t = None -> find key t [] = None.
Proof.
  unfold delete_a. destruct (find key t []) as [[c tf]|] eqn:Hfind; [|reflexivity].
  apply find_Some in Hfind as (_ & _ & (p & l & d & h & r & ->)).
  destruct l, r; try discriminate.
  destruct (maxKeySon_a _ _) as [ci m]. destruct (payload m). discriminate.
Qed.

(** * [strDelete] on a well-formed heap *)

Lemma searchStrNode_run hp tr t key :
  rep hp None t -> NoDup (ptrs t) -> _root tr = root t ->
  _searchStrNode tr (Some key) hp = Some (found_root (find key t []), hp).
Proof.
  intros Hrep Hnd Hroot. unfold _searchStrNode. rewrite Hroot.
  destruct t as [|p l k d h r]; [reflexivity|]. cbn [root].
  rewrite with_fuel_run.
  apply (search_loop_run key (T p l k d h r) [] hp); [exact Hrep|].
  pose proof (length_ptrs_size hp None _ Hrep Hnd). lia.
Qed.

Lemma ptrs_E_nil t : ptrs t = [] -> t = E.
Proof. destruct t; [reflexivity|discriminate]. Qed.

(** What remains to do once the node to free is detached. *)
Lemma delete_finish hp tr t (hp2 : heap) t' q :
  tree_inv hp tr t ->
  rep hp2 None t' -> dom hp2 = dom hp ->
  q :: ptrs t' ≡ₚ ptrs t ->
  (heights_nonneg t -> heights_nonneg t') ->
  ((1 < length (ptrs t))%nat -> root t' = root t) ->
  (exists l1 e l2, entries t = l1 ++ e :: l2 /\ entries t' = l1 ++ l2) ->
  exists hp' tr',
    (free (Some q) ;;;
     ret (1, Some (mkTree (if ulong_decr (nodesCount tr) =? 0 then None else _root tr)
                          (ulong_decr (nodesCount tr)) (maxNodes tr)))) hp2
    = Some ((1, Some tr'), hp')
    /\ tree_inv hp' tr' t'
    /\ nodesCount tr' = nodesCount tr - 1
    /\ maxNodes tr' = maxNodes tr
    /\ dom hp' = dom hp ∖ {[q]}.
Proof.
  intros [Hrep Hnd Hroot Hcount Hcap Hh Hs] Hrep2 Hdom Hperm Hh' Hroot' (l1 & e & l2 & He & He').
  assert (Hlen : length (ptrs t) = S (length (ptrs t'))).
  { rewrite <- Hperm. reflexivity. }
  assert (Hdecr : ulong_decr (nodesCount tr) = nodesCount tr - 1).
  { apply ulong_decr_small. lia. }
  assert (Hnd' : NoDup (q :: ptrs t')) by (rewrite Hperm; exact Hnd).
  apply NoDup_cons in Hnd' as [Hq Hnd'].
  assert (Hqin : is_Some (hp2 !! q)).
  { apply elem_of_dom. rewrite Hdom. eapply ptrs_in_dom; [exact Hrep|].
    rewrite <- Hperm. left. }
  destruct Hqin as [qn Hqn].
  rewrite Hdecr.
  eexists. eexists. split.
  { eapply bind_run; [unfold free; rewrite Hqn; reflexivity|]. reflexivity. }
  split; [|split; [reflexivity|split; [reflexivity|]]].
  - constructor; cbn [_root nodesCount maxNodes].
    + eapply rep_agree; [|exact Hrep2]. intros x Hx.
      apply lookup_delete_ne. intros ->. contradiction.
    + exact Hnd'.
    + destruct (nodesCount tr - 1 =? 0) eqn:Hz.
      * apply Z.eqb_eq in Hz.
        assert (ptrs t' = []) as ->%ptrs_E_nil; [|reflexivity].
        destruct (ptrs t'); [reflexivity|simpl in *; lia].
      * apply Z.eqb_neq in Hz. rewrite Hroot'; [exact Hroot|]. lia.
    + lia.
    + lia.
    + apply Hh'. exact Hh.
    + rewrite He'. eapply sorted_keys_remove. rewrite <- He. exact Hs.
  - rewrite dom_delete_L, Hdom. reflexivity.
Qed.

Lemma strDelete_run hp tr t key opts :
  tree_inv hp tr t -> 0 <= opts ->
  match delete_a key t with
  | None => strDelete (Some tr) (Some key) opts hp = Some ((0, Some tr), hp)
  | Some (t', pf) =>
      exists hp' tr' q,
        pf = Some q
        /\ strDelete (Some tr) (Some key) opts hp = Some ((1, Some tr'), hp')
        /\ tree_inv hp' tr' t'
        /\ nodesCount tr' = nodesCount tr - 1
        /\ maxNodes tr' = maxNodes tr
        /\ dom hp' = dom hp ∖ {[q]}
  end.
Proof.
  intros Hinv Hopts. pose proof Hinv as [Hrep Hnd Hroot Hcount Hcap Hh Hs].
  destruct (delete_a key t) as [[t' pf]|] eqn:Hdel.
  2:{ apply delete_a_None in Hdel. unfold strDelete.
      apply Z.ltb_ge in Hopts. rewrite Hopts.
      eapply bind_run; [apply (searchStrNode_run hp tr t key Hrep Hnd Hroot)|].
      cbv beta. rewrite Hdel. reflexivity. }
  destruct (delete_a_spec key t t' pf Hnd Hdel) as
    (q & l1 & d0 & l2 & -> & Hperm & He & He' & Hh' & Hroot').
  unfold delete_a in Hdel.
  destruct (find key t []) as [[c tf]|] eqn:Hfind; [|discriminate].
  pose proof (find_Some _ _ _ _ _ Hfind) as (Hplug & _ & (p & l & d & h & r & ->)).
  simpl in Hplug.
  assert (Hsearch : _searchStrNode tr (Some key) hp = Some (Some p, hp)).
  { rewrite (searchStrNode_run hp tr t key Hrep Hnd Hroot), Hfind. reflexivity. }
  rewrite <- Hplug in Hrep, Hnd, Hh.
  pose proof (proj1 (rep_plug hp c _) Hrep) as [Hctx (Hp & Hl & Hr)].
  cut (exists hp2,
         (match root l, root r with
          | Some _, Some _ =>
              maxLeft <- _strMaxKeySon (root l) ;;
              _strSwapInfo (Some p) maxLeft ;;;
              _strCutOneSonNode maxLeft
          | _, _ => _strCutOneSonNode (Some p)
          end) hp = Some (Some q, hp2)
         /\ rep hp2 None t' /\ dom hp2 = dom hp).
  { intros (hp2 & Hrun & Hrep2 & Hdom2).
    destruct (delete_finish hp tr t hp2 t' q Hinv Hrep2 Hdom2 Hperm Hh' Hroot')
      as (hp' & tr' & Hfin & Hinv' & Hc' & Hm' & Hd'); [eauto|].
    exists hp', tr', q. split; [reflexivity|]. split; [|auto].
    unfold strDelete. apply Z.ltb_ge in Hopts. rewrite Hopts.
    eapply bind_run; [exact Hsearch|]. cbv beta.
    eapply bind_run; [apply deref_run; exact Hp|]. cbv beta. fields.
    eapply bind_run; [exact Hrun|]. cbv beta. exact Hfin. }
  destruct l as [|pl ll kl dl hl lr] eqn:El.
  { destruct (cutOneSonNode_run hp c p E key d h r (or_introl eq_refl) Hrep Hnd Hh)
      as (hp2 & pf & t2 & Hrun & Ha & Hrep2 & Hso & _).
    assert (t2 = t' /\ pf = q) as [-> ->] by (split; congruence).
    exists hp2. split; [exact Hrun|]. split; [exact Hrep2|apply Hso]. }
  destruct r as [|pr rl kr dr hr rr] eqn:Er.
  { destruct (cutOneSonNode_run hp c p _ key d h E (or_intror eq_refl) Hrep Hnd Hh)
      as (hp2 & pf & t2 & Hrun & Ha & Hrep2 & Hso & _).
    assert (t2 = t' /\ pf = q) as [-> ->] by (split; congruence).
    exists hp2. split; [exact Hrun|]. split; [exact Hrep2|apply Hso]. }
  rewrite <- El, <- Er in *.
  assert (Hlne : l <> E) by (rewrite El; discriminate).
  assert (Hrl : exists x y, root l = Some x /\ root r = Some y).
  { rewrite El, Er. simpl. eauto. }
  destruct Hrl as (x & y & Hx & Hy).
  assert (Hdel' : (let '(ci, m) := maxKeySon_a l [] in
                   let '(km, dm) := payload m in
                   Some (cutOneSonNode_a (ci ++ FL p km dm h r :: c) (set_payload key d m)))
                  = Some (t', Some q)).
  { rewrite <- Hdel. rewrite El, Er. reflexivity. }
  clear El Er Hdel.
  destruct (maxKeySon_a l []) as [ci m] eqn:Hmax.
  pose proof (maxKeySon_spec l [] ci m Hlne Hmax)
    as (Hpl & _ & (pm & ml & km & dm & hm & ->)).
  simpl in Hpl. cbn [payload set_payload] in Hdel'.
  rewrite <- Hpl in Hrep, Hnd, Hh.
  destruct (swap_pred_run hp c p key d h r ci pm ml km dm hm Hrep Hnd)
    as (hp1 & Hswap & Hrep1 & Hnd1 & Hso1).
  assert (Hh1 : heights_nonneg (plug (ci ++ FL p km dm h r :: c) (T pm ml key d hm E))).
  { rewrite plug_app. simpl.
    apply heights_nonneg_plug in Hh as [H1 H2]. apply heights_nonneg_plug. split; [exact H1|].
    simpl in H2 |- *. destruct H2 as (H2 & H3 & H4). split; [exact H2|]. split; [|exact H4].
    apply heights_nonneg_plug in H3 as [H3 H5]. apply heights_nonneg_plug. split; [exact H3|].
    exact H5. }
  destruct (cutOneSonNode_run hp1 _ pm ml key d hm E (or_intror eq_refl) Hrep1 Hnd1 Hh1)
    as (hp2 & pf & t2 & Hrun & Ha & Hrep2 & Hso2 & _).
  assert (t2 = t' /\ pf = q) as [-> ->] by (split; congruence).
  exists hp2. split; [|split; [exact Hrep2|]].
  - rewrite Hx, Hy.
    eapply bind_run.
    { unfold _strMaxKeySon. rewrite with_fuel_run. rewrite <- Hx.
      apply (maxKeySon_loop_run l [] hp (Some p)); [exact Hlne|exact Hl|].
      pose proof (length_ptrs_size hp None _ Hrep Hnd) as Hsz.
      rewrite ptrs_plug, length_app in Hsz. rewrite Hpl in Hsz. cbn [ptrs] in Hsz.
      simpl in Hsz. rewrite length_app in Hsz. lia. }
    cbv beta. rewrite Hmax. cbn [snd root].
    eapply bind_run; [exact Hswap|]. cbv beta. exact Hrun.
  - destruct Hso1 as [_ Hd1]. destruct Hso2 as [_ Hd2]. congruence.
Qed.

Lemma strDelete_negative hp tr key opts :
  opts < 0 -> strDelete tr key opts hp = Some ((0, tr), hp).
Proof.
  intros H. unfold strDelete. destruct tr, key; try reflexivity.
  apply Z.ltb_lt in H. rewrite H. reflexivity.
Qed.

(** * The depth-first search in symmetric order *)

Lemma buf_write_middle (pre post : list (option cval)) x v :
  buf_write (pre ++ x :: post) (Z.of_nat (length pre)) v = Some (pre ++ v :: post).
Proof.
  unfold buf_write. rewrite length_app. simpl.
  replace ((0 <=? Z.of_nat (length pre))
           && (Z.of_nat (length pre) <? Z.of_nat (length pre + S (length post))))
    with true by (symmetry; apply andb_true_iff; split; [apply Z.leb_le|apply Z.ltb_lt]; lia).
  rewrite Nat2Z.id. f_equal.
  rewrite insert_app_r_alt by lia. rewrite Nat.sub_diag. reflexivity.
Qed.


Lemma length_inorder_vals pr t : length (inorder_vals pr t) = length (ptrs t).
Proof.
  induction t as [|p l IHl k d h r IHr]; simpl; [reflexivity|].
  rewrite !length_app. simpl. lia.
Qed.

Lemma inODFS_run pr intOpt (hp : heap) t :
  (forall p n buf cur,
     dfs_visit intOpt p n buf cur = buf_write buf cur (Some (pr p (_key n) (_data n)))) ->
  forall fa fuel pre mid post,
    rep hp fa t -> (length (ptrs t) <= fuel)%nat ->
    length mid = length (ptrs t) ->
    _strInODFS fuel hp (root t) intOpt (pre ++ mid ++ post) (Z.of_nat (length pre))
    = Some (pre ++ inorder_vals pr t ++ post,
            Z.of_nat (length pre) + Z.of_nat (length (ptrs t)) - 1).
Proof.
  intros Hvis.
  induction t as [|p l IHl k d h r IHr]; intros fa fuel pre mid post Hrep Hfuel Hmid.
  - destruct mid; [|discriminate]. destruct fuel; simpl; f_equal; f_equal; lia.
  - destruct fuel as [|fuel]; [simpl in Hfuel; lia|].
    destruct Hrep as (Hp & Hl & Hr). simpl in Hfuel, Hmid.
    rewrite length_app in Hfuel, Hmid.
    assert (Hsplit : exists ml x mr, mid = ml ++ x :: mr
              /\ length ml = length (ptrs l) /\ length mr = length (ptrs r)).
    { exists (take (length (ptrs l)) mid).
      destruct (drop (length (ptrs l)) mid) as [|x mr] eqn:Hd.
      - apply (f_equal length) in Hd. rewrite length_drop in Hd. simpl in Hd. lia.
      - exists x, mr. split; [rewrite <- Hd; symmetry; apply take_drop|].
        split; [rewrite length_take; lia|].
        apply (f_equal length) in Hd. rewrite length_drop in Hd. simpl in Hd. lia. }
    destruct Hsplit as (ml & x & mr & -> & Hml & Hmr).
    cbn [_strInODFS root]. rewrite Hp. cbn [mbind option_bind]. fields.
    rewrite <- app_assoc. rewrite <- (app_comm_cons mr post x).
    rewrite (IHl (Some p) fuel pre ml (x :: mr ++ post) Hl) by lia.
    cbn [mbind option_bind].
    rewrite Hvis. fields.
    replace (Z.of_nat (length pre) + Z.of_nat (length (ptrs l)) - 1 + 1)
      with (Z.of_nat (length (pre ++ inorder_vals pr l))).
    2:{ rewrite length_app, length_inorder_vals. lia. }
    rewrite (app_assoc pre (inorder_vals pr l)).
    rewrite buf_write_middle. cbn [mbind option_bind].
    replace (Z.of_nat (length (pre ++ inorder_vals pr l)) + 1)
      with (Z.of_nat (length ((pre ++ inorder_vals pr l) ++ [Some (pr p k d)]))).
    2:{ rewrite !length_app. simpl. lia. }
    replace ((pre ++ inorder_vals pr l) ++ Some (pr p k d) :: mr ++ post)
      with (((pre ++ inorder_vals pr l) ++ [Some (pr p k d)]) ++ mr ++ post).
    2:{ rewrite <- !app_assoc. reflexivity. }
    rewrite (IHr (Some p) fuel _ mr post Hr) by lia.
    f_equal. f_equal.
    + cbn [inorder_vals]. rewrite <- !app_assoc. reflexivity.
    + rewrite !length_app, length_inorder_vals. simpl. rewrite length_app. lia.
Qed.

Lemma inorder_vals_keys t :
  inorder_vals (fun _ k _ => VKey k) t = map (fun e => Some (VKey (fst e))) (entries t).
Proof.
  induction t as [|p l IHl k d h r IHr]; simpl; [reflexivity|].
  rewrite map_app, IHl, IHr. reflexivity.
Qed.

Lemma inorder_vals_data t :
  inorder_vals (fun _ _ d => VData d) t = map (fun e => Some (VData (snd e))) (entries t).
Proof.
  induction t as [|p l IHl k d h r IHr]; simpl; [reflexivity|].
  rewrite map_app, IHl, IHr. reflexivity.
Qed.

Lemma inorder_vals_nodes t :
  inorder_vals (fun p _ _ => VNode p) t = map (fun p => Some (VNode p)) (nodes t).
Proof.
  induction t as [|p l IHl k d h r IHr]; simpl; [reflexivity|].
  rewrite map_app, IHl, IHr. reflexivity.
Qed.

Lemma length_entries t : length (entries t) = length (ptrs t).
Proof.
  induction t as [|p l IHl k d h r IHr]; simpl; [reflexivity|].
  rewrite !length_app. simpl. lia.
Qed.

Lemma strDFS_inorder_run hp tr t opts intOpt pr :
  tree_inv hp tr t -> t <> E -> 0 < opts ->
  (if flag opts SEARCH_DATA then Some SEARCH_DATA
   else if flag opts SEARCH_KEYS then Some SEARCH_KEYS
   else if flag opts SEARCH_NODES then Some SEARCH_NODES
   else None) = Some intOpt ->
  (forall p n buf cur,
     dfs_visit intOpt p n buf cur = buf_write buf cur (Some (pr p (_key n) (_data n)))) ->
  strDFS hp (Some tr) DFS_IN_ORDER opts true = Some (Some (inorder_vals pr t)).
Proof.
  intros [Hrep Hnd Hroot Hcount Hcap Hh Hs] Hne Hopts Hint Hvis.
  unfold strDFS. apply Z.leb_gt in Hopts. rewrite Hopts. cbn [orb Z.leb DFS_IN_ORDER].
  change (0x40 <=? 0) with false. cbn [orb].
  rewrite Hroot. destruct t as [|p l k d h r]; [congruence|]. cbn [root].
  rewrite Hint. cbn [negb].
  change (flag 0x40 DFS_PRE_ORDER) with false.
  change (flag 0x40 DFS_IN_ORDER) with true. cbv iota.
  set (t := T p l k d h r) in *.
  pose proof (inODFS_run pr intOpt hp t Hvis None (S (size hp)) []
                (replicate (Z.to_nat (nodesCount tr)) None) []) as Hrun.
  rewrite app_nil_l, app_nil_r in Hrun. simpl length in Hrun.
  change (root t) with (Some p) in Hrun. change (Z.of_nat 0) with 0 in Hrun.
  rewrite Hrun.
  - cbn [mbind option_bind fst]. rewrite app_nil_r. reflexivity.
  - exact Hrep.
  - pose proof (length_ptrs_size hp None t Hrep Hnd) as Hsz.
    apply Nat.le_trans with (size hp); [exact Hsz|lia].
  - rewrite length_replicate, Hcount, Nat2Z.id. reflexivity.
Qed.

(** * Every state built with the library is well formed *)


Lemma with_key_lt k l : keys_lt k l -> with_key k l = [].
Proof.
  unfold keys_lt, with_key. induction 1 as [|e l He _ IH]; [reflexivity|].
  rewrite filter_cons_False; [exact IH|].
  intros Hk. rewrite Hk, strcmp_refl in He. lia.
Qed.

Lemma hist_ok_insert l1 l2 k d hist :
  keys_lt k l1 -> hist_ok (l1 ++ l2) hist ->
  hist_ok (l1 ++ (k, d) :: l2) ((k, d) :: hist).
Proof.
  intros Hlt H k'. specialize (H k'). unfold with_key in *.
  rewrite filter_app in *. destruct (decide (k = k')) as [<-|Hne].
  - rewrite !filter_cons_True by reflexivity.
    fold (with_key k l1) in *. rewrite (with_key_lt k l1 Hlt) in *. simpl in *.
    apply sublist_skip. exact H.
  - rewrite !filter_cons_False by (simpl; congruence). exact H.
Qed.

Lemma hist_ok_remove l1 e l2 hist :
  hist_ok (l1 ++ e :: l2) hist -> hist_ok (l1 ++ l2) hist.
Proof.
  intros H k. specialize (H k). unfold with_key in *.
  etransitivity; [|exact H]. rewrite !filter_app.
  apply sublist_app; [reflexivity|].
  rewrite filter_cons. destruct (decide (e.1 = k)); [apply sublist_cons|]; reflexivity.
Qed.

Lemma strInsert_full hp tr k d fresh :
  nodesCount tr = maxNodes tr ->
  strInsert (Some tr) k d fresh hp = Some ((0, Some tr), hp).
Proof.
  intros H. unfold strInsert. destruct k; [|reflexivity].
  apply Z.eqb_eq in H. rewrite H. reflexivity.
Qed.

Lemma built_inv hp tr hist :
  built hp tr hist -> exists t, tree_inv hp tr t /\ hist_ok (entries t) hist.
Proof.
  induction 1 as [cap Hcap
                 |hp tr hist k d p r hp' tr' _ IH Hp Hrun Hr
                 |hp tr hist k d p hp' tr' _ IH Hp Hrun
                 |hp tr hist k opts r hp' tr' _ IH Hrun].
  - exists E. split.
    + constructor; simpl; auto; try lia.
      * constructor.
      * unfold sorted_keys. constructor.
    + intros k. reflexivity.
  - destruct IH as (t & Hinv & Hhist).
    destruct (Z.eq_dec (nodesCount tr) (maxNodes tr)) as [Hfull|Hfull].
    { rewrite (strInsert_full hp tr (Some k) d (Some p) Hfull) in Hrun. congruence. }
    destruct (strInsert_run hp tr t k d p Hinv Hp Hfull)
      as (hp2 & tr2 & Hrun2 & Hinv2 & _).
    rewrite Hrun2 in Hrun. injection Hrun as <- <- <-.
    exists (insert_a p k d t). split; [exact Hinv2|].
    destruct (entries_insert_a p k d t (inv_sorted _ _ _ Hinv))
      as (l1 & l2 & He & Hlt & _ & He').
    rewrite He'. apply hist_ok_insert; [exact Hlt|]. rewrite <- He. exact Hhist.
  - destruct IH as (t & Hinv & Hhist).
    destruct (Z.eq_dec (nodesCount tr) (maxNodes tr)) as [Hfull|Hfull].
    { rewrite (strInsert_full hp tr (Some k) d (Some p) Hfull) in Hrun.
      injection Hrun as <- <-. exists t. auto. }
    destruct (strInsert_run hp tr t k d p Hinv Hp Hfull)
      as (hp2 & tr2 & Hrun2 & Hinv2 & _).
    rewrite Hrun2 in Hrun. injection Hrun as Hc _ _.
    pose proof (inv_count _ _ _ Hinv). lia.
  - destruct IH as (t & Hinv & Hhist).
    destruct (Z.lt_ge_cases opts 0) as [Hneg|Hpos].
    { rewrite (strDelete_negative hp (Some tr) (Some k) opts Hneg) in Hrun.
      injection Hrun as <- <- <-. exists t. auto. }
    pose proof (strDelete_run hp tr t k opts Hinv Hpos) as Hdel.
    destruct (delete_a k t) as [[t' pf]|] eqn:Ha.
    + destruct Hdel as (hp2 & tr2 & q & -> & Hrun2 & Hinv2 & _).
      rewrite Hrun2 in Hrun. injection Hrun as <- <- <-.
      exists t'. split; [exact Hinv2|].
      destruct (delete_a_spec k t t' _ (inv_nodup _ _ _ Hinv) Ha)
        as (q' & l1 & d0 & l2 & _ & _ & He & He' & _).
      rewrite He'. eapply hist_ok_remove. rewrite <- He. exact Hhist.
    + rewrite Hdel in Hrun. injection Hrun as <- <- <-. exists t. auto.
Qed.

(** * [strSearch] on a well-formed heap *)


Lemma strSearch_run hp tr t key opts :
  tree_inv hp tr t ->
  strSearch (Some tr) (Some key) opts hp
  = Some (search_result opts (find key t []), hp).
Proof.
  intros [Hrep Hnd Hroot _ _ _ _]. unfold strSearch.
  destruct (opts <=? 0) eqn:Ho.
  { unfold search_result. rewrite Ho. destruct (find key t []) as [[c [|]]|]; reflexivity. }
  eapply bind_run; [apply (searchStrNode_run hp tr t key Hrep Hnd Hroot)|]. cbv beta.
  destruct (find key t []) as [[c tf]|] eqn:Hfind; [|reflexivity].
  pose proof (find_Some _ _ _ _ _ Hfind) as (Hplug & _ & (p & l & d & h & r & ->)).
  simpl in Hplug. rewrite <- Hplug in Hrep.
  apply rep_plug in Hrep as [_ (Hp & _)].
  cbn [found_root root search_result]. rewrite Ho.
  eapply bind_run; [apply deref_run; exact Hp|]. cbv beta. fields.
  destruct (flag opts SEARCH_DATA); [reflexivity|].
  destruct (flag opts SEARCH_NODES); reflexivity.
Qed.

(** * The first match of the descent *)

Lemma find_path key t : forall c c' t',
  find key t c = Some (c', t') ->
  exists ci, c' = ci ++ c /\ Forall (fun f => frame_key f <> key) ci.
Proof.
  induction t as [|p l IHl k' d h r IHr]; intros c c' t'; simpl; [discriminate|].
  destruct (0 <? strcmp k' key) eqn:H1; [|destruct (strcmp k' key <? 0) eqn:H2].
  - intros H. apply IHl in H as (ci & -> & Hci).
    exists (ci ++ [FL p k' d h r]). rewrite <- app_assoc. split; [reflexivity|].
    apply Forall_app. split; [exact Hci|]. repeat constructor. simpl.
    intros ->. rewrite strcmp_refl in H1. discriminate.
  - intros H. apply IHr in H as (ci & -> & Hci).
    exists (ci ++ [FR p l k' d h]). rewrite <- app_assoc. split; [reflexivity|].
    apply Forall_app. split; [exact Hci|]. repeat constructor. simpl.
    intros ->. rewrite strcmp_refl in H2. discriminate.
  - intros [= <- <-]. exists []. split; [reflexivity|constructor].
Qed.

Lemma node_keys_entries t q k :
  In (q, k) (node_keys t) -> In k (map fst (entries t)).
Proof.
  induction t as [|p l IHl k' d h r IHr]; simpl; [tauto|].
  rewrite map_app, !in_app_iff. simpl.
  intros [[= _ ->]|[H|H]]; auto.
Qed.

Lemma node_keys_ptrs t q k : In (q, k) (node_keys t) -> q ∈ ptrs t.
Proof.
  induction t as [|p l IHl k' d h r IHr]; simpl; [tauto|].
  rewrite in_app_iff, elem_of_cons, elem_of_app.
  intros [[= -> _]|[H|H]]; auto.
Qed.

(** In a sorted tree every node with the key is in the subtree of the
    node the descent stops at. *)
Lemma find_contains key t : forall c c' t',
  sorted_keys (entries t) ->
  find key t c = Some (c', t') ->
  forall q, In (q, key) (node_keys t) -> In (q, key) (node_keys t').
Proof.
  induction t as [|p l IHl k' d h r IHr]; intros c c' t' Hs; simpl; [discriminate|].
  simpl in Hs.
  apply sorted_keys_app in Hs as (Hsl & Hsr & Hlr).
  apply sorted_keys_cons in Hsr as (Hsr & Hr).
  destruct (0 <? strcmp k' key) eqn:H1; [|destruct (strcmp k' key <? 0) eqn:H2].
  - intros H q Hq. eapply IHl; [exact Hsl|exact H|].
    rewrite in_app_iff in Hq. destruct Hq as [[= _ ->]|[Hq|Hq]]; [| exact Hq |].
    + rewrite strcmp_refl in H1. discriminate.
    + exfalso. apply node_keys_entries in Hq.
      apply in_map_iff in Hq as (e & He & Hin). specialize (Hr e Hin).
      unfold key_le in Hr. simpl in Hr. rewrite He in Hr. apply Z.ltb_lt in H1. lia.
  - intros H q Hq. eapply IHr; [exact Hsr|exact H|].
    rewrite in_app_iff in Hq. destruct Hq as [[= _ ->]|[Hq|Hq]]; [| | exact Hq].
    + rewrite strcmp_refl in H2. discriminate.
    + exfalso. apply node_keys_entries in Hq.
      apply in_map_iff in Hq as (e & He & Hin).
      specialize (Hlr e (k', d) Hin (or_introl eq_refl)).
      unfold key_le in Hlr. simpl in Hlr. rewrite He in Hlr.
      apply Z.ltb_lt in H2. rewrite strcmp_antisym in H2. lia.
  - intros [= <- <-] q Hq. exact Hq.
Qed.

Lemma depth_in_None q t : q ∉ ptrs t -> depth_in q t = None.
Proof.
  induction t as [|p l IHl k d h r IHr]; simpl; [reflexivity|].
  intros H. apply not_elem_of_cons in H as [H1 H2].
  apply not_elem_of_app in H2 as [H2 H3].
  destruct (decide (q = p)); [contradiction|].
  rewrite IHl, IHr by assumption. reflexivity.
Qed.

Lemma depth_in_Some q t : q ∈ ptrs t -> is_Some (depth_in q t).
Proof.
  induction t as [|p l IHl k d h r IHr]; simpl; [intros H; inversion H|].
  intros H. destruct (decide (q = p)) as [|Hne]; [eauto|].
  apply elem_of_cons in H as [H|H]; [contradiction|].
  apply elem_of_app in H as [H|H].
  - destruct (IHl H) as [m ->]. eauto.
  - destruct (IHr H) as [m ->]. destruct (depth_in q l); eauto.
Qed.

Lemma depth_in_fill q f t :
  NoDup (ptrs (fill f t)) -> q ∈ ptrs t ->
  depth_in q (fill f t) = S <$> depth_in q t.
Proof.
  intros Hnd Hq. destruct (depth_in_Some q t Hq) as [n Hn].
  destruct f as [p k d h r|p l k d h]; simpl in *; nodup_facts.
  - destruct (decide (q = p)) as [->|_]; [contradiction|]. rewrite Hn. reflexivity.
  - destruct (decide (q = p)) as [->|_]; [contradiction|].
    rewrite (depth_in_None q l).
    + rewrite Hn. reflexivity.
    + intros Hl. eapply H1; eassumption.
Qed.

Lemma depth_in_plug q c : forall t,
  NoDup (ptrs (plug c t)) -> q ∈ ptrs t ->
  depth_in q (plug c t) = (fun n => (length c + n)%nat) <$> depth_in q t.
Proof.
  induction c as [|f c IH]; intros t Hnd Hq; simpl.
  - destruct (depth_in q t); reflexivity.
  - rewrite IH; [|exact Hnd|].
    + rewrite depth_in_fill; [|eapply NoDup_plug_inner; exact Hnd|exact Hq].
      destruct (depth_in q t); simpl; [f_equal; lia|reflexivity].
    + rewrite ptrs_fill. apply elem_of_app. right. exact Hq.
Qed.

(** * Programs of calls *)

Lemma run_ops_built ops : forall hp tr hist hp' tr' hist',
  built hp tr hist ->
  run_ops ops (hp, tr, hist) = Some (hp', tr', hist') ->
  built hp' tr' hist'.
Proof.
  induction ops as [|o ops IH]; intros hp tr hist hp' tr' hist' Hb; cbn [run_ops].
  - intros [= <- <- <-]. exact Hb.
  - destruct o as [k d p|k opts]; cbn [step_op].
    + destruct (hp !! p) eqn:Hp; [discriminate|].
      destruct (strInsert (Some tr) (Some k) d (Some p) hp)
        as [[[r [tr1|]] hp1]|] eqn:Hrun; try discriminate.
      apply IH. destruct (r =? 0) eqn:Hr.
      * apply Z.eqb_eq in Hr. subst r. eapply built_insert_full; eassumption.
      * apply Z.eqb_neq in Hr. eapply built_insert; eassumption.
    + destruct (strDelete (Some tr) (Some k) opts hp)
        as [[[r [tr1|]] hp1]|] eqn:Hrun; try discriminate.
      apply IH. eapply built_delete; eassumption.
Qed.

Lemma inserts_from_run items : forall start hp tr t hist,
  tree_inv hp tr t ->
  (forall q, q ∈ dom hp -> (q < start)%positive) ->
  nodesCount tr + Z.of_nat (length items) <= maxNodes tr ->
  exists hp' tr' t',
    run_ops (inserts_from start items) (hp, tr, hist)
    = Some (hp', tr', rev items ++ hist)
    /\ tree_inv hp' tr' t'
    /\ nodesCount tr' = nodesCount tr + Z.of_nat (length items)
    /\ maxNodes tr' = maxNodes tr.
Proof.
  induction items as [|[k d] items IH]; intros start hp tr t hist Hinv Hdom Hcap.
  - exists hp, tr, t. cbn [inserts_from run_ops rev app length].
    split; [reflexivity|]. split; [exact Hinv|]. split; [simpl; lia|reflexivity].
  - assert (Hp : hp !! start = None).
    { apply not_elem_of_dom. intros Hin. specialize (Hdom _ Hin). lia. }
    assert (Hfull : nodesCount tr <> maxNodes tr).
    { simpl length in Hcap. lia. }
    destruct (strInsert_run hp tr t k d start Hinv Hp Hfull)
      as (hp1 & tr1 & Hrun & Hinv1 & Hc1 & Hm1 & Hd1).
    destruct (IH (Pos.succ start) hp1 tr1 _ ((k, d) :: hist) Hinv1)
      as (hp' & tr' & t' & Hrun' & Hinv' & Hc' & Hm').
    { intros q Hq. rewrite Hd1 in Hq. apply elem_of_union in Hq as [Hq|Hq].
      - apply elem_of_singleton in Hq. subst q. lia.
      - specialize (Hdom _ Hq). lia. }
    { rewrite Hc1, Hm1. simpl length in Hcap. lia. }
    exists hp', tr', t'. split; [|split; [exact Hinv'|split]].
    + cbn [inserts_from run_ops step_op]. rewrite Hp, Hrun.
      replace (nodesCount tr + 1 =? 0) with false.
      2:{ symmetry. apply Z.eqb_neq. pose proof (inv_count _ _ _ Hinv). lia. }
      rewrite Hrun'. cbn [rev]. rewrite <- app_assoc. reflexivity.
    + rewrite Hc', Hc1. simpl length. lia.
    + rewrite Hm', Hm1. reflexivity.
Qed.

Lemma tree_inv_empty cap :
  0 <= cap <= ULONG_MAX -> tree_inv ∅ (mkTree None 0 cap) E.
Proof.
  intros H. constructor; simpl; auto; try lia.
  - constructor.
  - unfold sorted_keys. constructor.
Qed.

(** * The claims *)

(** C4 (amended).  In every non-empty tree built from an empty tree by
    calls of [strInsert] in each of which [malloc] returned a fresh node
    and by calls of [strDelete], the depth-first search in symmetric
    order whose result array [calloc] could allocate yields, with the key
    projection, as many keys as the tree counts nodes, in non-decreasing
    order; the datum projection yields the data of the same entries; and
    for each key the entries with that key come in the order of the
    history of the insertions read backwards, the last inserted first. *)
Theorem inorder_traversal_sorted hp tr hist :
  built hp tr hist -> _root tr <> None ->
  exists L,
    strDFS hp (Some tr) DFS_IN_ORDER SEARCH_KEYS true
    = Some (Some (map (fun e => Some (VKey (fst e))) L))
    /\ strDFS hp (Some tr) DFS_IN_ORDER SEARCH_DATA true
       = Some (Some (map (fun e => Some (VData (snd e))) L))
    /\ Z.of_nat (length L) = nodesCount tr
    /\ Sorted key_le (map fst L)
    /\ hist_ok L hist.
Proof.
  intros Hb Hroot. destruct (built_inv hp tr hist Hb) as (t & Hinv & Hhist).
  assert (Hne : t <> E).
  { intros ->. apply Hroot. rewrite (inv_root _ _ _ Hinv). reflexivity. }
  exists (entries t). split; [|split; [|split; [|split]]].
  - rewrite <- inorder_vals_keys.
    apply (strDFS_inorder_run hp tr t SEARCH_KEYS SEARCH_KEYS); auto; reflexivity.
  - rewrite <- inorder_vals_data.
    apply (strDFS_inorder_run hp tr t SEARCH_DATA SEARCH_DATA); auto; reflexivity.
  - rewrite length_entries. symmetry. apply (inv_count _ _ _ Hinv).
  - apply (inv_sorted _ _ _ Hinv).
  - exact Hhist.
Qed.

(** C6.  [_strRightRotation] at a node with a left son (and, mirrored,
    [_strLeftRotation] at a node with a right son) keeps the node object
    at the top with its father link, moves the entry of the son into it
    and its own entry into the son, and turns the tree of entries into
    its classical rotation; outside the rotated subtree no cell changes,
    and the set of allocated nodes is the same. *)
Theorem rotation_is_classical_rotation hp fa t :
  rep hp fa t -> NoDup (ptrs t) ->
  (is_Some (root (left_of t)) ->
   exists hp',
     _strRightRotation (root t) hp = Some (tt, hp')
     /\ rep hp' fa (rightRotation_a t)
     /\ root (rightRotation_a t) = root t
     /\ root (right_of (rightRotation_a t)) = root (left_of t)
     /\ payload (rightRotation_a t) = payload (left_of t)
     /\ payload (right_of (rightRotation_a t)) = payload t
     /\ erase (rightRotation_a t) = classic_rotate_right (erase t)
     /\ same_outside (ptrs t) hp hp')
  /\ (is_Some (root (right_of t)) ->
      exists hp',
        _strLeftRotation (root t) hp = Some (tt, hp')
        /\ rep hp' fa (leftRotation_a t)
        /\ root (leftRotation_a t) = root t
        /\ root (left_of (leftRotation_a t)) = root (right_of t)
        /\ payload (leftRotation_a t) = payload (right_of t)
        /\ payload (left_of (leftRotation_a t)) = payload t
        /\ erase (leftRotation_a t) = classic_rotate_left (erase t)
        /\ same_outside (ptrs t) hp hp').
Proof.
  intros Hrep Hnd. split; intros Hs.
  - destruct (rightRotation_run hp fa t Hs Hrep Hnd) as (hp' & Hrun & Hrep' & Hso).
    exists hp'. split; [exact Hrun|]. split; [exact Hrep'|].
    destruct t as [|n [|l a kl dl hl b] kn dn hn c];
      try (destruct Hs as [? Hs]; discriminate Hs).
    repeat split; try reflexivity; apply Hso.
  - destruct (leftRotation_run hp fa t Hs Hrep Hnd) as (hp' & Hrun & Hrep' & Hso).
    exists hp'. split; [exact Hrun|]. split; [exact Hrep'|].
    destruct t as [|n a kn dn hn [|r b kr dr hr c]];
      try (destruct Hs as [? Hs]; discriminate Hs).
    repeat split; try reflexivity; apply Hso.
Qed.

(** C7 (amended).  On a well-formed tree, [strInsert] returns zero and
    changes nothing when the key is NULL, when the tree is NULL, or when
    the tree is full, whatever [malloc] returns; in every other call in
    which [malloc] returns a fresh node it inserts the entry and returns
    the new count, which is not zero.  So, from an empty tree and with a
    fresh node from [malloc] for each call, after as many insertions as
    the capacity allows the next insertion returns zero and the count
    stays at the capacity. *)
Theorem strInsert_failure_conditions hp tr t :
  tree_inv hp tr t ->
  (forall tree d fresh, strInsert tree None d fresh hp = Some ((0, tree), hp))
  /\ (forall key d fresh, strInsert None key d fresh hp = Some ((0, None), hp))
  /\ (nodesCount tr = maxNodes tr ->
      forall key d fresh,
        strInsert (Some tr) key d fresh hp = Some ((0, Some tr), hp))
  /\ (nodesCount tr <> maxNodes tr ->
      forall key d p, hp !! p = None ->
        exists hp' tr',
          strInsert (Some tr) (Some key) d (Some p) hp
          = Some ((nodesCount tr + 1, Some tr'), hp')
          /\ nodesCount tr + 1 <> 0
          /\ nodesCount tr' = nodesCount tr + 1
          /\ maxNodes tr' = maxNodes tr
          /\ tree_inv hp' tr' (insert_a p key d t)
          /\ In (key, d) (entries (insert_a p key d t)))
  /\ (forall items : list (string * Z),
        Z.of_nat (length items) <= ULONG_MAX ->
        exists hp' tr',
          run_ops (inserts_from 1 items)
            (∅, mkTree None 0 (Z.of_nat (length items)), [])
          = Some (hp', tr', rev items)
          /\ nodesCount tr' = Z.of_nat (length items)
          /\ forall key d fresh,
               strInsert (Some tr') key d fresh hp' = Some ((0, Some tr'), hp')).
Proof.
  intros Hinv. split; [|split; [|split; [|split]]].
  - intros [tree|] d fresh; reflexivity.
  - intros key d fresh. reflexivity.
  - intros Hfull key d fresh. apply strInsert_full. exact Hfull.
  - intros Hfull key d p Hp.
    destruct (strInsert_run hp tr t key d p Hinv Hp Hfull)
      as (hp' & tr' & Hrun & Hinv' & Hc & Hm & _).
    exists hp', tr'. split; [exact Hrun|]. split.
    { pose proof (inv_count _ _ _ Hinv). lia. }
    split; [exact Hc|]. split; [exact Hm|]. split; [exact Hinv'|].
    destruct (entries_insert_a p key d t (inv_sorted _ _ _ Hinv))
      as (l1 & l2 & _ & _ & _ & He).
    rewrite He. apply in_app_iff. right. left. reflexivity.
  - intros items Hlen.
    destruct (inserts_from_run items 1%positive ∅
                (mkTree None 0 (Z.of_nat (length items))) E [])
      as (hp' & tr' & t' & Hrun & Hinv' & Hc & Hm).
    + apply tree_inv_empty. lia.
    + intros q Hq. rewrite dom_empty_L in Hq. apply not_elem_of_empty in Hq. destruct Hq.
    + simpl. lia.
    + exists hp', tr'. rewrite app_nil_r in Hrun. split; [exact Hrun|].
      simpl in Hc, Hm. split; [exact Hc|].
      intros key d fresh. apply strInsert_full. lia.
Qed.

(** C9.  Deleting a key that no node of the tree holds, the empty tree
    included, returns zero and leaves the heap and the tree as they were:
    the count, the nodes and their links, hence every traversal. *)
Theorem strDelete_absent_key hp tr t key opts :
  tree_inv hp tr t -> ~ In key (map fst (entries t)) ->
  strDelete (Some tr) (Some key) opts hp = Some ((0, Some tr), hp).
Proof.
  intros Hinv Hk. destruct (Z.lt_ge_cases opts 0) as [Hneg|Hpos].
  - apply strDelete_negative. exact Hneg.
  - pose proof (strDelete_run hp tr t key opts Hinv Hpos) as H.
    unfold delete_a in H. rewrite (find_None key t [] Hk) in H. exact H.
Qed.


(** The node where the descent for a key of the tree stops: the path to it
    holds no node with the key, every other node with the key lies deeper,
    and its cell in the heap holds the key. *)
Lemma find_first_node hp tr t key :
  tree_inv hp tr t -> In key (map fst (entries t)) ->
  exists c p l d h r,
    find key t [] = Some (c, T p l key d h r)
    /\ t = plug c (T p l key d h r)
    /\ Forall (fun f => frame_key f <> key) c
    /\ depth_in p t = Some (length c)
    /\ (forall q, In (q, key) (node_keys t) -> q <> p ->
          exists n, depth_in q t = Some n /\ (length c < n)%nat)
    /\ hp !! p = Some (mkNode (ctx_father c) (root l) (root r) h key d).
Proof.
  intros Hinv Hk.
  destruct (find_In key t [] (inv_sorted _ _ _ Hinv) Hk) as (c & tf & Hfind).
  pose proof (find_Some _ _ _ _ _ Hfind) as (Hplug & _ & (p & l & d & h & r & ->)).
  pose proof (find_path _ _ _ _ _ Hfind) as (ci & Hci & Hanc).
  rewrite app_nil_r in Hci. subst ci. simpl in Hplug.
  pose proof (inv_nodup _ _ _ Hinv) as Hnd. rewrite <- Hplug in Hnd.
  pose proof (inv_rep _ _ _ Hinv) as Hrep. rewrite <- Hplug in Hrep.
  apply rep_plug in Hrep as [_ (Hp & _)].
  exists c, p, l, d, h, r. split; [exact Hfind|]. split; [symmetry; exact Hplug|].
  split; [exact Hanc|]. rewrite <- Hplug. split; [|split; [|exact Hp]].
  - rewrite depth_in_plug; [|exact Hnd|left]. simpl.
    destruct (decide (p = p)); [|congruence]. simpl. f_equal. lia.
  - intros q Hq Hne. rewrite Hplug in Hq.
    pose proof (find_contains key t [] c _ (inv_sorted _ _ _ Hinv) Hfind q Hq) as Hsub.
    apply node_keys_ptrs in Hsub.
    rewrite depth_in_plug; [|exact Hnd|exact Hsub].
    destruct (depth_in_Some q _ Hsub) as [n Hn]. rewrite Hn. simpl.
    exists (length c + n)%nat. split; [reflexivity|].
    destruct n; [|lia]. exfalso. simpl in Hn.
    destruct (decide (q = p)); [contradiction|].
    destruct (depth_in q l); [discriminate|]. destruct (depth_in q r); discriminate.
Qed.

(** C2 (amended).  On a well-formed tree and for a key that is not NULL:
    when nodes of the tree hold the searched key, [strSearch] with the
    node projection returns the node where the descent from the root
    first meets the key (no ancestor of that node holds the key, every
    other node that holds it lies deeper, and the cell of that node holds
    the key), with the datum projection it returns the datum of that
    node, and with the key projection it returns NULL; it returns NULL
    when no node holds the key, when the options are not positive, and
    when they select neither the datum nor the node.  The heap is never
    changed. *)
Theorem strSearch_projections hp tr t key :
  tree_inv hp tr t ->
  (In key (map fst (entries t)) ->
   exists c p l d h r,
     t = plug c (T p l key d h r)
     /\ Forall (fun f => frame_key f <> key) c
     /\ depth_in p t = Some (length c)
     /\ (forall q, In (q, key) (node_keys t) -> q <> p ->
           exists n, depth_in q t = Some n /\ (length c < n)%nat)
     /\ hp !! p = Some (mkNode (ctx_father c) (root l) (root r) h key d)
     /\ strSearch (Some tr) (Some key) SEARCH_NODES hp = Some (Some (VNode p), hp)
     /\ strSearch (Some tr) (Some key) SEARCH_DATA hp = Some (Some (VData d), hp)
     /\ strSearch (Some tr) (Some key) SEARCH_KEYS hp = Some (None, hp))
  /\ (~ In key (map fst (entries t)) ->
      forall opts, strSearch (Some tr) (Some key) opts hp = Some (None, hp))
  /\ (forall opts,
        opts <= 0 \/ (flag opts SEARCH_DATA = false /\ flag opts SEARCH_NODES = false) ->
        strSearch (Some tr) (Some key) opts hp = Some (None, hp)).
Proof.
  intros Hinv. split; [|split].
  - intros Hk.
    destruct (find_first_node hp tr t key Hinv Hk)
      as (c & p & l & d & h & r & Hfind & Hplug & Hanc & Hdepth & Hdeeper & Hp).
    exists c, p, l, d, h, r.
    split; [exact Hplug|]. split; [exact Hanc|]. split; [exact Hdepth|].
    split; [exact Hdeeper|]. split; [exact Hp|].
    rewrite !(strSearch_run hp tr t key _ Hinv), Hfind. repeat split; reflexivity.
  - intros Hk opts. rewrite (strSearch_run hp tr t key _ Hinv), (find_None key t [] Hk).
    reflexivity.
  - intros opts Ho. rewrite (strSearch_run hp tr t key _ Hinv).
    unfold search_result. destruct (find key t []) as [[c [|p l k d h r]]|]; try reflexivity.
    destruct Ho as [Ho|[H1 H2]].
    + apply Z.leb_le in Ho. rewrite Ho. reflexivity.
    + rewrite H1, H2. destruct (opts <=? 0); reflexivity.
Qed.

(** * Option flags *)

Lemma projection_of_flag p : projection_of (projection_flag p) = Some p.
Proof. destruct p; reflexivity. Qed.

Lemma order_of_flag o : order_of (order_flag o) = Some o.
Proof. destruct o; reflexivity. Qed.

Lemma direction_of_flag d : direction_of (direction_flag d) = Some d.
Proof. destruct d; reflexivity. Qed.

Lemma search_projection_of_flag p :
  p <> PKeys -> search_projection_of (projection_flag p) = Some p.
Proof. destruct p; try reflexivity. congruence. Qed.

Lemma cascade_projection {A} opts (a b c d : A) :
  (if flag opts SEARCH_DATA then a
   else if flag opts SEARCH_KEYS then b
   else if flag opts SEARCH_NODES then c else d)
  = match projection_of opts with
    | Some PData => a
    | Some PKeys => b
    | Some PNodes => c
    | None => d
    end.
Proof.
  unfold projection_of.
  destruct (flag opts SEARCH_DATA), (flag opts SEARCH_KEYS), (flag opts SEARCH_NODES);
    reflexivity.
Qed.

Lemma cascade_order {A} type (a b c d : A) :
  (if flag type DFS_PRE_ORDER then a
   else if flag type DFS_IN_ORDER then b
   else if flag type DFS_POST_ORDER then c else d)
  = match order_of type with
    | Some PreOrder => a
    | Some InOrder => b
    | Some PostOrder => c
    | None => d
    end.
Proof.
  unfold order_of.
  destruct (flag type DFS_PRE_ORDER), (flag type DFS_IN_ORDER), (flag type DFS_POST_ORDER);
    reflexivity.
Qed.

Lemma cascade_direction {A} type (a b c : A) :
  (if flag type BFS_LEFT_FIRST then a
   else if flag type BFS_RIGHT_FIRST then b else c)
  = match direction_of type with
    | Some LeftFirst => a
    | Some RightFirst => b
    | None => c
    end.
Proof.
  unfold direction_of.
  destruct (flag type BFS_LEFT_FIRST), (flag type BFS_RIGHT_FIRST); reflexivity.
Qed.

Lemma strDFS_cascade hp tree type opts ok :
  strDFS hp tree type opts ok =
  if (type <=? 0) || (opts <=? 0) then Some None
  else
    match tree with
    | None => Some None
    | Some tr =>
        match _root tr with
        | None => Some None
        | Some _ =>
            match projection_of opts with
            | None => Some None
            | Some pj =>
                if negb ok then Some None
                else
                  let dfsRes := replicate (Z.to_nat (nodesCount tr)) None in
                  let fuel := S (size hp) in
                  match order_of type with
                  | Some PreOrder =>
                      r ← _strPreODFS fuel hp (_root tr) (projection_flag pj) dfsRes 0;
                      Some (Some r.1)
                  | Some InOrder =>
                      r ← _strInODFS fuel hp (_root tr) (projection_flag pj) dfsRes 0;
                      Some (Some r.1)
                  | Some PostOrder =>
                      r ← _strPostODFS fuel hp (_root tr) (projection_flag pj) dfsRes 0;
                      Some (Some r.1)
                  | None => Some None
                  end
            end
        end
    end.
Proof.
  unfold strDFS. destruct ((type <=? 0) || (opts <=? 0)); [reflexivity|].
  destruct tree as [tr|]; [|reflexivity]. destruct (_root tr); [|reflexivity].
  rewrite (cascade_projection opts (Some SEARCH_DATA) (Some SEARCH_KEYS) (Some SEARCH_NODES) None).
  destruct (projection_of opts) as [[| |]|]; try reflexivity;
    (destruct (negb ok); [reflexivity|]); cbv zeta; cbn [projection_flag];
    rewrite cascade_order; reflexivity.
Qed.

Lemma strBFS_loop_cascade hp type type' opts opts' :
  projection_of opts = projection_of opts' ->
  direction_of type = direction_of type' ->
  forall n buf i j,
    strBFS_loop n hp type opts buf i j = strBFS_loop n hp type' opts' buf i j.
Proof.
  intros Hp Hd. induction n as [|n IH]; intros buf i j; [reflexivity|].
  cbn [strBFS_loop].
  destruct (buf !! Z.to_nat i) as [cell|]; [|reflexivity]. cbn [mbind option_bind].
  destruct (match cell with Some (VNode p) => Some p | _ => None end) as [p|];
    [|reflexivity].
  cbn [mbind option_bind].
  destruct (hp !! p) as [curr|]; [|reflexivity]. cbn [mbind option_bind].
  rewrite !cascade_projection, Hp.
  match goal with
  | |- mbind _ ?m = _ => destruct m as [res1|]; [|reflexivity]
  end.
  cbn [mbind option_bind].
  rewrite !cascade_direction, Hd.
  match goal with
  | |- mbind _ ?m = _ => destruct m as [[res2 j2]|]; [|reflexivity]
  end.
  cbn [mbind option_bind]. apply IH.
Qed.

Lemma strBFS_cascade hp tree type opts ok :
  strBFS hp tree type opts ok =
  match tree with
  | None => Some None
  | Some tr =>
      match _root tr with
      | None => Some None
      | Some r =>
          if (type <=? 0) || (opts <=? 0) then Some None
          else
            match direction_of type, projection_of opts with
            | Some dr, Some pj =>
                if negb ok then Some None
                else
                  let bfsRes := replicate (Z.to_nat (nodesCount tr)) None in
                  res ← buf_write bfsRes 0 (Some (VNode r));
                  res' ← strBFS_loop (Z.to_nat (nodesCount tr)) hp
                           (direction_flag dr) (projection_flag pj) res 0 1;
                  Some (Some res')
            | _, _ => Some None
            end
      end
  end.
Proof.
  unfold strBFS. destruct tree as [tr|]; [|reflexivity].
  destruct (_root tr) as [r|]; [|reflexivity].
  destruct ((type <=? 0) || (opts <=? 0)); [reflexivity|]. cbn [orb].
  assert (Hd : negb (flag type BFS_LEFT_FIRST || flag type BFS_RIGHT_FIRST)
               = match direction_of type with Some _ => false | None => true end).
  { unfold direction_of. destruct (flag type BFS_LEFT_FIRST), (flag type BFS_RIGHT_FIRST);
      reflexivity. }
  assert (Hp : negb (flag opts SEARCH_KEYS || flag opts SEARCH_DATA || flag opts SEARCH_NODES)
               = match projection_of opts with Some _ => false | None => true end).
  { unfold projection_of.
    destruct (flag opts SEARCH_DATA), (flag opts SEARCH_KEYS), (flag opts SEARCH_NODES);
      reflexivity. }
  rewrite Hd, Hp.
  destruct (direction_of type) as [dr|] eqn:Edr; [|reflexivity].
  destruct (projection_of opts) as [pj|] eqn:Epj; [|reflexivity].
  cbn [orb]. destruct (negb ok); [reflexivity|]. cbv zeta.
  destruct (buf_write _ 0 _) as [res|]; [|reflexivity]. cbn [mbind option_bind].
  rewrite (strBFS_loop_cascade hp type (direction_flag dr) opts (projection_flag pj)).
  - reflexivity.
  - rewrite projection_of_flag. exact Epj.
  - rewrite direction_of_flag. exact Edr.
Qed.

Lemma flag_pos_flag p : 0 < projection_flag p.
Proof. destruct p; reflexivity. Qed.

Lemma order_flag_pos o : 0 < order_flag o.
Proof. destruct o; reflexivity. Qed.

Lemma direction_flag_pos d : 0 < direction_flag d.
Proof. destruct d; reflexivity. Qed.

Lemma strSearch_cascade tree key opts hp :
  0 < opts ->
  strSearch tree key opts hp =
  match tree with
  | Some tr =>
      (searchedNode <- _searchStrNode tr key ;;
       match searchedNode with
       | Some p =>
           n <- deref searchedNode ;;
           match search_projection_of opts with
           | Some PData => ret (Some (VData (_data n)))
           | Some PNodes => ret (Some (VNode p))
           | _ => ret None
           end
       | None => ret None
       end) hp
  | None => Some (None, hp)
  end.
Proof.
  intros Ho. unfold strSearch. destruct tree as [tr|]; [|reflexivity].
  apply Z.leb_gt in Ho. rewrite Ho. unfold bind.
  destruct (_searchStrNode tr key hp) as [[[p|] hp1]|]; try reflexivity.
  destruct (deref (Some p) hp1) as [[n hp2]|]; [|reflexivity].
  unfold search_projection_of.
  destruct (flag opts SEARCH_DATA), (flag opts SEARCH_NODES); reflexivity.
Qed.

(** * The claims on the option flags *)

(** C8 (amended).  A call of a traversal that selects no projection, no
    order or no direction, and a search on a well-formed tree for a key
    that is not NULL that selects neither the datum nor the node, is
    rejected with NULL and changes nothing; so is every call whose type
    or whose options are not positive (zero, or the sign bit set),
    whatever flags they hold.  A call whose type and options are positive
    and that selects several flags of one axis is not rejected: it runs
    as if only the flag tested first had been given (datum before key
    before node for the traversals, datum before node for the search;
    pre-order before in-order before post-order; left-first before
    right-first). *)
Theorem flags_first_match hp tr t :
  tree_inv hp tr t ->
  (forall tree type opts ok,
     projection_of opts = None \/ order_of type = None ->
     strDFS hp tree type opts ok = Some None)
  /\ (forall tree type opts ok,
        projection_of opts = None \/ direction_of type = None ->
        strBFS hp tree type opts ok = Some None)
  /\ (forall key opts,
        search_projection_of opts = None ->
        strSearch (Some tr) (Some key) opts hp = Some (None, hp))
  /\ (forall tree type opts ok pj od,
        0 < type -> 0 < opts ->
        projection_of opts = Some pj -> order_of type = Some od ->
        strDFS hp tree type opts ok
        = strDFS hp tree (order_flag od) (projection_flag pj) ok)
  /\ (forall tree type opts ok pj dr,
        0 < type -> 0 < opts ->
        projection_of opts = Some pj -> direction_of type = Some dr ->
        strBFS hp tree type opts ok
        = strBFS hp tree (direction_flag dr) (projection_flag pj) ok)
  /\ (forall tree key opts pj,
        0 < opts -> search_projection_of opts = Some pj ->
        strSearch tree key opts hp = strSearch tree key (projection_flag pj) hp)
  /\ (forall tree type opts ok,
        type <= 0 \/ opts <= 0 ->
        strDFS hp tree type opts ok = Some None
        /\ strBFS hp tree type opts ok = Some None)
  /\ (forall tree key opts,
        opts <= 0 -> strSearch tree key opts hp = Some (None, hp)).
Proof.
  intros Hinv. split; [|split; [|split; [|split; [|split; [|split; [|split]]]]]].
  - intros tree type opts ok H. rewrite strDFS_cascade.
    destruct ((type <=? 0) || (opts <=? 0)); [reflexivity|].
    destruct tree as [tr0|]; [|reflexivity]. destruct (_root tr0); [|reflexivity].
    destruct H as [-> | ->]; [reflexivity|].
    destruct (projection_of opts); [|reflexivity]. destruct (negb ok); reflexivity.
  - intros tree type opts ok H. rewrite strBFS_cascade.
    destruct tree as [tr0|]; [|reflexivity]. destruct (_root tr0); [|reflexivity].
    destruct ((type <=? 0) || (opts <=? 0)); [reflexivity|].
    destruct H as [-> | ->]; [destruct (direction_of type); reflexivity|reflexivity].
  - intros key opts H.
    rewrite (strSearch_run hp tr t key opts Hinv). f_equal.
    unfold search_result, search_projection_of in *.
    destruct (find key t []) as [[c [|p l k d h r]]|]; try reflexivity.
    destruct (opts <=? 0); [reflexivity|].
    destruct (flag opts SEARCH_DATA); [discriminate|].
    destruct (flag opts SEARCH_NODES); [discriminate|]. reflexivity.
  - intros tree type opts ok pj od Ht Ho Hp Hod. rewrite !strDFS_cascade.
    rewrite projection_of_flag, order_of_flag, Hp, Hod.
    pose proof (flag_pos_flag pj). pose proof (order_flag_pos od).
    replace ((type <=? 0) || (opts <=? 0)) with false
      by (symmetry; apply orb_false_iff; split; apply Z.leb_gt; assumption).
    replace ((order_flag od <=? 0) || (projection_flag pj <=? 0)) with false
      by (symmetry; apply orb_false_iff; split; apply Z.leb_gt; assumption).
    reflexivity.
  - intros tree type opts ok pj dr Ht Ho Hp Hdr. rewrite !strBFS_cascade.
    rewrite projection_of_flag, direction_of_flag, Hp, Hdr.
    pose proof (flag_pos_flag pj). pose proof (direction_flag_pos dr).
    replace ((type <=? 0) || (opts <=? 0)) with false
      by (symmetry; apply orb_false_iff; split; apply Z.leb_gt; assumption).
    replace ((direction_flag dr <=? 0) || (projection_flag pj <=? 0)) with false
      by (symmetry; apply orb_false_iff; split; apply Z.leb_gt; assumption).
    reflexivity.
  - intros tree key opts pj Ho Hp.
    rewrite (strSearch_cascade tree key opts hp Ho).
    rewrite (strSearch_cascade tree key (projection_flag pj) hp (flag_pos_flag pj)).
    rewrite Hp. rewrite search_projection_of_flag; [reflexivity|].
    intros ->. unfold search_projection_of in Hp.
    destruct (flag opts SEARCH_DATA), (flag opts SEARCH_NODES); discriminate.
  - intros tree type opts ok H.
    assert (Hb : (type <=? 0) || (opts <=? 0) = true).
    { apply orb_true_iff. destruct H as [H|H]; [left|right]; apply Z.leb_le; exact H. }
    rewrite strDFS_cascade, strBFS_cascade, Hb. split; [reflexivity|].
    destruct tree as [tr0|]; [|reflexivity]. destruct (_root tr0); reflexivity.
  - intros tree key opts Ho. unfold strSearch.
    destruct tree as [tr0|]; [|reflexivity].
    apply Z.leb_le in Ho. rewrite Ho. reflexivity.
Qed.

(** * Examples *)

Ltac concrete_inv :=
  constructor;
  [ simpl; repeat split; reflexivity
  | apply (bool_decide_unpack _); vm_compute; exact I
  | reflexivity
  | reflexivity
  | vm_compute; split; intros Hgt; discriminate Hgt
  | vm_compute; repeat split; intros Hgt; discriminate Hgt
  | unfold sorted_keys; simpl; repeat constructor; unfold key_le; vm_compute; discriminate ].

Lemma tree_inv_a : tree_inv heap_a tree_a shape_a.
Proof. concrete_inv. Qed.

Lemma tree_inv_dup : tree_inv heap_dup tree_dup shape_dup.
Proof. concrete_inv. Qed.

Lemma tree_inv_before_cut : tree_inv heap_before_cut tree_before_cut shape_before_cut.
Proof. concrete_inv. Qed.

Lemma tree_inv_after_cut : tree_inv heap_after_cut tree_after_cut shape_after_cut.
Proof. concrete_inv. Qed.

Lemma tree_inv_two : tree_inv heap_two tree_two shape_two.
Proof. concrete_inv. Qed.

Lemma tree_inv_stale : tree_inv heap_stale tree_stale shape_stale.
Proof. concrete_inv. Qed.

Lemma built_empty : built ∅ createStrTree [].
Proof. apply built_create. unfold ULONG_MAX. lia. Qed.

Lemma run_dup_ops :
  run_ops dup_ops (∅, createStrTree, []) = Some (heap_dup, tree_dup, dup_hist).
Proof. vm_compute. reflexivity. Qed.

Lemma built_dup : built heap_dup tree_dup dup_hist.
Proof. exact (run_ops_built _ _ _ _ _ _ _ built_empty run_dup_ops). Qed.

Lemma run_unbalancing_inserts :
  run_ops unbalancing_inserts (∅, createStrTree, [])
  = Some (heap_before_cut, tree_before_cut, unbalancing_hist).
Proof. vm_compute. reflexivity. Qed.

Lemma run_stale_inserts :
  run_ops stale_inserts (∅, createStrTree, []) = Some (heap_two, tree_two, stale_hist).
Proof. vm_compute. reflexivity. Qed.

Lemma strInsert_null_node_empty hp tr k d :
  _root tr = None -> nodesCount tr <> maxNodes tr ->
  strInsert (Some tr) (Some k) d None hp
  = Some ((ulong_incr (nodesCount tr),
           Some (mkTree None (ulong_incr (nodesCount tr)) (maxNodes tr))), hp).
Proof.
  intros Hroot Hfull. unfold strInsert.
  apply Z.eqb_neq in Hfull. rewrite Hfull, Hroot. reflexivity.
Qed.

Lemma strInsert_null_node_fault hp tr k d :
  _root tr <> None -> nodesCount tr <> maxNodes tr ->
  strInsert (Some tr) (Some k) d None hp = None.
Proof.
  intros Hroot Hfull. unfold strInsert.
  apply Z.eqb_neq in Hfull. rewrite Hfull.
  destruct (_root tr) as [r|]; [|congruence].
  cbn [_createStrNode]. unfold bind at 1. unfold ret at 1.
  unfold bind at 1.
  destruct (with_fuel _ hp) as [[pred hp1]|]; [|reflexivity].
  unfold bind at 1.
  destruct (deref pred hp1) as [[p hp2]|]; [|reflexivity].
  unfold bind at 1.
  destruct ((if 0 <=? strcmp (_key p) k
             then _strInsertAsLeftSubtree pred None
             else _strInsertAsRightSubtree pred None) hp2) as [[[] hp3]|]; reflexivity.
Qed.

(** * Defects of the code *)

(** C1 (defect).  Seven insertions build a balanced tree; the deletion
    of "b", a node with the single son "a", returns 1 and leaves a tree
    whose root has a left subtree of height 0 and a right subtree of
    height 2: the balance invariant does not hold after a deletion that
    completed. *)
Theorem delete_breaks_balance :
  run_ops unbalancing_inserts (∅, createStrTree, [])
  = Some (heap_before_cut, tree_before_cut, unbalancing_hist)
  /\ tree_inv heap_before_cut tree_before_cut shape_before_cut
  /\ balanced shape_before_cut = true
  /\ strDelete (Some tree_before_cut) (Some "b") 0 heap_before_cut
     = Some ((1, Some tree_after_cut), heap_after_cut)
  /\ built heap_after_cut tree_after_cut unbalancing_hist
  /\ tree_inv heap_after_cut tree_after_cut shape_after_cut
  /\ real_height (left_of shape_after_cut) = 0
  /\ real_height (right_of shape_after_cut) = 2
  /\ balanced shape_after_cut = false.
Proof.
  assert (Hdel : strDelete (Some tree_before_cut) (Some "b") 0 heap_before_cut
                 = Some ((1, Some tree_after_cut), heap_after_cut))
    by (vm_compute; reflexivity).
  split; [exact run_unbalancing_inserts|].
  split; [exact tree_inv_before_cut|].
  split; [reflexivity|].
  split; [exact Hdel|].
  split.
  { eapply built_delete; [|exact Hdel].
    exact (run_ops_built _ _ _ _ _ _ _ built_empty run_unbalancing_inserts). }
  split; [exact tree_inv_after_cut|].
  repeat split; reflexivity.
Qed.

(** C3 (defect).  Two insertions build the root "b" with the single son
    "a"; the deletion of "b" returns 1, frees the son (node 2, whose
    father was node 1) and leaves node 1 without sons but with the cached
    height 1 it had before: the walk that updates the heights did not
    visit the father of the node that was detached.  The tree that the
    deletion of C1 leaves has a stale height too. *)
Theorem delete_leaves_stale_height :
  run_ops stale_inserts (∅, createStrTree, []) = Some (heap_two, tree_two, stale_hist)
  /\ tree_inv heap_two tree_two shape_two
  /\ heights_consistent shape_two = true
  /\ strDelete (Some tree_two) (Some "b") 0 heap_two
     = Some ((1, Some tree_stale), heap_stale)
  /\ built heap_stale tree_stale stale_hist
  /\ tree_inv heap_stale tree_stale shape_stale
  /\ _father <$> heap_two !! 2%positive = Some (Some 1%positive)
  /\ heap_stale !! 2%positive = None
  /\ heap_stale !! 1%positive = Some (mkNode None None None 1 "a" 0)
  /\ heights_consistent shape_stale = false
  /\ heights_consistent shape_before_cut = true
  /\ heights_consistent shape_after_cut = false.
Proof.
  assert (Hdel : strDelete (Some tree_two) (Some "b") 0 heap_two
                 = Some ((1, Some tree_stale), heap_stale))
    by (vm_compute; reflexivity).
  split; [exact run_stale_inserts|].
  split; [exact tree_inv_two|].
  split; [reflexivity|].
  split; [exact Hdel|].
  split.
  { eapply built_delete; [|exact Hdel].
    exact (run_ops_built _ _ _ _ _ _ _ built_empty run_stale_inserts). }
  split; [exact tree_inv_stale|].
  repeat split; reflexivity.
Qed.

(** C5 (defect).  When [malloc] fails in [_createStrNode], [strInsert]
    on a tree that is not full never returns zero with the tree as it
    was: on an empty tree it counts one node more and returns the new
    count, with the root still NULL; on a tree with a node it reaches
    [_strBalanceInsert] with the NULL pointer, which is dereferenced, so
    the call has no result. *)
Theorem strInsert_failed_allocation hp tr k d :
  nodesCount tr <> maxNodes tr ->
  (_root tr = None ->
   strInsert (Some tr) (Some k) d None hp
   = Some ((ulong_incr (nodesCount tr),
            Some (mkTree None (ulong_incr (nodesCount tr)) (maxNodes tr))), hp))
  /\ (_root tr <> None -> strInsert (Some tr) (Some k) d None hp = None)
  /\ _strBalanceInsert None hp = None.
Proof.
  intros Hfull. split; [|split].
  - intros Hroot. apply strInsert_null_node_empty; assumption.
  - intros Hroot. apply strInsert_null_node_fault; assumption.
  - reflexivity.
Qed.

(** * Where the stated properties fail *)

(** Against C2 as stated: the key is in the tree, and the search with the
    key projection returns NULL, not the key. *)
Lemma strSearch_key_projection_null :
  tree_inv heap_a tree_a shape_a
  /\ In "a" (map fst (entries shape_a))
  /\ strSearch (Some tree_a) (Some "a") SEARCH_KEYS heap_a = Some (None, heap_a)
  /\ ~ (forall hp tr t key,
          tree_inv hp tr t -> In key (map fst (entries t)) ->
          strSearch (Some tr) (Some key) SEARCH_KEYS hp = Some (Some (VKey key), hp)).
Proof.
  split; [exact tree_inv_a|]. split; [left; reflexivity|]. split; [reflexivity|].
  intros H. specialize (H heap_a tree_a shape_a "a"%string tree_inv_a (or_introl eq_refl)).
  vm_compute in H. discriminate H.
Qed.

(** Against C8 as stated: with two projections, two orders or two
    directions at once the calls are not rejected; they return the result
    of the flag that the code tests first. *)
Lemma several_flags_not_rejected :
  strDFS heap_a (Some tree_a) (Z.lor DFS_PRE_ORDER DFS_IN_ORDER)
    (Z.lor SEARCH_DATA SEARCH_KEYS) true = Some (Some [Some (VData 7)])
  /\ strBFS heap_a (Some tree_a) (Z.lor BFS_LEFT_FIRST BFS_RIGHT_FIRST)
       (Z.lor SEARCH_DATA SEARCH_KEYS) true = Some (Some [Some (VData 7)])
  /\ strSearch (Some tree_a) (Some "a") (Z.lor SEARCH_DATA SEARCH_NODES) heap_a
     = Some (Some (VData 7), heap_a)
  /\ ~ (forall hp tree type opts ok,
          flag opts SEARCH_DATA = true -> flag opts SEARCH_KEYS = true ->
          strDFS hp tree type opts ok = Some None).
Proof.
  split; [vm_compute; reflexivity|]. split; [vm_compute; reflexivity|].
  split; [vm_compute; reflexivity|].
  intros H.
  specialize (H heap_a (Some tree_a) DFS_IN_ORDER (Z.lor SEARCH_DATA SEARCH_KEYS) true
                eq_refl eq_refl).
  vm_compute in H. discriminate H.
Qed.

(** Against C4 as stated: an insertion into the empty tree in which
    [malloc] returns NULL returns 1 and counts a node that does not
    exist; the next insertion returns 2 and links the single node "a";
    on this tree, which is not empty and counts two nodes, the search in
    symmetric order with the key projection returns the array with the
    key "a" and a cell that was never written, not two keys.  And on a
    tree built by three insertions the search returns NULL when [calloc]
    cannot allocate the array. *)
Lemma inorder_after_failed_allocation :
  strInsert (Some createStrTree) (Some "a") 0 None ∅ = Some ((1, Some tree_counted), ∅)
  /\ strInsert (Some tree_counted) (Some "a") 0 (Some 1%positive) ∅
     = Some ((2, Some tree_short), heap_short)
  /\ _root tree_short <> None
  /\ nodesCount tree_short = 2
  /\ strDFS heap_short (Some tree_short) DFS_IN_ORDER SEARCH_KEYS true
     = Some (Some [Some (VKey "a"); None])
  /\ ~ (exists L : list string,
          strDFS heap_short (Some tree_short) DFS_IN_ORDER SEARCH_KEYS true
          = Some (Some (map (fun k => Some (VKey k)) L)))
  /\ built heap_dup tree_dup dup_hist
  /\ strDFS heap_dup (Some tree_dup) DFS_IN_ORDER SEARCH_KEYS false = Some None.
Proof.
  split; [vm_compute; reflexivity|]. split; [vm_compute; reflexivity|].
  split; [discriminate|]. split; [reflexivity|].
  assert (Hrun : strDFS heap_short (Some tree_short) DFS_IN_ORDER SEARCH_KEYS true
                 = Some (Some [Some (VKey "a"); None])) by (vm_compute; reflexivity).
  split; [exact Hrun|]. split.
  - intros [L HL]. rewrite Hrun in HL.
    destruct L as [|k1 [|k2 L]]; discriminate HL.
  - split; [exact built_dup|vm_compute; reflexivity].
Qed.

(** Against C7 as stated: the key and the tree are given and the tree is
    not full, and yet the insertion does not succeed when [malloc]
    returns NULL: on a tree with a node the call has no result (the NULL
    pointer is dereferenced), and on the empty tree it returns 1 but
    inserts nothing, the key is not found afterwards. *)
Lemma strInsert_without_node :
  tree_inv heap_a tree_a shape_a
  /\ nodesCount tree_a <> maxNodes tree_a
  /\ strInsert (Some tree_a) (Some "b") 0 None heap_a = None
  /\ strInsert (Some createStrTree) (Some "a") 0 None ∅ = Some ((1, Some tree_counted), ∅)
  /\ strSearch (Some tree_counted) (Some "a") SEARCH_DATA ∅ = Some (None, ∅)
  /\ ~ (forall hp tr t key d fresh,
          tree_inv hp tr t -> nodesCount tr <> maxNodes tr ->
          exists hp' tr',
            strInsert (Some tr) (Some key) d fresh hp
            = Some ((nodesCount tr + 1, Some tr'), hp')).
Proof.
  assert (Hfull : nodesCount tree_a <> maxNodes tree_a) by (vm_compute; discriminate).
  assert (Hrun : strInsert (Some tree_a) (Some "b") 0 None heap_a = None)
    by (apply strInsert_null_node_fault; [simpl; discriminate|exact Hfull]).
  split; [exact tree_inv_a|]. split; [exact Hfull|]. split; [exact Hrun|].
  split; [vm_compute; reflexivity|]. split; [vm_compute; reflexivity|].
  intros H.
  destruct (H heap_a tree_a shape_a "b"%string 0 None tree_inv_a Hfull) as (hp' & tr' & H').
  rewrite Hrun in H'. discriminate H'.
Qed.

(** * Instances of the theorems *)

Lemma strInsert_failed_allocation_a :
  strInsert (Some createStrTree) (Some "a") 0 None ∅
  = Some ((1, Some (mkTree None 1 ULONG_MAX)), ∅)
  /\ strInsert (Some tree_a) (Some "b") 0 None heap_a = None.
Proof.
  split.
  - apply (strInsert_failed_allocation ∅ createStrTree "a" 0);
      [vm_compute; discriminate|reflexivity].
  - apply (strInsert_failed_allocation heap_a tree_a "b" 0);
      [vm_compute; discriminate|simpl; discriminate].
Defined.

Lemma inorder_traversal_sorted_dup :
  built heap_dup tree_dup dup_hist
  /\ exists L,
       strDFS heap_dup (Some tree_dup) DFS_IN_ORDER SEARCH_KEYS true
       = Some (Some (map (fun e => Some (VKey (fst e))) L))
       /\ strDFS heap_dup (Some tree_dup) DFS_IN_ORDER SEARCH_DATA true
          = Some (Some (map (fun e => Some (VData (snd e))) L))
       /\ Z.of_nat (length L) = nodesCount tree_dup
       /\ Sorted key_le (map fst L)
       /\ hist_ok L dup_hist.
Proof.
  split; [exact built_dup|].
  apply (inorder_traversal_sorted heap_dup tree_dup dup_hist built_dup).
  simpl. discriminate.
Defined.

Lemma rotation_is_classical_rotation_rot :
  exists hp',
    _strRightRotation (Some 1%positive) heap_rot = Some (tt, hp')
    /\ rep hp' None (rightRotation_a shape_rot)
    /\ erase (rightRotation_a shape_rot) = classic_rotate_right (erase shape_rot).
Proof.
  assert (Hrep : rep heap_rot None shape_rot) by (simpl; repeat split; reflexivity).
  assert (Hnd : NoDup (ptrs shape_rot))
    by (apply (bool_decide_unpack _); vm_compute; exact I).
  destruct (proj1 (rotation_is_classical_rotation heap_rot None shape_rot Hrep Hnd))
    as (hp' & Hrun & Hrep' & _ & _ & _ & _ & Her & _).
  - simpl. eexists. reflexivity.
  - exists hp'. split; [exact Hrun|]. split; [exact Hrep'|exact Her].
Defined.

Lemma strInsert_failure_conditions_a :
  strInsert (Some tree_a) None 5 (Some 2%positive) heap_a = Some ((0, Some tree_a), heap_a)
  /\ strInsert None (Some "b") 5 (Some 2%positive) heap_a = Some ((0, None), heap_a)
  /\ exists hp' tr',
       strInsert (Some tree_a) (Some "b") 5 (Some 2%positive) heap_a
       = Some ((nodesCount tree_a + 1, Some tr'), hp')
       /\ nodesCount tr' = nodesCount tree_a + 1.
Proof.
  destruct (strInsert_failure_conditions heap_a tree_a shape_a tree_inv_a)
    as (Hkey & Htree & _ & Hins & _).
  split; [apply Hkey|]. split; [apply Htree|].
  destruct (Hins ltac:(vm_compute; discriminate) "b"%string 5 2%positive eq_refl)
    as (hp' & tr' & Hrun & _ & Hc & _).
  exists hp', tr'. split; [exact Hrun|exact Hc].
Defined.

Lemma flags_first_match_a :
  strDFS heap_a (Some tree_a) (Z.lor DFS_PRE_ORDER DFS_IN_ORDER)
    (Z.lor SEARCH_DATA SEARCH_KEYS) true
  = strDFS heap_a (Some tree_a) DFS_PRE_ORDER SEARCH_DATA true
  /\ strDFS heap_a (Some tree_a) DFS_IN_ORDER DELETE_FREE_DATA true = Some None
  /\ strSearch (Some tree_a) (Some "a") (Z.lor SEARCH_DATA SEARCH_NODES) heap_a
     = strSearch (Some tree_a) (Some "a") SEARCH_DATA heap_a
  /\ strSearch (Some tree_a) (Some "a") (Z.lor SEARCH_DATA SEARCH_NODES - 2 ^ 31) heap_a
     = Some (None, heap_a).
Proof.
  destruct (flags_first_match heap_a tree_a shape_a tree_inv_a)
    as (Hnone & _ & _ & Hfirst & _ & Hsearch & _ & Hneg).
  split; [|split; [|split]].
  - apply (Hfirst (Some tree_a) (Z.lor DFS_PRE_ORDER DFS_IN_ORDER)
             (Z.lor SEARCH_DATA SEARCH_KEYS) true PData PreOrder); reflexivity.
  - apply Hnone. left. reflexivity.
  - apply (Hsearch (Some tree_a) (Some "a"%string) (Z.lor SEARCH_DATA SEARCH_NODES) PData);
      reflexivity.
  - apply Hneg. vm_compute. discriminate.
Defined.

Lemma strDelete_absent_key_a :
  strDelete (Some tree_a) (Some "z") 0 heap_a = Some ((0, Some tree_a), heap_a).
Proof.
  apply (strDelete_absent_key heap_a tree_a shape_a "z" 0 tree_inv_a).
  simpl. intros [H|[]]. discriminate H.
Defined.


Lemma strSearch_projections_a :
  (exists c p l d h r,
     shape_dup = plug c (T p l "a" d h r)
     /\ Forall (fun f => frame_key f <> "a"%string) c
     /\ depth_in p shape_dup = Some (length c)
     /\ (forall q, In (q, "a"%string) (node_keys shape_dup) -> q <> p ->
           exists n, depth_in q shape_dup = Some n /\ (length c < n)%nat)
     /\ heap_dup !! p = Some (mkNode (ctx_father c) (root l) (root r) h "a" d)
     /\ strSearch (Some tree_dup) (Some "a") SEARCH_NODES heap_dup
        = Some (Some (VNode p), heap_dup)
     /\ strSearch (Some tree_dup) (Some "a") SEARCH_DATA heap_dup
        = Some (Some (VData d), heap_dup)
     /\ strSearch (Some tree_dup) (Some "a") SEARCH_KEYS heap_dup = Some (None, heap_dup))
  /\ strSearch (Some tree_dup) (Some "z") SEARCH_DATA heap_dup = Some (None, heap_dup).
Proof.
  destruct (strSearch_projections heap_dup tree_dup shape_dup "a" tree_inv_dup)
    as (Hin & _ & _).
  destruct (strSearch_projections heap_dup tree_dup shape_dup "z" tree_inv_dup)
    as (_ & Hout & _).
  split.
  - apply Hin. simpl. left. reflexivity.
  - apply Hout. vm_compute. intros [H|[H|[H|[]]]]; discriminate H.
Defined.

(** * Insertion, deletion and search together *)

Lemma ptrs_insert_a p k d t : ptrs (insert_a p k d t) ≡ₚ p :: ptrs t.
Proof.
  destruct t as [|q l k' d' h r]; [reflexivity|].
  pose proof (f_equal ptrs (plug_descend k (T q l k' d' h r) [])) as H.
  cbn [plug] in H. rewrite <- H.
  unfold insert_a. rewrite ptrs_balanceInsert, !ptrs_plug.
  simpl. rewrite app_nil_r.
  symmetry. apply Permutation_cons_append.
Qed.

Lemma in_with_key k e l : In e l -> fst e = k -> e ∈ with_key k l.
Proof.
  intros Hin Hk. unfold with_key. apply list_elem_of_filter. split; [exact Hk|].
  apply list_elem_of_In. exact Hin.
Qed.

Lemma with_key_absent k l : ~ In k (map fst l) -> with_key k l = [].
Proof.
  intros H. unfold with_key. induction l as [|e l IH]; [reflexivity|].
  rewrite filter_cons. destruct (decide (e.1 = k)) as [He|He].
  - exfalso. apply H. left. exact He.
  - apply IH. intros Hin. apply H. right. exact Hin.
Qed.

Lemma with_key_app k l1 l2 : with_key k (l1 ++ l2) = with_key k l1 ++ with_key k l2.
Proof. unfold with_key. apply filter_app. Qed.

Lemma with_key_cons_eq k d l : with_key k ((k, d) :: l) = (k, d) :: with_key k l.
Proof. unfold with_key. rewrite filter_cons. simpl. destruct (decide (k = k)); congruence. Qed.

Lemma with_key_cons_ne k k' d l : k' <> k -> with_key k ((k', d) :: l) = with_key k l.
Proof. intros H. unfold with_key. rewrite filter_cons. simpl. destruct (decide (k' = k)); congruence. Qed.

Lemma with_key_nil_absent k l : with_key k l = [] -> ~ In k (map fst l).
Proof.
  intros H Hin. apply in_map_iff in Hin as (e & He & Hin).
  pose proof (in_with_key k e l Hin He) as Hw. rewrite H in Hw.
  apply elem_of_nil in Hw. exact Hw.
Qed.

(** The datum that a search returns belongs to an entry of the tree. *)
Lemma strSearch_data_entry hp tr t key :
  tree_inv hp tr t -> In key (map fst (entries t)) ->
  exists d, In (key, d) (entries t)
    /\ strSearch (Some tr) (Some key) SEARCH_DATA hp = Some (Some (VData d), hp).
Proof.
  intros Hinv Hk.
  destruct (find_In key t [] (inv_sorted _ _ _ Hinv) Hk) as (c & tf & Hfind).
  pose proof (find_Some _ _ _ _ _ Hfind) as (Hplug & _ & (p & l & d & h & r & ->)).
  exists d. split.
  - simpl in Hplug. rewrite <- Hplug, entries_plug. simpl.
    apply in_app_iff. right. apply in_app_iff. left.
    apply in_app_iff. right. left. reflexivity.
  - rewrite (strSearch_run hp tr t key _ Hinv), Hfind. reflexivity.
Qed.

Lemma strSearch_single hp tr t key d :
  tree_inv hp tr t -> with_key key (entries t) = [(key, d)] ->
  strSearch (Some tr) (Some key) SEARCH_DATA hp = Some (Some (VData d), hp).
Proof.
  intros Hinv Hw.
  assert (Hk : In key (map fst (entries t))).
  { destruct (in_dec string_dec key (map fst (entries t))) as [H|H]; [exact H|].
    rewrite (with_key_absent _ _ H) in Hw. discriminate. }
  destruct (strSearch_data_entry hp tr t key Hinv Hk) as (d' & Hin & Hrun).
  pose proof (in_with_key key _ _ Hin eq_refl) as Hw'. rewrite Hw in Hw'.
  apply list_elem_of_singleton in Hw'. injection Hw' as ->. exact Hrun.
Qed.

Lemma strSearch_absent hp tr t key opts :
  tree_inv hp tr t -> ~ In key (map fst (entries t)) ->
  strSearch (Some tr) (Some key) opts hp = Some (None, hp).
Proof.
  intros Hinv Hk. rewrite (strSearch_run hp tr t key _ Hinv), (find_None key t [] Hk).
  reflexivity.
Qed.

Lemma keys_lt_not_in k l : keys_lt k l -> ~ In k (map fst l).
Proof.
  intros H Hin. apply in_map_iff in Hin as (e & He & Hin).
  unfold keys_lt in H. rewrite Forall_forall in H.
  apply list_elem_of_In in Hin. specialize (H e Hin).
  rewrite He, strcmp_refl in H. lia.
Qed.

Lemma split_unique_key k d d' (l1 l2 l1' l2' : list (string * Z)) :
  l1 ++ (k, d) :: l2 = l1' ++ (k, d') :: l2' ->
  ~ In k (map fst l1) -> ~ In k (map fst l2) ->
  l1 = l1' /\ d = d' /\ l2 = l2'.
Proof.
  revert l1'. induction l1 as [|e l1 IH]; intros l1' Heq H1 H2.
  - destruct l1' as [|e' l1'].
    + simpl in Heq. injection Heq as -> ->. auto.
    + simpl in Heq. injection Heq as <- Heq. exfalso. apply H2.
      rewrite Heq, map_app. apply in_app_iff. right. left. reflexivity.
  - destruct l1' as [|e' l1'].
    + simpl in Heq. injection Heq as -> _. exfalso. apply H1. left. reflexivity.
    + simpl in Heq. injection Heq as <- Heq.
      destruct (IH l1' Heq) as (-> & -> & ->); [|exact H2|auto].
      intros Hin. apply H1. right. exact Hin.
Qed.

Lemma not_in_app_keys k (l1 l2 : list (string * Z)) :
  ~ In k (map fst (l1 ++ l2)) -> ~ In k (map fst l1) /\ ~ In k (map fst l2).
Proof.
  rewrite map_app. intros H. split; intros Hin; apply H; apply in_app_iff; auto.
Qed.

(** The entry that [strDelete] removes is the one at the node where the
    search stops. *)
Lemma delete_a_found key t t' pf :
  delete_a key t = Some (t', pf) ->
  exists c p l d h r l1 l2,
    find key t [] = Some (c, T p l key d h r)
    /\ entries t = l1 ++ (key, d) :: l2
    /\ entries t' = l1 ++ l2.
Proof.
  unfold delete_a.
  destruct (find key t []) as [[c tf]|] eqn:Hfind; [|discriminate].
  pose proof (find_Some _ _ _ _ _ Hfind) as (Hplug & _ & (p & l & d & h & r & ->)).
  simpl in Hplug.
  destruct l as [|pl ll kl dl hl lr] eqn:El.
  { intros H0.
    assert (H : cutOneSonNode_a c (T p E key d h r) = (t', pf)) by congruence.
    apply cutOneSonNode_a_spec in H as (q & _ & _ & He & _); [|left; reflexivity].
    exists c, p, E, d, h, r, (ctx_before c), (entries r ++ ctx_after c).
    split; [reflexivity|]. rewrite <- Hplug.
    split; [rewrite entries_plug; reflexivity|exact He]. }
  destruct r as [|pr rl kr dr hr rr] eqn:Er.
  { intros H0.
    assert (H : cutOneSonNode_a c (T p (T pl ll kl dl hl lr) key d h E) = (t', pf))
      by congruence.
    apply cutOneSonNode_a_spec in H as (q & _ & _ & He & _); [|right; reflexivity].
    exists c, p, (T pl ll kl dl hl lr), d, h, E,
      (ctx_before c ++ entries (T pl ll kl dl hl lr)), (ctx_after c).
    split; [reflexivity|]. rewrite <- Hplug.
    split; [rewrite entries_plug; cbn [entries]; rewrite <- !app_assoc; reflexivity|].
    rewrite He; cbn [entries]; rewrite <- !app_assoc; reflexivity. }
  rewrite <- El. rewrite <- El in Hplug. rewrite <- Er. rewrite <- Er in Hplug.
  assert (Hl : l <> E) by (rewrite El; discriminate).
  clear El Er.
  destruct (maxKeySon_a l []) as [ci m] eqn:Hmax.
  apply maxKeySon_spec in Hmax as (Hpl & (ci' & Hci & Hall) & (pm & ml & km & dm & hm & ->));
    [|exact Hl].
  rewrite app_nil_r in Hci. subst ci'. simpl in Hpl.
  cbn [payload set_payload].
  intros H0.
  assert (H : cutOneSonNode_a (ci ++ FL p km dm h r :: c) (T pm ml key d hm E) = (t', pf))
    by congruence.
  apply cutOneSonNode_a_spec in H as (q & _ & _ & He & _); [|right; reflexivity].
  exists c, p, l, d, h, r, (ctx_before c ++ ctx_before ci ++ entries ml ++ [(km, dm)]),
    (entries r ++ ctx_after c).
  split; [reflexivity|]. split.
  - rewrite <- Hplug, <- Hpl, entries_plug. cbn [entries]. rewrite entries_plug.
    rewrite (all_right_after ci Hall). cbn [entries]. rewrite !app_nil_r.
    rewrite <- !app_assoc. reflexivity.
  - rewrite He, ctx_before_app, ctx_after_app. cbn [ctx_before ctx_after entries].
    rewrite (all_right_after ci Hall). rewrite !app_nil_r. cbn [app].
    rewrite <- !app_assoc. reflexivity.
Qed.

Lemma delete_a_present key t :
  sorted_keys (entries t) -> In key (map fst (entries t)) ->
  exists t' pf, delete_a key t = Some (t', pf).
Proof.
  intros Hs Hk. destruct (delete_a key t) as [[t' pf]|] eqn:Hd; [eauto|].
  apply delete_a_None in Hd.
  destruct (find_In key t [] Hs Hk) as (c & tf & Hfind). congruence.
Qed.

(** What a deletion that finds its key does. *)
Lemma strDelete_present hp tr t key opts :
  tree_inv hp tr t -> 0 <= opts -> In key (map fst (entries t)) ->
  exists hp' tr' t' q l1 d l2,
    strDelete (Some tr) (Some key) opts hp = Some ((1, Some tr'), hp')
    /\ tree_inv hp' tr' t'
    /\ strSearch (Some tr) (Some key) SEARCH_DATA hp = Some (Some (VData d), hp)
    /\ entries t = l1 ++ (key, d) :: l2
    /\ entries t' = l1 ++ l2
    /\ q :: ptrs t' ≡ₚ ptrs t
    /\ dom hp' = dom hp ∖ {[q]}
    /\ nodesCount tr' = nodesCount tr - 1
    /\ maxNodes tr' = maxNodes tr.
Proof.
  intros Hinv Ho Hk.
  destruct (delete_a_present key t (inv_sorted _ _ _ Hinv) Hk) as (t' & pf & Hd).
  pose proof (strDelete_run hp tr t key opts Hinv Ho) as Hrun. rewrite Hd in Hrun.
  destruct Hrun as (hp' & tr' & q & -> & Hrun & Hinv' & Hc & Hm & Hdom).
  destruct (delete_a_found key t t' _ Hd) as (c & p & l & d & h & r & l1 & l2 & Hf & He & He').
  destruct (delete_a_spec key t t' _ (inv_nodup _ _ _ Hinv) Hd)
    as (q' & _ & _ & _ & Hq & Hp & _).
  injection Hq as <-.
  exists hp', tr', t', q, l1, d, l2.
  split; [exact Hrun|]. split; [exact Hinv'|].
  split; [rewrite (strSearch_run hp tr t key _ Hinv), Hf; reflexivity|].
  split; [exact He|]. split; [exact He'|]. split; [exact Hp|].
  split; [exact Hdom|]. split; [exact Hc|exact Hm].
Qed.

(** The allocated nodes of a state built with the library are the nodes
    of its tree. *)
Lemma built_dom hp tr hist :
  built hp tr hist ->
  exists t, tree_inv hp tr t /\ (forall q, q ∈ dom hp <-> q ∈ ptrs t).
Proof.
  induction 1 as [cap Hcap
                  |hp tr hist k d p r hp' tr' _ IH Hp Hrun Hr
                  |hp tr hist k d p hp' tr' _ IH Hp Hrun
                  |hp tr hist k opts r hp' tr' _ IH Hrun].
  - exists E. split; [apply tree_inv_empty; exact Hcap|].
    intros q. rewrite dom_empty_L. simpl. split; intros Hq.
    + apply not_elem_of_empty in Hq. destruct Hq.
    + apply elem_of_nil in Hq. destruct Hq.
  - destruct IH as (t & Hinv & Hdom).
    destruct (Z.eq_dec (nodesCount tr) (maxNodes tr)) as [Hfull|Hfull].
    { rewrite (strInsert_full hp tr (Some k) d (Some p) Hfull) in Hrun. congruence. }
    destruct (strInsert_run hp tr t k d p Hinv Hp Hfull)
      as (hp2 & tr2 & Hrun2 & Hinv2 & _ & _ & Hdom2).
    rewrite Hrun2 in Hrun. injection Hrun as <- <- <-.
    exists (insert_a p k d t). split; [exact Hinv2|].
    intros q. rewrite Hdom2, ptrs_insert_a, elem_of_union, elem_of_singleton,
      elem_of_cons, Hdom. reflexivity.
  - destruct IH as (t & Hinv & Hdom).
    destruct (Z.eq_dec (nodesCount tr) (maxNodes tr)) as [Hfull|Hfull].
    { rewrite (strInsert_full hp tr (Some k) d (Some p) Hfull) in Hrun.
      injection Hrun as <- <-. exists t. auto. }
    destruct (strInsert_run hp tr t k d p Hinv Hp Hfull)
      as (hp2 & tr2 & Hrun2 & Hinv2 & _).
    rewrite Hrun2 in Hrun. injection Hrun as Hc _ _.
    pose proof (inv_count _ _ _ Hinv). lia.
  - destruct IH as (t & Hinv & Hdom).
    destruct (Z.lt_ge_cases opts 0) as [Hneg|Hpos].
    { rewrite (strDelete_negative hp (Some tr) (Some k) opts Hneg) in Hrun.
      injection Hrun as <- <- <-. exists t. auto. }
    pose proof (strDelete_run hp tr t k opts Hinv Hpos) as Hdel.
    destruct (delete_a k t) as [[t' pf]|] eqn:Ha.
    + destruct Hdel as (hp2 & tr2 & q & -> & Hrun2 & Hinv2 & _ & _ & Hdom2).
      rewrite Hrun2 in Hrun. injection Hrun as <- <- <-.
      exists t'. split; [exact Hinv2|].
      destruct (delete_a_spec k t t' _ (inv_nodup _ _ _ Hinv) Ha)
        as (q' & _ & _ & _ & Hq & Hperm & _).
      injection Hq as <-.
      pose proof (inv_nodup _ _ _ Hinv) as Hnd. rewrite <- Hperm in Hnd.
      apply NoDup_cons in Hnd as [Hq _].
      intros x. rewrite Hdom2, elem_of_difference, elem_of_singleton, Hdom, <- Hperm,
        elem_of_cons.
      split; [intros [[?|?] ?]; [contradiction|assumption]|].
      intros Hx. split; [right; exact Hx|]. intros ->. contradiction.
    + rewrite Hdel in Hrun. injection Hrun as <- <- <-. exists t. auto.
Qed.

(** * Insertion and deletion on the entries *)

(** X1.  On a well-formed tree that is not full, [strInsert] with a node
    from [malloc] returns the new count and leaves a well-formed tree
    whose entries, in symmetric order, are the old ones with the new
    entry put after every entry with a smaller key and before every entry
    with the same or a greater key; its nodes are the old nodes and the
    new one. *)
Theorem strInsert_sorted_position hp tr t k d p :
  tree_inv hp tr t -> hp !! p = None -> nodesCount tr <> maxNodes tr ->
  exists hp' tr' t' l1 l2,
    strInsert (Some tr) (Some k) d (Some p) hp
    = Some ((nodesCount tr + 1, Some tr'), hp')
    /\ tree_inv hp' tr' t'
    /\ entries t = l1 ++ l2 /\ keys_lt k l1 /\ keys_ge k l2
    /\ entries t' = l1 ++ (k, d) :: l2
    /\ ptrs t' ≡ₚ p :: ptrs t
    /\ dom hp' = {[p]} ∪ dom hp.
Proof.
  intros Hinv Hp Hfull.
  destruct (strInsert_run hp tr t k d p Hinv Hp Hfull)
    as (hp' & tr' & Hrun & Hinv' & _ & _ & Hdom).
  destruct (entries_insert_a p k d t (inv_sorted _ _ _ Hinv))
    as (l1 & l2 & He & Hlt & Hge & He').
  exists hp', tr', (insert_a p k d t), l1, l2.
  split; [exact Hrun|]. split; [exact Hinv'|]. split; [exact He|].
  split; [exact Hlt|]. split; [exact Hge|]. split; [exact He'|].
  split; [apply ptrs_insert_a|exact Hdom].
Qed.

(** X2.  On a well-formed tree that holds the key, [strDelete] with
    options that are not negative returns 1 and leaves a well-formed tree
    with one entry less: the entry removed has the key and the datum
    that [strSearch] returned for the key, the other entries keep their
    order, one node of the tree is freed, and the root is NULL afterwards
    exactly when the tree had a single node. *)
Theorem strDelete_removes_found_entry hp tr t key opts :
  tree_inv hp tr t -> 0 <= opts -> In key (map fst (entries t)) ->
  exists hp' tr' t' q l1 d l2,
    strDelete (Some tr) (Some key) opts hp = Some ((1, Some tr'), hp')
    /\ tree_inv hp' tr' t'
    /\ strSearch (Some tr) (Some key) SEARCH_DATA hp = Some (Some (VData d), hp)
    /\ entries t = l1 ++ (key, d) :: l2
    /\ entries t' = l1 ++ l2
    /\ q :: ptrs t' ≡ₚ ptrs t
    /\ dom hp' = dom hp ∖ {[q]}
    /\ nodesCount tr' = nodesCount tr - 1
    /\ maxNodes tr' = maxNodes tr
    /\ (_root tr' = None <-> nodesCount tr = 1).
Proof.
  intros Hinv Ho Hk.
  destruct (strDelete_present hp tr t key opts Hinv Ho Hk)
    as (hp' & tr' & t' & q & l1 & d & l2 & Hrun & Hinv' & Hs & He & He' & Hp & Hdom & Hc & Hm).
  exists hp', tr', t', q, l1, d, l2. repeat (split; [assumption|]).
  rewrite (inv_root _ _ _ Hinv'). pose proof (inv_count _ _ _ Hinv') as Hc'.
  split.
  - intros Hr. destruct t'; [simpl in Hc'; lia|discriminate].
  - intros H1. destruct t'; [reflexivity|]. simpl in Hc'. lia.
Qed.

(** X3.  After the insertion of an entry whose key the tree did not
    hold, the search for that key returns the datum of the entry; a key
    that is still absent is not found, and a key that one entry holds is
    found with the datum it had. *)
Theorem strSearch_after_strInsert hp tr t k d p :
  tree_inv hp tr t -> hp !! p = None -> nodesCount tr <> maxNodes tr ->
  ~ In k (map fst (entries t)) ->
  exists hp' tr',
    strInsert (Some tr) (Some k) d (Some p) hp
    = Some ((nodesCount tr + 1, Some tr'), hp')
    /\ strSearch (Some tr') (Some k) SEARCH_DATA hp' = Some (Some (VData d), hp')
    /\ (forall k' opts, k' <> k -> ~ In k' (map fst (entries t)) ->
          strSearch (Some tr') (Some k') opts hp' = Some (None, hp'))
    /\ (forall k' d', k' <> k -> with_key k' (entries t) = [(k', d')] ->
          strSearch (Some tr') (Some k') SEARCH_DATA hp' = Some (Some (VData d'), hp')).
Proof.
  intros Hinv Hp Hfull Hk.
  destruct (strInsert_run hp tr t k d p Hinv Hp Hfull)
    as (hp' & tr' & Hrun & Hinv' & _).
  destruct (entries_insert_a p k d t (inv_sorted _ _ _ Hinv))
    as (l1 & l2 & He & Hlt & Hge & He').
  rewrite He in Hk. apply not_in_app_keys in Hk as [Hk1 Hk2].
  exists hp', tr'. split; [exact Hrun|]. split; [|split].
  - apply (strSearch_single hp' tr' _ k d Hinv').
    rewrite He', with_key_app, with_key_cons_eq.
    rewrite (with_key_absent k l1 Hk1), (with_key_absent k l2 Hk2). reflexivity.
  - intros k' opts Hne Hk'. apply (strSearch_absent hp' tr' _ k' opts Hinv').
    rewrite He'. rewrite He in Hk'. apply not_in_app_keys in Hk' as [Hk1' Hk2'].
    rewrite map_app. intros Hin. apply in_app_iff in Hin as [Hin|[Hin|Hin]]; auto.
  - intros k' d' Hne Hw. apply (strSearch_single hp' tr' _ k' d' Hinv').
    rewrite He', with_key_app, with_key_cons_ne by congruence.
    rewrite <- with_key_app, <- He. exact Hw.
Qed.

(** X4.  Inserting an entry whose key the tree did not hold and then
    deleting that key gives back a well-formed tree with the entries and
    the count it had before the insertion, and the key is not found any
    more. *)
Theorem strDelete_after_strInsert hp tr t k d p opts :
  tree_inv hp tr t -> hp !! p = None -> nodesCount tr <> maxNodes tr ->
  ~ In k (map fst (entries t)) -> 0 <= opts ->
  exists hp1 tr1 hp2 tr2 t2,
    strInsert (Some tr) (Some k) d (Some p) hp
    = Some ((nodesCount tr + 1, Some tr1), hp1)
    /\ strDelete (Some tr1) (Some k) opts hp1 = Some ((1, Some tr2), hp2)
    /\ tree_inv hp2 tr2 t2
    /\ entries t2 = entries t
    /\ nodesCount tr2 = nodesCount tr
    /\ maxNodes tr2 = maxNodes tr
    /\ size hp2 = size hp
    /\ forall opts', strSearch (Some tr2) (Some k) opts' hp2 = Some (None, hp2).
Proof.
  intros Hinv Hp Hfull Hk Ho.
  destruct (strInsert_run hp tr t k d p Hinv Hp Hfull)
    as (hp1 & tr1 & Hrun & Hinv1 & Hc1 & Hm1 & Hdom1).
  destruct (entries_insert_a p k d t (inv_sorted _ _ _ Hinv))
    as (l1 & l2 & He & Hlt & Hge & He1).
  assert (Hk' := Hk). rewrite He in Hk'. apply not_in_app_keys in Hk' as [Hk1 Hk2].
  assert (Hin : In k (map fst (entries (insert_a p k d t)))).
  { rewrite He1, map_app. apply in_app_iff. right. left. reflexivity. }
  destruct (strDelete_present hp1 tr1 _ k opts Hinv1 Ho Hin)
    as (hp2 & tr2 & t2 & q & l1' & d' & l2' & Hdel & Hinv2 & _ & Hs & Hs' & Hq & Hdom2 & Hc2 & Hm2).
  rewrite He1 in Hs.
  destruct (split_unique_key k d d' l1 l2 l1' l2' Hs Hk1 Hk2) as (<- & <- & <-).
  assert (He2 : entries t2 = entries t) by congruence.
  exists hp1, tr1, hp2, tr2, t2.
  split; [exact Hrun|]. split; [exact Hdel|]. split; [exact Hinv2|].
  split; [exact He2|]. split; [lia|]. split; [congruence|]. split.
  - rewrite <- !size_dom, Hdom2, Hdom1.
    assert (Hqd : q ∈ ({[p]} ∪ dom hp : gset positive)).
    { rewrite <- Hdom1. eapply ptrs_in_dom; [apply (inv_rep _ _ _ Hinv1)|].
      rewrite <- Hq. left. }
    assert (Hpd : p ∉ dom hp) by (apply not_elem_of_dom; exact Hp).
    rewrite size_difference by (apply singleton_subseteq_l; exact Hqd).
    rewrite size_union by set_solver. rewrite !size_singleton. lia.
  - intros opts'. apply (strSearch_absent hp2 tr2 t2 k opts' Hinv2).
    rewrite He2. exact Hk.
Qed.

(** X5.  In every state built from an empty tree by calls of
    [strInsert] in each of which [malloc] returned a fresh node and by
    calls of [strDelete], the allocated nodes are exactly the nodes of
    the tree, each once: no node is lost and none is left behind by a
    deletion; the count is their number, and the root is NULL exactly
    when no node is allocated. *)
Theorem built_heap_is_tree hp tr hist :
  built hp tr hist ->
  exists t,
    tree_inv hp tr t
    /\ (forall q, q ∈ dom hp <-> q ∈ ptrs t)
    /\ Z.of_nat (size hp) = nodesCount tr
    /\ (_root tr = None <-> hp = ∅).
Proof.
  intros Hb. destruct (built_dom hp tr hist Hb) as (t & Hinv & Hdom).
  exists t. split; [exact Hinv|].
  split; [exact Hdom|].
  assert (Hset : dom hp = list_to_set (ptrs t)).
  { apply set_eq. intros q. rewrite elem_of_list_to_set. apply Hdom. }
  split.
  - rewrite <- size_dom, Hset, size_list_to_set by apply (inv_nodup _ _ _ Hinv).
    symmetry. apply (inv_count _ _ _ Hinv).
  - rewrite (inv_root _ _ _ Hinv). split.
    + intros Hr. destruct t; [|discriminate]. apply dom_empty_iff_L. rewrite Hset. reflexivity.
    + intros ->. destruct t as [|q]; [reflexivity|]. exfalso.
      assert (Hq : q ∈ dom (∅ : heap)) by (apply Hdom; left).
      rewrite dom_empty_L in Hq. apply not_elem_of_empty in Hq. exact Hq.
Qed.

(** * The depth-first searches, root first and root last *)










(** * Balance *)

Lemma MAX_max x y : MAX x y = Z.max x y.
Proof. unfold MAX. destruct (x <=? y) eqn:H; [apply Z.leb_le in H|apply Z.leb_gt in H]; lia. Qed.

Lemma avl_height_lower t : avl t -> -1 <= height_a t.
Proof.
  induction t as [|p l IHl k d h r IHr]; simpl; [lia|].
  intros (Hh & _ & Hl & Hr). specialize (IHl Hl). lia.
Qed.

Lemma avl_height_node p l k d h r : avl (T p l k d h r) -> 0 <= h.
Proof.
  intros (Hh & _ & Hl & Hr). pose proof (avl_height_lower l Hl). lia.
Qed.

Lemma avl_height_E t : avl t -> height_a t = -1 -> t = E.
Proof.
  destruct t as [|p l k d h r]; [reflexivity|].
  intros H Hh. pose proof (avl_height_node _ _ _ _ _ _ H). simpl in Hh. lia.
Qed.

Lemma avl_real_height t : avl t -> real_height t = height_a t.
Proof.
  induction t as [|p l IHl k d h r IHr]; simpl; [reflexivity|].
  intros (Hh & _ & Hl & Hr). rewrite IHl, IHr by assumption. lia.
Qed.

Lemma heights_consistent_real t :
  heights_consistent t = true -> real_height t = height_a t.
Proof.
  induction t as [|p l IHl k d h r IHr]; simpl; [reflexivity|].
  intros H. apply andb_true_iff in H as [H Hr]. apply andb_true_iff in H as [Hh Hl].
  apply Z.eqb_eq in Hh. rewrite IHl, IHr by assumption. lia.
Qed.

Lemma avl_iff t : avl t <-> heights_consistent t = true /\ balanced t = true.
Proof.
  induction t as [|p l IHl k d h r IHr]; simpl; [tauto|].
  split.
  - intros (Hh & Hb & Hl & Hr).
    pose proof (avl_real_height l Hl). pose proof (avl_real_height r Hr).
    apply IHl in Hl as [Hl1 Hl2]. apply IHr in Hr as [Hr1 Hr2].
    rewrite Hl1, Hl2, Hr1, Hr2, !andb_true_r. split.
    + apply Z.eqb_eq. exact Hh.
    + apply Z.leb_le. lia.
  - intros [H1 H2].
    apply andb_true_iff in H1 as [H1 Hr1]. apply andb_true_iff in H1 as [Hh Hl1].
    apply andb_true_iff in H2 as [H2 Hr2]. apply andb_true_iff in H2 as [Hb Hl2].
    apply Z.eqb_eq in Hh. apply Z.leb_le in Hb.
    rewrite (heights_consistent_real l Hl1), (heights_consistent_real r Hr1) in Hb.
    split; [exact Hh|]. split; [lia|]. split; [apply IHl|apply IHr]; auto.
Qed.

(** A node whose left subtree is two levels higher than the right one. *)
Lemma rotate_avl_left p l k d h r :
  avl l -> avl r -> height_a l = height_a r + 2 ->
  avl (rotate_a (T p l k d h r))
  /\ (height_a (rotate_a (T p l k d h r)) = height_a l
      \/ (bf_a l = 0 /\ height_a (rotate_a (T p l k d h r)) = height_a l + 1)).
Proof.
  intros Hl Hr Hd.
  pose proof (avl_height_lower r Hr) as Hrl.
  destruct l as [|pl a kl dl hl b]; [simpl in Hd; lia|].
  destruct Hl as (Hhl & Hbl & Ha & Hb).
  pose proof (avl_height_lower a Ha) as Hal.
  pose proof (avl_height_lower b Hb) as Hbl'.
  cbn [height_a] in Hd.
  unfold rotate_a. cbn [bf_a height_a].
  replace (hl - height_a r =? 2) with true by (symmetry; apply Z.eqb_eq; lia).
  destruct (0 <=? height_a a - height_a b) eqn:Hc;
    [apply Z.leb_le in Hc|apply Z.leb_gt in Hc].
  - cbn [rightRotation_a updateHeight_a height_a avl]. rewrite !MAX_max.
    split; [repeat split; try assumption; lia|]. lia.
  - destruct b as [|pb b1 kb db hb b2]; [simpl in Hc, Hbl; lia|].
    destruct Hb as (Hhb & Hbb & Hb1 & Hb2).
    pose proof (avl_height_lower b1 Hb1). pose proof (avl_height_lower b2 Hb2).
    cbn [height_a] in *.
    cbn [leftRotation_a rightRotation_a updateHeight_a height_a avl]. rewrite !MAX_max.
    split; [repeat split; try assumption; lia|]. left. lia.
Qed.

Lemma rotate_avl_right p l k d h r :
  avl l -> avl r -> height_a r = height_a l + 2 ->
  avl (rotate_a (T p l k d h r))
  /\ (height_a (rotate_a (T p l k d h r)) = height_a r
      \/ (bf_a r = 0 /\ height_a (rotate_a (T p l k d h r)) = height_a r + 1)).
Proof.
  intros Hl Hr Hd.
  pose proof (avl_height_lower l Hl) as Hll.
  destruct r as [|pr b kr dr hr c]; [simpl in Hd; lia|].
  destruct Hr as (Hhr & Hbr & Hb & Hc').
  pose proof (avl_height_lower b Hb) as Hbl'.
  pose proof (avl_height_lower c Hc') as Hcl.
  cbn [height_a] in Hd.
  unfold rotate_a. cbn [bf_a height_a].
  replace (height_a l - hr =? 2) with false by (symmetry; apply Z.eqb_neq; lia).
  replace (height_a l - hr =? -2) with true by (symmetry; apply Z.eqb_eq; lia).
  destruct (height_a b - height_a c <=? 0) eqn:Hc;
    [apply Z.leb_le in Hc|apply Z.leb_gt in Hc].
  - cbn [leftRotation_a updateHeight_a height_a avl]. rewrite !MAX_max.
    split; [repeat split; try assumption; lia|]. lia.
  - destruct b as [|pb b1 kb db hb b2]; [simpl in Hc, Hbr; lia|].
    destruct Hb as (Hhb & Hbb & Hb1 & Hb2).
    pose proof (avl_height_lower b1 Hb1). pose proof (avl_height_lower b2 Hb2).
    cbn [height_a] in *.
    cbn [leftRotation_a rightRotation_a updateHeight_a height_a avl]. rewrite !MAX_max.
    split; [repeat split; try assumption; lia|]. left. lia.
Qed.

(** ** Subtrees along a path *)

Lemma avl_fill_inner f t : avl (fill f t) -> avl t.
Proof. destruct f; simpl; tauto. Qed.

Lemma avl_plug_inner c : forall t, avl (plug c t) -> avl t.
Proof.
  induction c as [|f c IH]; intros t H; simpl in H; [exact H|].
  apply (avl_fill_inner f). apply IH. exact H.
Qed.

Lemma avl_fill_replace f t t' :
  avl (fill f t) -> avl t' -> height_a t' = height_a t -> avl (fill f t').
Proof. destruct f; simpl; intros (Hh & Hb & Hl & Hr) Ht Heq; rewrite Heq; tauto. Qed.

Lemma height_fill f t t' : height_a (fill f t') = height_a (fill f t).
Proof. destruct f; reflexivity. Qed.

Lemma avl_plug_replace c : forall t t',
  avl (plug c t) -> avl t' -> height_a t' = height_a t -> avl (plug c t').
Proof.
  induction c as [|f c IH]; intros t t' H Ht Heq; simpl in *; [exact Ht|].
  apply (IH (fill f t)); [exact H| |apply height_fill].
  apply (avl_fill_replace f t); [apply (avl_plug_inner c); exact H|exact Ht|exact Heq].
Qed.

Lemma height_plug c : forall t t',
  height_a t' = height_a t -> height_a (plug c t') = height_a (plug c t).
Proof.
  induction c as [|f c IH]; intros t t' H; simpl; [exact H|].
  apply IH. apply height_fill.
Qed.

(** ** The walk after an insertion *)

Lemma balanceInsert_avl c : forall t_old t_new,
  avl (plug c t_old) -> avl t_new ->
  (height_a t_new = height_a t_old
   \/ (height_a t_new = height_a t_old + 1 /\ (bf_a t_new <> 0 \/ height_a t_new = 0))) ->
  avl (balanceInsert_a c t_new).
Proof.
  induction c as [|f c IH]; intros t_old t_new Hold Hnew Hh; [exact Hnew|].
  rewrite balanceInsert_a_step. cbn [plug] in Hold.
  pose proof (avl_plug_inner c _ Hold) as Hf.
  destruct f as [p k d h r|p l k d h]; cbn [fill] in *.
  - destruct Hf as (Hhh & Hb & Ht & Hr).
    pose proof (avl_height_lower r Hr) as Hrl.
    cbn [bf_a height_a].
    destruct (2 <=? Z.abs (height_a t_new - height_a r)) eqn:Hc;
      [apply Z.leb_le in Hc|apply Z.leb_gt in Hc].
    + assert (Hd : height_a t_new = height_a r + 2) by lia.
      destruct (rotate_avl_left p t_new k d h r Hnew Hr Hd) as [Ha Hht].
      apply (avl_plug_replace c (T p t_old k d h r)); [exact Hold|exact Ha|].
      cbn [height_a]. destruct Hht as [Hht|[Hz Hht]]; [lia|].
      destruct Hh as [Hh|[Hh [Hg|Hg]]]; lia.
    + apply (IH (T p t_old k d h r)); [exact Hold| |].
      * cbn [updateHeight_a avl]. rewrite MAX_max. repeat split; try assumption; lia.
      * cbn [updateHeight_a height_a bf_a]. rewrite MAX_max. lia.
  - destruct Hf as (Hhh & Hb & Hl & Ht).
    pose proof (avl_height_lower l Hl) as Hll.
    cbn [bf_a height_a].
    destruct (2 <=? Z.abs (height_a l - height_a t_new)) eqn:Hc;
      [apply Z.leb_le in Hc|apply Z.leb_gt in Hc].
    + assert (Hd : height_a t_new = height_a l + 2) by lia.
      destruct (rotate_avl_right p l k d h t_new Hl Hnew Hd) as [Ha Hht].
      apply (avl_plug_replace c (T p l k d h t_old)); [exact Hold|exact Ha|].
      cbn [height_a]. destruct Hht as [Hht|[Hz Hht]]; [lia|].
      destruct Hh as [Hh|[Hh [Hg|Hg]]]; lia.
    + apply (IH (T p l k d h t_old)); [exact Hold| |].
      * cbn [updateHeight_a avl]. rewrite MAX_max. repeat split; try assumption; lia.
      * cbn [updateHeight_a height_a bf_a]. rewrite MAX_max. lia.
Qed.

Lemma insert_a_avl p k d t : avl t -> avl (insert_a p k d t).
Proof.
  intros Ht. destruct t as [|q l k' d' h r].
  - simpl. lia.
  - unfold insert_a.
    apply (balanceInsert_avl _ E).
    + rewrite plug_descend. exact Ht.
    + simpl. lia.
    + right. simpl. lia.
Qed.

(** ** The walk after a deletion *)

Lemma rebalance_step_avl p l k d h r :
  avl l -> avl r -> -2 <= height_a l - height_a r <= 2 ->
  avl (rebalance_step (T p l k d h r))
  /\ (height_a (rebalance_step (T p l k d h r)) = 1 + Z.max (height_a l) (height_a r)
      \/ (Z.abs (height_a l - height_a r) = 2
          /\ height_a (rebalance_step (T p l k d h r)) = Z.max (height_a l) (height_a r))).
Proof.
  intros Hl Hr Hb. unfold rebalance_step. cbn [bf_a height_a].
  destruct (2 <=? Z.abs (height_a l - height_a r)) eqn:Hc;
    [apply Z.leb_le in Hc|apply Z.leb_gt in Hc].
  - destruct (Z.eq_dec (height_a l) (height_a r + 2)) as [Hd|Hd].
    + destruct (rotate_avl_left p l k d h r Hl Hr Hd) as [Ha Hh].
      split; [exact Ha|]. destruct Hh as [Hh|[_ Hh]]; lia.
    + assert (Hd' : height_a r = height_a l + 2) by lia.
      destruct (rotate_avl_right p l k d h r Hl Hr Hd') as [Ha Hh].
      split; [exact Ha|]. destruct Hh as [Hh|[_ Hh]]; lia.
  - cbn [updateHeight_a avl height_a]. rewrite MAX_max.
    split; [repeat split; try assumption; lia|]. left. lia.
Qed.

Lemma balanceDelete_avl c : forall t_old t_new,
  avl (plug c t_old) -> avl t_new ->
  (height_a t_new = height_a t_old \/ height_a t_new = height_a t_old - 1) ->
  avl (balanceDelete_a c t_new).
Proof.
  induction c as [|f c IH]; intros t_old t_new Hold Hnew Hh; [exact Hnew|].
  rewrite balanceDelete_a_step. cbn [plug] in Hold.
  pose proof (avl_plug_inner c _ Hold) as Hf.
  destruct f as [p k d h r|p l k d h]; cbn [fill] in *.
  - destruct Hf as (Hhh & Hb & Ht & Hr).
    destruct (rebalance_step_avl p t_new k d h r Hnew Hr) as [Ha Hht]; [lia|].
    apply (IH (T p t_old k d h r)); [exact Hold|exact Ha|]. cbn [height_a]. lia.
  - destruct Hf as (Hhh & Hb & Hl & Ht).
    destruct (rebalance_step_avl p l k d h t_new Hl Hnew) as [Ha Hht]; [lia|].
    apply (IH (T p l k d h t_old)); [exact Hold|exact Ha|]. cbn [height_a]. lia.
Qed.

(** The walk changes nothing above a subtree that kept its height. *)
Lemma balanceDelete_same_height c : forall t_old t_new,
  avl (plug c t_old) -> height_a t_new = height_a t_old ->
  balanceDelete_a c t_new = plug c t_new.
Proof.
  induction c as [|f c IH]; intros t_old t_new Hold Hh; [reflexivity|].
  rewrite balanceDelete_a_step. cbn [plug] in *.
  pose proof (avl_plug_inner c _ Hold) as Hf.
  assert (Hstep : rebalance_step (fill f t_new) = fill f t_new).
  { unfold rebalance_step.
    destruct f as [p k d h r|p l k d h]; cbn [fill bf_a height_a updateHeight_a] in *;
      destruct Hf as (Hhh & Hb & _ & _); rewrite Hh, MAX_max.
    - replace (2 <=? Z.abs (height_a t_old - height_a r)) with false
        by (symmetry; apply Z.leb_gt; lia).
      f_equal. lia.
    - replace (2 <=? Z.abs (height_a l - height_a t_old)) with false
        by (symmetry; apply Z.leb_gt; lia).
      f_equal. lia. }
  rewrite Hstep. apply (IH (fill f t_old)); [exact Hold|apply height_fill].
Qed.

(** * Balance after a deletion *)

Lemma avl_payload c p l k d h r k' d' :
  avl (plug c (T p l k d h r)) -> avl (plug c (T p l k' d' h r)).
Proof.
  intros H. apply (avl_plug_replace c (T p l k d h r)); [exact H| |reflexivity].
  apply avl_plug_inner in H. exact H.
Qed.

Lemma avl_swap c ci p pm ml km dm hm mr k d h r :
  avl (plug c (T p (plug ci (T pm ml km dm hm mr)) k d h r)) ->
  avl (plug (ci ++ FL p km dm h r :: c) (T pm ml k d hm mr)).
Proof.
  intros H. rewrite plug_app. cbn [plug fill].
  apply (avl_payload c p _ k d h r km dm) in H.
  apply (avl_plug_replace (FL p km dm h r :: c) (plug ci (T pm ml km dm hm mr))).
  - exact H.
  - apply (avl_payload ci pm ml km dm hm mr k d).
    apply (avl_plug_inner (FL p km dm h r :: c)). exact H.
  - apply height_plug. reflexivity.
Qed.

Lemma avl_leaf_son p l k d h r :
  avl (T p l k d h r) -> l = E \/ r = E -> l <> E \/ r <> E ->
  h = 1 /\ exists ps ks ds,
    (l = T ps E ks ds 0 E /\ r = E) \/ (l = E /\ r = T ps E ks ds 0 E).
Proof.
  intros (Hh & Hb & Hl & Hr) Hone Hson.
  assert (Hleaf : forall s, avl s -> s <> E -> height_a s <= 0 ->
                    exists ps ks ds, s = T ps E ks ds 0 E).
  { intros s Hs Hne Hle. destruct s as [|ps sl ks ds hs sr]; [congruence|].
    destruct Hs as (Hhs & _ & Hsl & Hsr).
    pose proof (avl_height_lower sl Hsl). pose proof (avl_height_lower sr Hsr).
    cbn [height_a] in Hle.
    rewrite (avl_height_E sl Hsl), (avl_height_E sr Hsr) by lia.
    exists ps, ks, ds. f_equal. simpl in Hhs.
    rewrite (avl_height_E sl Hsl), (avl_height_E sr Hsr) in Hhs by lia. simpl in Hhs. lia. }
  destruct Hone as [-> | ->].
  - destruct Hson as [Hson|Hson]; [congruence|].
    destruct (Hleaf r Hr Hson) as (ps & ks & ds & ->); [simpl in Hb; lia|].
    split; [simpl in Hh; lia|]. exists ps, ks, ds. right. auto.
  - destruct Hson as [Hson|Hson]; [|congruence].
    destruct (Hleaf l Hl Hson) as (ps & ks & ds & ->); [simpl in Hb; lia|].
    split; [simpl in Hh; lia|]. exists ps, ks, ds. left. auto.
Qed.

Lemma heights_consistent_fill_inner f t :
  heights_consistent (fill f t) = true -> heights_consistent t = true.
Proof.
  destruct f; simpl; intros H;
    apply andb_true_iff in H as [H Hr]; apply andb_true_iff in H as [_ Hl]; assumption.
Qed.

Lemma heights_consistent_plug_inner c : forall t,
  heights_consistent (plug c t) = true -> heights_consistent t = true.
Proof.
  induction c as [|f c IH]; intros t H; simpl in H; [exact H|].
  apply (heights_consistent_fill_inner f). apply IH. exact H.
Qed.

(** Cutting a node without a son keeps the invariant; cutting a node
    with one son leaves that node with the height it had. *)
Lemma cutOneSonNode_a_avl c p l k d h r :
  l = E \/ r = E -> avl (plug c (T p l k d h r)) ->
  (is_leaf (T p l k d h r) = true -> avl (fst (cutOneSonNode_a c (T p l k d h r))))
  /\ (is_leaf (T p l k d h r) = false ->
      heights_consistent (fst (cutOneSonNode_a c (T p l k d h r))) = false).
Proof.
  intros Hone Havl. pose proof (avl_plug_inner c _ Havl) as Hn. split.
  - intros Hleaf. assert (l = E /\ r = E) as [-> ->].
    { destruct l, r; try discriminate; auto. }
    cbn [cutOneSonNode_a fst].
    apply (balanceDelete_avl c (T p E k d h E) E); [exact Havl|exact I|].
    destruct Hn as (Hh & _). simpl in *. lia.
  - intros Hleaf.
    destruct (avl_leaf_son p l k d h r Hn Hone) as (-> & ps & ks & ds & Hcase).
    { destruct l, r; try discriminate; try (right; discriminate); left; discriminate. }
    assert (Hcut : fst (cutOneSonNode_a c (T p l k d 1 r))
                   = balanceDelete_a c (T p E ks ds 1 E)).
    { destruct Hcase as [[-> ->]|[-> ->]]; reflexivity. }
    rewrite Hcut.
    rewrite (balanceDelete_same_height c (T p l k d 1 r)); [|exact Havl|reflexivity].
    destruct (heights_consistent (plug c (T p E ks ds 1 E))) eqn:Hc; [|reflexivity].
    apply heights_consistent_plug_inner in Hc. simpl in Hc. discriminate.
Qed.

Lemma delete_a_avl key t t' pf u :
  avl t -> delete_a key t = Some (t', pf) -> unlinked key t = Some u ->
  (is_leaf u = true -> avl t')
  /\ (is_leaf u = false -> heights_consistent t' = false).
Proof.
  intros Havl. unfold delete_a, unlinked.
  destruct (find key t []) as [[c tf]|] eqn:Hfind; [|discriminate].
  pose proof (find_Some _ _ _ _ _ Hfind) as (Hplug & _ & (p & l & d & h & r & ->)).
  simpl in Hplug. rewrite <- Hplug in Havl.
  destruct l as [|pl ll kl dl hl lr] eqn:El.
  { intros H0 [= <-].
    assert (H : cutOneSonNode_a c (T p E key d h r) = (t', pf)) by congruence.
    pose proof (cutOneSonNode_a_avl c p E key d h r (or_introl eq_refl) Havl) as Hc.
    rewrite H in Hc. exact Hc. }
  destruct r as [|pr rl kr dr hr rr] eqn:Er.
  { intros H0 [= <-].
    assert (H : cutOneSonNode_a c (T p (T pl ll kl dl hl lr) key d h E) = (t', pf))
      by congruence.
    pose proof (cutOneSonNode_a_avl c p _ key d h E (or_intror eq_refl) Havl) as Hc.
    rewrite H in Hc. exact Hc. }
  rewrite <- El. rewrite <- El in Havl. rewrite <- Er. rewrite <- Er in Havl.
  assert (Hl : l <> E) by (rewrite El; discriminate).
  clear El Er.
  destruct (maxKeySon_a l []) as [ci m] eqn:Hmax.
  apply maxKeySon_spec in Hmax as (Hpl & (ci' & Hci & Hall) & (pm & ml & km & dm & hm & ->));
    [|exact Hl].
  rewrite app_nil_r in Hci. subst ci'. simpl in Hpl.
  cbn [payload set_payload snd].
  intros H0 [= <-].
  assert (H : cutOneSonNode_a (ci ++ FL p km dm h r :: c) (T pm ml key d hm E) = (t', pf))
    by congruence.
  rewrite <- Hpl in Havl. apply avl_swap in Havl.
  pose proof (cutOneSonNode_a_avl _ pm ml key d hm E (or_intror eq_refl) Havl) as Hc.
  rewrite H in Hc. exact Hc.
Qed.

Lemma unlinked_present key t :
  sorted_keys (entries t) -> In key (map fst (entries t)) ->
  exists u, unlinked key t = Some u.
Proof.
  intros Hs Hk. unfold unlinked.
  destruct (find_In key t [] Hs Hk) as (c & tf & Hfind). rewrite Hfind.
  apply find_Some in Hfind as (_ & _ & (p & l & d & h & r & ->)).
  destruct l, r; eauto.
Qed.

(** * The breadth-first order *)

Lemma total_size_app ts us : total_size (ts ++ us) = (total_size ts + total_size us)%nat.
Proof. unfold total_size. rewrite flat_map_app, length_app. reflexivity. Qed.

Lemma total_size_cons t ts : total_size (t :: ts) = (length (ptrs t) + total_size ts)%nat.
Proof. unfold total_size. simpl. rewrite length_app. reflexivity. Qed.

Lemma total_size_nonempty t : total_size (nonempty t) = length (ptrs t).
Proof. destruct t; [reflexivity|]. unfold total_size. simpl. rewrite app_nil_r. reflexivity. Qed.

Lemma total_size_sons dr p l k d h r :
  total_size (sons dr (T p l k d h r)) = (length (ptrs l) + length (ptrs r))%nat.
Proof.
  destruct dr; simpl; rewrite total_size_app, !total_size_nonempty; lia.
Qed.

Lemma Forall_nonempty t : Forall (fun t => t <> E) (nonempty t).
Proof. destruct t; constructor; [discriminate|constructor]. Qed.

Lemma Forall_sons dr t : Forall (fun t => t <> E) (sons dr t).
Proof.
  destruct t as [|p l k d h r]; [constructor|].
  destruct dr; simpl; apply Forall_app; split; apply Forall_nonempty.
Qed.

Lemma Forall_flat_sons dr ts : Forall (fun t => t <> E) (flat_map (sons dr) ts).
Proof.
  induction ts as [|t ts IH]; simpl; [constructor|].
  apply Forall_app. split; [apply Forall_sons|exact IH].
Qed.

Lemma total_size_length ts :
  Forall (fun t => t <> E) ts -> (length ts <= total_size ts)%nat.
Proof.
  induction 1 as [|t ts Ht _ IH]; [simpl; lia|].
  rewrite total_size_cons. destruct t; [congruence|]. simpl. lia.
Qed.

Lemma total_size_flat_sons dr ts :
  Forall (fun t => t <> E) ts ->
  (total_size (flat_map (sons dr) ts) + length ts = total_size ts)%nat.
Proof.
  induction 1 as [|t ts Ht _ IH]; [reflexivity|].
  cbn [flat_map]. rewrite total_size_app, total_size_cons.
  destruct t as [|p l k d h r]; [congruence|].
  rewrite total_size_sons. simpl. rewrite length_app. lia.
Qed.

Lemma total_size_zero ts :
  Forall (fun t => t <> E) ts -> total_size ts = 0%nat -> ts = [].
Proof.
  intros H Hz. pose proof (total_size_length ts H) as Hl.
  destruct ts; [reflexivity|simpl in Hl; lia].
Qed.

(** ** Levels *)

Lemma at_depth_nonempty dr n t : flat_map (at_depth dr n) (nonempty t) = at_depth dr n t.
Proof. destruct t; [destruct n; reflexivity|]. simpl. apply app_nil_r. Qed.

Lemma at_depth_S dr n t : at_depth dr (S n) t = flat_map (at_depth dr n) (sons dr t).
Proof.
  destruct t as [|p l k d h r]; [reflexivity|].
  destruct dr; simpl; rewrite flat_map_app, !at_depth_nonempty; reflexivity.
Qed.

Lemma at_depth_forest_S dr n ts :
  flat_map (at_depth dr (S n)) ts = flat_map (at_depth dr n) (flat_map (sons dr) ts).
Proof.
  induction ts as [|t ts IH]; [reflexivity|].
  cbn [flat_map]. rewrite flat_map_app, IH, at_depth_S. reflexivity.
Qed.

Lemma at_depth_forest_0 dr ts :
  Forall (fun t => t <> E) ts -> flat_map (at_depth dr 0) ts = ts.
Proof.
  induction 1 as [|t ts Ht _ IH]; [reflexivity|].
  cbn [flat_map]. rewrite IH. destruct t; [congruence|]. reflexivity.
Qed.

(** The levels of a forest, down to a depth. *)
Lemma levels_S dr N ts :
  Forall (fun t => t <> E) ts ->
  flat_map (fun n => flat_map (at_depth dr n) ts) (seq 0 (S N))
  = ts ++ flat_map (fun n => flat_map (at_depth dr n) (flat_map (sons dr) ts)) (seq 0 N).
Proof.
  intros Hts. cbn [seq flat_map]. rewrite (at_depth_forest_0 dr ts Hts). f_equal.
  rewrite <- seq_shift. rewrite flat_map_concat_map, map_map, <- flat_map_concat_map.
  apply flat_map_ext. intros n. apply at_depth_forest_S.
Qed.

Lemma levels_nil dr N :
  flat_map (fun n => flat_map (at_depth dr n) []) (seq 0 N) = [].
Proof.
  generalize 0%nat. induction N as [|N IH]; intros s; [reflexivity|]. simpl. apply IH.
Qed.

(** The queue visits the forest level by level. *)
Lemma bfs_a_levels dr : forall steps ts ps N,
  Forall (fun t => t <> E) ts ->
  (total_size (ts ++ flat_map (sons dr) ps) <= steps)%nat ->
  (total_size (flat_map (sons dr) (ps ++ ts)) <= N)%nat ->
  bfs_a steps dr (ts ++ flat_map (sons dr) ps)
  = ts ++ flat_map (fun n => flat_map (at_depth dr n) (flat_map (sons dr) (ps ++ ts)))
            (seq 0 N).
Proof.
  induction steps as [|steps IH]; intros ts ps N Hts Hsteps HN.
  - assert (Hnil : ts ++ flat_map (sons dr) ps = []).
    { apply total_size_zero; [|lia].
      apply Forall_app. split; [exact Hts|apply Forall_flat_sons]. }
    apply app_eq_nil in Hnil as [-> Hps]. simpl.
    rewrite app_nil_r, Hps. rewrite levels_nil. reflexivity.
  - assert (Hcons : forall t ts' ps N,
              Forall (fun t => t <> E) (t :: ts') ->
              (total_size ((t :: ts') ++ flat_map (sons dr) ps) <= S steps)%nat ->
              (total_size (flat_map (sons dr) (ps ++ t :: ts')) <= N)%nat ->
              bfs_a (S steps) dr ((t :: ts') ++ flat_map (sons dr) ps)
              = (t :: ts') ++ flat_map (fun n => flat_map (at_depth dr n)
                                          (flat_map (sons dr) (ps ++ t :: ts')))
                                (seq 0 N)).
    { clear ts ps N Hts Hsteps HN. intros t ts' ps N Hts Hsteps HN.
      apply Forall_cons in Hts as [Ht Hts'].
      cbn [app bfs_a]. f_equal.
      rewrite <- app_assoc.
      replace (flat_map (sons dr) ps ++ sons dr t)
        with (flat_map (sons dr) (ps ++ [t]))
        by (rewrite flat_map_app; simpl; rewrite app_nil_r; reflexivity).
      replace (ps ++ t :: ts') with ((ps ++ [t]) ++ ts') in *
        by (rewrite <- app_assoc; reflexivity).
      apply IH; [exact Hts'| |exact HN].
      cbn [app] in Hsteps. rewrite total_size_cons in Hsteps.
      rewrite total_size_app in *. rewrite flat_map_app, total_size_app. simpl.
      rewrite app_nil_r.
      destruct t as [|p l k d h r]; [congruence|].
      rewrite total_size_sons. simpl in Hsteps. rewrite length_app in Hsteps. lia. }
    destruct ts as [|t ts'].
    + cbn [app] in *. rewrite app_nil_r in HN |- *.
      destruct (flat_map (sons dr) ps) as [|u us] eqn:Hq.
      * cbn [bfs_a]. rewrite levels_nil. reflexivity.
      * assert (Hne : Forall (fun t => t <> E) (u :: us)).
        { rewrite <- Hq. apply Forall_flat_sons. }
        pose proof (total_size_flat_sons dr (u :: us) Hne) as Hsz.
        destruct N as [|N]; [cbn [length] in Hsz; lia|].
        rewrite (levels_S dr N (u :: us) Hne).
        specialize (Hcons u us [] N Hne). cbn [flat_map] in Hcons.
        rewrite !app_nil_r in Hcons. cbn [app] in Hcons.
        apply Hcons; [exact Hsteps|]. cbn [app]. cbn [length] in Hsz. lia.
    + apply Hcons; assumption.
Qed.

Lemma at_depth_beyond dr t : forall n, (length (ptrs t) <= n)%nat -> at_depth dr n t = [].
Proof.
  induction t as [|p l IHl k d h r IHr]; intros n Hn; [reflexivity|].
  simpl in Hn. rewrite length_app in Hn.
  destruct n as [|n]; [lia|]. simpl.
  rewrite IHl, IHr by lia. destruct dr; reflexivity.
Qed.

Lemma bfs_a_level_order dr t :
  bfs_a (length (ptrs t)) dr (nonempty t) = level_order dr t.
Proof.
  unfold level_order. destruct t as [|p l k d h r]; [reflexivity|].
  set (t := T p l k d h r).
  assert (Hne : Forall (fun t => t <> E) [t]) by (constructor; [discriminate|constructor]).
  pose proof (bfs_a_levels dr (length (ptrs t)) [t] [] (length (ptrs l ++ ptrs r))) as H.
  change ([] ++ [t]) with [t] in H.
  change ([t] ++ flat_map (sons dr) []) with [t] in H.
  change (nonempty t) with [t].
  rewrite H.
  - change (length (ptrs t)) with (S (length (ptrs l ++ ptrs r))).
    rewrite <- (levels_S dr _ [t] Hne).
    apply flat_map_ext. intros n. simpl. apply app_nil_r.
  - exact Hne.
  - unfold total_size. simpl. rewrite app_nil_r. lia.
  - cbn [flat_map]. rewrite app_nil_r. unfold t. rewrite total_size_sons, length_app. lia.
Qed.

(** Every node is visited once. *)
Lemma bfs_a_perm dr : forall steps queue,
  Forall (fun t => t <> E) queue ->
  (total_size queue <= steps)%nat ->
  flat_map (fun t => match root t with Some p => [p] | None => [] end) (bfs_a steps dr queue)
  ≡ₚ flat_map ptrs queue.
Proof.
  induction steps as [|steps IH]; intros queue Hq Hs.
  - rewrite (total_size_zero queue Hq) by lia. reflexivity.
  - destruct queue as [|t q]; [reflexivity|].
    apply Forall_cons in Hq as [Ht Hq].
    destruct t as [|p l k d h r]; [congruence|].
    cbn [bfs_a flat_map]. rewrite IH.
    + simpl. apply perm_skip. rewrite flat_map_app.
      rewrite (Permutation_app_comm (flat_map ptrs q)). apply Permutation_app_tail.
      destruct dr; simpl; rewrite flat_map_app.
      * destruct l, r; simpl; rewrite ?app_nil_r; reflexivity.
      * destruct l, r; simpl; rewrite ?app_nil_r; try reflexivity.
        rewrite (app_comm_cons _ _ p1). rewrite (app_comm_cons _ _ p0).
        apply Permutation_app_comm.
    + apply Forall_app. split; [exact Hq|apply Forall_sons].
    + rewrite total_size_app. rewrite total_size_cons in Hs.
      rewrite total_size_sons. simpl in Hs. rewrite length_app in Hs. lia.
Qed.

(** * The breadth-first search on the heap *)

Lemma enqueue_run (pre rest : list (option cval)) s :
  (length (nonempty s) <= length rest)%nat ->
  match root s with
  | Some s' =>
      b ← buf_write (pre ++ rest) (Z.of_nat (length pre)) (Some (VNode s'));
      Some (b, Z.of_nat (length pre) + 1)
  | None => Some (pre ++ rest, Z.of_nat (length pre))
  end
  = Some ((pre ++ map (node_val (fun p _ _ => VNode p)) (nonempty s))
            ++ drop (length (nonempty s)) rest,
          Z.of_nat (length (pre ++ map (node_val (fun p _ _ => VNode p)) (nonempty s)))).
Proof.
  intros Hlen. destruct s as [|p l k d h r]; simpl.
  - rewrite !app_nil_r. reflexivity.
  - destruct rest as [|x rest]; [simpl in Hlen; lia|].
    rewrite buf_write_middle. simpl. rewrite drop_0, <- app_assoc, length_app. simpl.
    f_equal. f_equal. lia.
Qed.

Lemma enqueue2_run (pre rest : list (option cval)) s1 s2 :
  (length (nonempty s1 ++ nonempty s2) <= length rest)%nat ->
  (match root s1 with
   | Some s =>
       buf_write (pre ++ rest, Z.of_nat (length pre)).1
         (pre ++ rest, Z.of_nat (length pre)).2 (Some (VNode s))
       ≫= λ b : list (option cval), Some (b, (pre ++ rest, Z.of_nat (length pre)).2 + 1)
   | None => Some (pre ++ rest, Z.of_nat (length pre))
   end
   ≫= λ st : list (option cval) * Z,
        match root s2 with
        | Some s =>
            buf_write st.1 st.2 (Some (VNode s))
            ≫= λ b : list (option cval), Some (b, st.2 + 1)
        | None => Some st
        end)
  = Some ((pre ++ map (node_val (fun p _ _ => VNode p)) (nonempty s1 ++ nonempty s2))
            ++ drop (length (nonempty s1 ++ nonempty s2)) rest,
          Z.of_nat (length (pre ++ map (node_val (fun p _ _ => VNode p))
                                   (nonempty s1 ++ nonempty s2)))).
Proof.
  intros Hlen. cbn [fst snd].
  pose proof (enqueue_run pre rest s1) as H1.
  rewrite length_app in Hlen.
  rewrite H1 by lia. cbn [mbind option_bind fst snd].
  pose proof (enqueue_run (pre ++ map (node_val (fun p _ _ => VNode p)) (nonempty s1))
                (drop (length (nonempty s1)) rest) s2) as H2.
  rewrite H2 by (rewrite length_drop; lia).
  f_equal. f_equal.
  - rewrite map_app, drop_drop, length_app, <- !app_assoc. reflexivity.
  - rewrite map_app, <- !app_assoc. reflexivity.
Qed.

Lemma strBFS_loop_run dr pj (hp : heap) : forall steps queue done rest,
  Forall (fun t => t <> E /\ exists fa, rep hp fa t) queue ->
  total_size queue = steps ->
  (length queue + length rest = steps)%nat ->
  strBFS_loop steps hp (direction_flag dr) (projection_flag pj)
    (done ++ map (node_val (fun p _ _ => VNode p)) queue ++ rest)
    (Z.of_nat (length done)) (Z.of_nat (length done + length queue))
  = Some (done ++ map (node_val (proj_val pj)) (bfs_a steps dr queue)).
Proof.
  induction steps as [|steps IH]; intros queue done rest Hq Hsize Hlen.
  - destruct queue; [|simpl in Hlen; lia]. destruct rest; [|simpl in Hlen; lia].
    simpl. rewrite !app_nil_r. reflexivity.
  - destruct queue as [|t q]; [discriminate|].
    apply Forall_cons in Hq as [[Ht [fa Hrep]] Hq].
    destruct t as [|p l k d h r]; [congruence|].
    destruct Hrep as (Hp & Hl & Hr).
    cbn [strBFS_loop map node_val]. rewrite <- app_comm_cons.
    rewrite Nat2Z.id, list_lookup_middle by reflexivity.
    cbn [mbind option_bind]. rewrite Hp. cbn [mbind option_bind]. fields.
    rewrite cascade_projection, projection_of_flag.
    match goal with
    | |- mbind _ ?m = _ =>
        replace m with (buf_write (done ++ Some (VNode p)
                          :: map (node_val (fun p _ _ => VNode p)) q ++ rest)
                          (Z.of_nat (length done)) (Some (proj_val pj p k d)))
          by (destruct pj; reflexivity)
    end.
    rewrite buf_write_middle. cbn [mbind option_bind].
    rewrite cascade_direction, direction_of_flag.
    set (v := Some (proj_val pj p k d)).
    set (cell := node_val (fun p _ _ => VNode p)).
    set (pre := done ++ v :: map cell q).
    replace (done ++ v :: map cell q ++ rest) with (pre ++ rest)
      by (unfold pre; rewrite <- app_assoc; reflexivity).
    replace (Z.of_nat (length done + length (T p l k d h r :: q)))
      with (Z.of_nat (length pre))
      by (unfold pre; rewrite length_app; simpl; rewrite length_map; f_equal; lia).
    assert (Hrest : (length (sons dr (T p l k d h r)) <= length rest)%nat).
    { pose proof (total_size_length (sons dr (T p l k d h r)) (Forall_sons dr _)) as H1.
      rewrite total_size_sons in H1.
      assert (Hq' : Forall (fun t => t <> E) q).
      { eapply Forall_impl; [exact Hq|]. intros t [H _]. exact H. }
      pose proof (total_size_length q Hq') as H2.
      rewrite total_size_cons in Hsize. simpl in Hsize, Hlen.
      rewrite length_app in Hsize. lia. }
    assert (Hrun : forall s1 s2, sons dr (T p l k d h r) = nonempty s1 ++ nonempty s2 ->
              strBFS_loop steps hp (direction_flag dr) (projection_flag pj)
                ((pre ++ map cell (nonempty s1 ++ nonempty s2))
                   ++ drop (length (nonempty s1 ++ nonempty s2)) rest)
                (Z.of_nat (length done) + 1)
                (Z.of_nat (length (pre ++ map cell (nonempty s1 ++ nonempty s2))))
              = Some (done ++ map (node_val (proj_val pj))
                                (bfs_a (S steps) dr (T p l k d h r :: q)))).
    { intros s1 s2 Hs. rewrite <- Hs.
      replace ((pre ++ map cell (sons dr (T p l k d h r)))
                 ++ drop (length (sons dr (T p l k d h r))) rest)
        with ((done ++ [v]) ++ map cell (q ++ sons dr (T p l k d h r))
                ++ drop (length (sons dr (T p l k d h r))) rest)
        by (unfold pre; rewrite map_app, <- !app_assoc; reflexivity).
      replace (Z.of_nat (length done) + 1) with (Z.of_nat (length (done ++ [v])))
        by (rewrite length_app; simpl; lia).
      replace (Z.of_nat (length (pre ++ map cell (sons dr (T p l k d h r)))))
        with (Z.of_nat (length (done ++ [v]) + length (q ++ sons dr (T p l k d h r))))
        by (unfold pre; rewrite !length_app; cbn [length]; rewrite !length_map;
            f_equal; lia).
      rewrite IH.
      - cbn [bfs_a map node_val]. rewrite <- app_assoc. reflexivity.
      - apply Forall_app. split; [exact Hq|].
        destruct dr; cbn [sons]; apply Forall_app; split.
        + destruct l; constructor; [|constructor]. split; [discriminate|eauto].
        + destruct r; constructor; [|constructor]. split; [discriminate|eauto].
        + destruct r; constructor; [|constructor]. split; [discriminate|eauto].
        + destruct l; constructor; [|constructor]. split; [discriminate|eauto].
      - rewrite total_size_app, total_size_sons.
        rewrite total_size_cons in Hsize. simpl in Hsize. rewrite length_app in Hsize. lia.
      - rewrite length_app, length_drop. simpl in Hlen. lia. }
    destruct dr.
    + rewrite (enqueue2_run pre rest l r) by exact Hrest.
      cbn [mbind option_bind]. apply (Hrun l r). reflexivity.
    + rewrite (enqueue2_run pre rest r l) by exact Hrest.
      cbn [mbind option_bind]. apply (Hrun r l). reflexivity.
Qed.

Lemma strBFS_run hp tr t dr pj :
  tree_inv hp tr t -> t <> E ->
  strBFS hp (Some tr) (direction_flag dr) (projection_flag pj) true
  = Some (Some (map (node_val (proj_val pj)) (level_order dr t))).
Proof.
  intros [Hrep Hnd Hroot Hcount Hcap Hh Hs] Hne.
  rewrite strBFS_cascade. rewrite Hroot.
  destruct t as [|p l k d h r]; [congruence|]. cbn [root].
  replace ((direction_flag dr <=? 0) || (projection_flag pj <=? 0)) with false
    by (destruct dr, pj; reflexivity).
  rewrite direction_of_flag, projection_of_flag. cbn [negb]. cbv zeta.
  set (t := T p l k d h r) in *.
  assert (Hn : Z.to_nat (nodesCount tr) = length (ptrs t)).
  { rewrite Hcount, Nat2Z.id. reflexivity. }
  rewrite Hn. change (length (ptrs t)) with (S (length (ptrs l ++ ptrs r))).
  cbn [replicate].
  pose proof (buf_write_middle [] (replicate (length (ptrs l ++ ptrs r)) None) None
                (Some (VNode p))) as Hw.
  cbn [app length] in Hw. change (Z.of_nat 0) with 0 in Hw. rewrite Hw.
  cbn [mbind option_bind].
  pose proof (strBFS_loop_run dr pj hp (S (length (ptrs l ++ ptrs r))) [t] []
                (replicate (length (ptrs l ++ ptrs r)) None)) as Hrun.
  cbn [app length map node_val] in Hrun. change (Z.of_nat 0) with 0 in Hrun.
  change (Z.of_nat (0 + 1)) with 1 in Hrun.
  change (node_val (fun p _ _ => VNode p) t) with (Some (VNode p)) in Hrun.
  rewrite Hrun.
  - cbn [mbind option_bind]. do 3 f_equal.
    change (S (length (ptrs l ++ ptrs r))) with (length (ptrs t)).
    apply (bfs_a_level_order dr t).
  - constructor; [|constructor]. split; [discriminate|]. exists None. exact Hrep.
  - unfold total_size. simpl. rewrite app_nil_r. reflexivity.
  - rewrite length_replicate. reflexivity.
Qed.

Lemma level_order_perm dr t :
  flat_map (fun t => match root t with Some p => [p] | None => [] end) (level_order dr t)
  ≡ₚ ptrs t.
Proof.
  rewrite <- bfs_a_level_order. rewrite bfs_a_perm.
  - destruct t; simpl; [reflexivity|]. rewrite app_nil_r. reflexivity.
  - apply Forall_nonempty.
  - rewrite total_size_nonempty. lia.
Qed.

Lemma level_order_nonempty dr t : Forall (fun t => t <> E) (level_order dr t).
Proof.
  unfold level_order. apply Forall_flat_map. apply Forall_forall. intros n _.
  revert n. induction t as [|p l IHl k d h r IHr]; intros n; [constructor|].
  destruct n as [|n]; simpl.
  - constructor; [discriminate|constructor].
  - destruct dr; apply Forall_app; split; auto.
Qed.

Lemma level_order_nodes dr t :
  map (node_val (fun p _ _ => VNode p)) (level_order dr t)
  = map (fun p => Some (VNode p))
      (flat_map (fun t => match root t with Some p => [p] | None => [] end)
         (level_order dr t)).
Proof.
  pose proof (level_order_nonempty dr t) as H.
  induction (level_order dr t) as [|u us IH]; [reflexivity|].
  apply Forall_cons in H as [Hu Hus]. destruct u; [congruence|].
  simpl. f_equal. apply IH. exact Hus.
Qed.

(** * [deleteStrTree] *)

Lemma deleteStrTree_loop_run opts : forall ps (done : list (option cval)) (hp : heap),
  NoDup ps -> (forall q, q ∈ ps -> is_Some (hp !! q)) ->
  exists hp',
    deleteStrTree_loop (length ps)
      (Some (done ++ map (fun p => Some (VNode p)) ps)) opts (Z.of_nat (length done)) hp
    = Some (tt, hp')
    /\ forall q, hp' !! q = if decide (q ∈ ps) then None else hp !! q.
Proof.
  induction ps as [|p ps IH]; intros done hp Hnd Hall.
  - exists hp. split; [reflexivity|]. intros q.
    destruct (decide (q ∈ [])) as [H|H]; [apply elem_of_nil in H; destruct H|reflexivity].
  - apply NoDup_cons in Hnd as [Hp Hnd].
    destruct (Hall p) as [n Hn]; [left|].
    destruct (IH (done ++ [Some (VNode p)]) (delete p hp) Hnd) as (hp' & Hrun & Hhp').
    { intros q Hq. rewrite lookup_delete_ne by (intros ->; contradiction).
      apply Hall. right. exact Hq. }
    exists hp'. split.
    + cbn [length deleteStrTree_loop map].
      rewrite Nat2Z.id, list_lookup_middle by reflexivity.
      assert (Hread : forall b : bool,
                (if b then deref (Some p) ;;; ret tt else ret tt) hp = Some (tt, hp)).
      { intros [|]; [|reflexivity]. unfold bind, deref. rewrite Hn. reflexivity. }
      unfold bind at 1. rewrite Hread. unfold bind at 1. rewrite Hread.
      unfold bind at 1. unfold _deleteStrNode, free. rewrite Hn.
      replace (Z.of_nat (length done) + 1)
        with (Z.of_nat (length (done ++ [Some (VNode p)])))
        by (rewrite length_app; simpl; lia).
      replace (done ++ Some (VNode p) :: map (fun p => Some (VNode p)) ps)
        with ((done ++ [Some (VNode p)]) ++ map (fun p => Some (VNode p)) ps)
        by (rewrite <- app_assoc; reflexivity).
      exact Hrun.
    + intros q. rewrite Hhp'.
      destruct (decide (q ∈ ps)) as [Hq|Hq].
      * destruct (decide (q ∈ p :: ps)) as [_|H]; [reflexivity|].
        exfalso. apply H. right. exact Hq.
      * destruct (decide (q = p)) as [->|Hne].
        -- rewrite lookup_delete_eq.
           destruct (decide (p ∈ p :: ps)) as [_|H]; [reflexivity|].
           exfalso. apply H. left.
        -- rewrite lookup_delete_ne by congruence.
           destruct (decide (q ∈ p :: ps)) as [H|_]; [|reflexivity].
           apply elem_of_cons in H as [H|H]; contradiction.
Qed.

Lemma deleteStrTree_run hp tr t opts :
  tree_inv hp tr t -> 0 <= opts ->
  exists hp',
    deleteStrTree (Some tr) opts true hp = Some ((0, None), hp')
    /\ forall q, hp' !! q = if decide (q ∈ ptrs t) then None else hp !! q.
Proof.
  intros Hinv Ho. unfold deleteStrTree.
  replace (opts <? 0) with false by (symmetry; apply Z.ltb_ge; exact Ho).
  rewrite (inv_root _ _ _ Hinv).
  destruct t as [|p l k d h r].
  - exists hp. split; [reflexivity|]. intros q.
    destruct (decide (q ∈ ptrs E)) as [H|H]; [apply elem_of_nil in H; destruct H|reflexivity].
  - cbn [root]. set (t := T p l k d h r) in *.
    assert (Hne : t <> E) by discriminate.
    pose proof (strBFS_run hp tr t LeftFirst PNodes Hinv Hne) as Hbfs.
    change (direction_flag LeftFirst) with BFS_LEFT_FIRST in Hbfs.
    change (projection_flag PNodes) with SEARCH_NODES in Hbfs.
    rewrite Hbfs.
    change (proj_val PNodes) with (fun (p : positive) (_ : string) (_ : Z) => VNode p).
    rewrite level_order_nodes.
    set (ps := flat_map (fun t => match root t with Some p => [p] | None => [] end)
                 (level_order LeftFirst t)).
    assert (Hperm : ps ≡ₚ ptrs t) by apply level_order_perm.
    assert (Hlen : Z.to_nat (nodesCount tr) = length ps).
    { rewrite (inv_count _ _ _ Hinv), Nat2Z.id, Hperm. reflexivity. }
    rewrite Hlen.
    destruct (deleteStrTree_loop_run opts ps [] hp) as (hp' & Hrun & Hhp').
    { rewrite Hperm. apply (inv_nodup _ _ _ Hinv). }
    { intros q Hq. rewrite Hperm in Hq.
      eapply rep_ptrs_dom; [apply (inv_rep _ _ _ Hinv)|exact Hq]. }
    cbn [app length] in Hrun. change (Z.of_nat 0) with 0 in Hrun.
    exists hp'. split.
    + unfold bind. rewrite Hrun. reflexivity.
    + intros q. rewrite Hhp'.
      destruct (decide (q ∈ ps)) as [H|H], (decide (q ∈ ptrs t)) as [H'|H']; try reflexivity.
      * exfalso. apply H'. rewrite <- Hperm. exact H.
      * exfalso. apply H. rewrite Hperm. exact H'.
Qed.

Lemma deleteStrTree_no_array hp tr t opts :
  tree_inv hp tr t -> t <> E -> 0 <= opts ->
  deleteStrTree (Some tr) opts false hp = None.
Proof.
  intros Hinv Hne Ho. unfold deleteStrTree.
  replace (opts <? 0) with false by (symmetry; apply Z.ltb_ge; exact Ho).
  rewrite (inv_root _ _ _ Hinv).
  destruct t as [|p l k d h r]; [congruence|]. cbn [root].
  rewrite strBFS_cascade. rewrite (inv_root _ _ _ Hinv). cbn [root].
  change ((BFS_LEFT_FIRST <=? 0) || (SEARCH_NODES <=? 0)) with false. cbv iota.
  change (direction_of BFS_LEFT_FIRST) with (Some LeftFirst).
  change (projection_of SEARCH_NODES) with (Some PNodes). cbn [negb].
  pose proof (inv_count _ _ _ Hinv) as Hc. simpl in Hc.
  unfold bind.
  destruct (Z.to_nat (nodesCount tr)) eqn:Hn; [lia|]. reflexivity.
Qed.

(** * The heap of a tree is determined by the tree *)

Lemma rep_cells_eq (hp hp' : heap) t : forall fa,
  rep hp fa t -> rep hp' fa t -> forall q, q ∈ ptrs t -> hp' !! q = hp !! q.
Proof.
  induction t as [|p l IHl k d h r IHr]; intros fa H H' q Hq; simpl in Hq.
  - apply elem_of_nil in Hq. destruct Hq.
  - destruct H as (Hp & Hl & Hr), H' as (Hp' & Hl' & Hr').
    apply elem_of_cons in Hq as [->|Hq]; [congruence|].
    apply elem_of_app in Hq as [Hq|Hq]; [eapply IHl|eapply IHr]; eassumption.
Qed.

Lemma rep_heap_eq (hp hp' : heap) fa t :
  rep hp fa t -> rep hp' fa t -> same_outside (ptrs t) hp hp' -> hp' = hp.
Proof.
  intros H H' [Hout _]. apply map_eq. intros q.
  destruct (decide (q ∈ ptrs t)) as [Hq|Hq].
  - eapply rep_cells_eq; eassumption.
  - apply Hout. exact Hq.
Qed.

Lemma avl_heights_nonneg t : avl t -> heights_nonneg t.
Proof.
  induction t as [|p l IHl k d h r IHr]; [intros _; exact I|].
  intros H. pose proof (avl_height_node _ _ _ _ _ _ H) as Hh.
  destruct H as (_ & _ & Hl & Hr). simpl. auto.
Qed.

(** * Cutting and hanging a subtree *)

Lemma cut_insert_left (hp : heap) f fn s sn :
  hp !! f = Some fn -> _leftSon fn = Some s ->
  hp !! s = Some sn -> _father sn = Some f -> s <> f ->
  exists hp1,
    _strCutLeftSubtree (Some f) hp = Some (Some s, hp1)
    /\ hp1 !! f = Some (set_leftSon None fn)
    /\ hp1 !! s = Some (set_father None sn)
    /\ (forall q, q <> f -> q <> s -> hp1 !! q = hp !! q)
    /\ _strInsertAsLeftSubtree (Some f) (Some s) hp1 = Some (tt, hp).
Proof.
  intros Hf Hl Hs Hfa Hne.
  exists (<[f := set_leftSon None fn]> (<[s := set_father None sn]> hp)).
  split; [|split; [|split; [|split]]].
  - unfold _strCutLeftSubtree. run. rewrite Hl. run.
  - lookup.
  - lookup.
  - intros q H1 H2. rewrite !lookup_insert_ne by congruence. reflexivity.
  - unfold _strInsertAsLeftSubtree, bind, modify.
    rewrite lookup_insert_ne by congruence. rewrite lookup_insert_eq.
    rewrite lookup_insert_ne by congruence. rewrite lookup_insert_eq.
    f_equal. f_equal. apply map_eq. intros q.
    destruct (decide (q = f)) as [->|Hqf]; [rewrite lookup_insert_eq|].
    { rewrite Hf. destruct fn. simpl in *. subst. reflexivity. }
    rewrite lookup_insert_ne by congruence.
    destruct (decide (q = s)) as [->|Hqs]; [rewrite lookup_insert_eq|].
    { rewrite Hs. destruct sn. simpl in *. subst. reflexivity. }
    rewrite !lookup_insert_ne by congruence. reflexivity.
Qed.

Lemma cut_insert_right (hp : heap) f fn s sn :
  hp !! f = Some fn -> _rightSon fn = Some s ->
  hp !! s = Some sn -> _father sn = Some f -> s <> f ->
  exists hp1,
    _strCutRightSubtree (Some f) hp = Some (Some s, hp1)
    /\ hp1 !! f = Some (set_rightSon None fn)
    /\ hp1 !! s = Some (set_father None sn)
    /\ (forall q, q <> f -> q <> s -> hp1 !! q = hp !! q)
    /\ _strInsertAsRightSubtree (Some f) (Some s) hp1 = Some (tt, hp).
Proof.
  intros Hf Hl Hs Hfa Hne.
  exists (<[f := set_rightSon None fn]> (<[s := set_father None sn]> hp)).
  split; [|split; [|split; [|split]]].
  - unfold _strCutRightSubtree. run. rewrite Hl. run.
  - lookup.
  - lookup.
  - intros q H1 H2. rewrite !lookup_insert_ne by congruence. reflexivity.
  - unfold _strInsertAsRightSubtree, bind, modify.
    rewrite lookup_insert_ne by congruence. rewrite lookup_insert_eq.
    rewrite lookup_insert_ne by congruence. rewrite lookup_insert_eq.
    f_equal. f_equal. apply map_eq. intros q.
    destruct (decide (q = f)) as [->|Hqf]; [rewrite lookup_insert_eq|].
    { rewrite Hf. destruct fn. simpl in *. subst. reflexivity. }
    rewrite lookup_insert_ne by congruence.
    destruct (decide (q = s)) as [->|Hqs]; [rewrite lookup_insert_eq|].
    { rewrite Hs. destruct sn. simpl in *. subst. reflexivity. }
    rewrite !lookup_insert_ne by congruence. reflexivity.
Qed.

(** * Exchanging the entries of two nodes *)

Lemma swapInfo_same (hp : heap) p pn :
  hp !! p = Some pn -> _strSwapInfo (Some p) (Some p) hp = Some (tt, hp).
Proof.
  intros Hp. unfold _strSwapInfo, bind, deref, modify.
  repeat (first [rewrite Hp | rewrite lookup_insert_eq]; cbv beta iota).
  f_equal. f_equal.
  apply map_eq. intros q. destruct (decide (q = p)) as [->|Hq].
  - rewrite lookup_insert_eq, Hp. destruct pn. reflexivity.
  - rewrite !lookup_insert_ne by congruence. reflexivity.
Qed.

Lemma swapInfo_twice (hp : heap) p pn q qn :
  hp !! p = Some pn -> hp !! q = Some qn ->
  (_strSwapInfo (Some p) (Some q) ;;; _strSwapInfo (Some p) (Some q)) hp = Some (tt, hp).
Proof.
  intros Hp Hq. destruct (decide (p = q)) as [->|Hne].
  - unfold bind. rewrite (swapInfo_same hp q qn Hq). apply (swapInfo_same hp q qn Hq).
  - unfold bind at 1. rewrite (swapInfo_run hp p pn q qn Hp Hq Hne).
    erewrite swapInfo_run; [| |apply lookup_insert_eq|exact Hne].
    2:{ rewrite lookup_insert_ne by congruence. apply lookup_insert_eq. }
    f_equal. f_equal. apply map_eq. intros x.
    destruct (decide (x = q)) as [->|Hxq]; [rewrite lookup_insert_eq|].
    { rewrite Hq. destruct qn. reflexivity. }
    rewrite lookup_insert_ne by congruence.
    destruct (decide (x = p)) as [->|Hxp]; [rewrite lookup_insert_eq|].
    { rewrite Hp. destruct pn. reflexivity. }
    rewrite !lookup_insert_ne by congruence. reflexivity.
Qed.

(** * A rotation and the opposite rotation *)

Lemma rotations_inverse_a n l a kl dl hl b kn dn hn c :
  hl = 1 + Z.max (height_a a) (height_a b) ->
  hn = 1 + Z.max hl (height_a c) ->
  leftRotation_a (rightRotation_a (T n (T l a kl dl hl b) kn dn hn c))
  = T n (T l a kl dl hl b) kn dn hn c.
Proof.
  intros Hl Hn. cbn [rightRotation_a updateHeight_a leftRotation_a height_a].
  rewrite !MAX_max. f_equal; [f_equal|]; lia.
Qed.

Lemma rotations_inverse_b n a kn dn hn r b kr dr hr c :
  hr = 1 + Z.max (height_a b) (height_a c) ->
  hn = 1 + Z.max (height_a a) hr ->
  rightRotation_a (leftRotation_a (T n a kn dn hn (T r b kr dr hr c)))
  = T n a kn dn hn (T r b kr dr hr c).
Proof.
  intros Hr Hn. cbn [rightRotation_a updateHeight_a leftRotation_a height_a].
  rewrite !MAX_max. f_equal; [|f_equal]; lia.
Qed.

(** * The greatest key of a subtree *)

Lemma maxKeySon_a_last t : forall c c' p l k d h,
  maxKeySon_a t c = (c', T p l k d h E) -> t <> E ->
  exists pre, entries t = pre ++ [(k, d)] /\ p ∈ ptrs t.
Proof.
  induction t as [|q tl IHl kq dq hq tr IHr]; intros c c' p l k d h Hm Hne; [congruence|].
  cbn [maxKeySon_a] in Hm. destruct tr as [|qr rl kr dr hr rr].
  - injection Hm as <- <- <- <- <- <-. exists (entries tl). split; [reflexivity|]. left.
  - destruct (IHr _ _ _ _ _ _ _ Hm) as (pre & He & Hp); [discriminate|].
    exists (entries tl ++ (kq, dq) :: pre). split.
    + cbn [entries] in *. rewrite He, <- app_assoc. reflexivity.
    + apply in_ptrs_T_r. exact Hp.
Qed.

Lemma sorted_keys_last pre k d :
  sorted_keys (pre ++ [(k, d)]) -> forall e, In e (pre ++ [(k, d)]) -> key_le (fst e) k.
Proof.
  intros Hs e He. apply in_app_iff in He as [He|[<-|[]]]; [|apply key_le_refl].
  apply sorted_keys_app in Hs as (_ & _ & H). apply (H e (k, d) He). left. reflexivity.
Qed.

(** * The searches of the whole tree *)






(** * [deleteStrTree] *)


(** X10.  [deleteStrTree] returns -1 and changes nothing for a NULL tree
    and for negative options.  It does not test the array that [strBFS]
    returns: when that array cannot be allocated for a tree with a node,
    the loop reads through the NULL pointer and the call has no
    result. *)
Theorem deleteStrTree_failures hp tr t opts :
  tree_inv hp tr t ->
  (forall ok, deleteStrTree None opts ok hp = Some ((-1, None), hp))
  /\ (opts < 0 -> forall ok, deleteStrTree (Some tr) opts ok hp = Some ((-1, Some tr), hp))
  /\ (0 <= opts -> t <> E -> deleteStrTree (Some tr) opts false hp = None)
  /\ (0 <= opts -> t = E -> forall ok, deleteStrTree (Some tr) opts ok hp = Some ((0, None), hp)).
Proof.
  intros Hinv. split; [|split; [|split]].
  - reflexivity.
  - intros Ho ok. unfold deleteStrTree. apply Z.ltb_lt in Ho. rewrite Ho. reflexivity.
  - intros Ho Hne. apply (deleteStrTree_no_array hp tr t opts Hinv Hne Ho).
  - intros Ho -> ok. unfold deleteStrTree.
    replace (opts <? 0) with false by (symmetry; apply Z.ltb_ge; exact Ho).
    rewrite (inv_root _ _ _ Hinv). reflexivity.
Qed.

(** * Balance *)

Lemma strInsert_avl hp tr t k d p :
  tree_inv hp tr t -> avl t -> hp !! p = None -> nodesCount tr <> maxNodes tr ->
  exists hp' tr' t',
    strInsert (Some tr) (Some k) d (Some p) hp
    = Some ((nodesCount tr + 1, Some tr'), hp')
    /\ tree_inv hp' tr' t' /\ avl t'.
Proof.
  intros Hinv Havl Hp Hfull.
  destruct (strInsert_run hp tr t k d p Hinv Hp Hfull) as (hp' & tr' & Hrun & Hinv' & _).
  exists hp', tr', (insert_a p k d t). split; [exact Hrun|]. split; [exact Hinv'|].
  apply insert_a_avl. exact Havl.
Qed.

(** X11.  An insertion into a well-formed tree that is balanced and
    whose cached heights are right leaves a tree that is balanced and
    whose cached heights are right. *)
Theorem strInsert_keeps_balance hp tr t k d p :
  tree_inv hp tr t -> heights_consistent t = true -> balanced t = true ->
  hp !! p = None -> nodesCount tr <> maxNodes tr ->
  exists hp' tr' t',
    strInsert (Some tr) (Some k) d (Some p) hp
    = Some ((nodesCount tr + 1, Some tr'), hp')
    /\ tree_inv hp' tr' t'
    /\ heights_consistent t' = true /\ balanced t' = true.
Proof.
  intros Hinv Hc Hb Hp Hfull.
  destruct (strInsert_avl hp tr t k d p Hinv (proj2 (avl_iff t) (conj Hc Hb)) Hp Hfull)
    as (hp' & tr' & t' & Hrun & Hinv' & Havl).
  exists hp', tr', t'. split; [exact Hrun|]. split; [exact Hinv'|].
  apply avl_iff. exact Havl.
Qed.

Lemma run_inserts_avl ops : forall hp tr hist hp' tr' hist' t,
  forallb is_insert ops = true ->
  tree_inv hp tr t -> avl t -> entries t ≡ₚ hist ->
  run_ops ops (hp, tr, hist) = Some (hp', tr', hist') ->
  exists t', tree_inv hp' tr' t' /\ avl t' /\ entries t' ≡ₚ hist'.
Proof.
  induction ops as [|o ops IH]; intros hp tr hist hp' tr' hist' t Hall Hinv Havl Hperm;
    cbn [run_ops].
  - intros [= <- <- <-]. eauto.
  - cbn [forallb] in Hall. apply andb_true_iff in Hall as [Ho Hall].
    destruct o as [k d p|k opts]; [|discriminate]. cbn [step_op].
    destruct (hp !! p) eqn:Hp; [discriminate|].
    destruct (Z.eq_dec (nodesCount tr) (maxNodes tr)) as [Hfull|Hfull].
    + rewrite (strInsert_full hp tr (Some k) d (Some p) Hfull). cbn [Z.eqb].
      apply (IH _ _ _ _ _ _ t Hall Hinv Havl Hperm).
    + destruct (strInsert_run hp tr t k d p Hinv Hp Hfull)
        as (hp1 & tr1 & Hrun & Hinv1 & _).
      rewrite Hrun.
      replace (nodesCount tr + 1 =? 0) with false.
      2:{ symmetry. apply Z.eqb_neq. pose proof (inv_count _ _ _ Hinv). lia. }
      apply (IH _ _ _ _ _ _ (insert_a p k d t) Hall Hinv1).
      * apply insert_a_avl. exact Havl.
      * destruct (entries_insert_a p k d t (inv_sorted _ _ _ Hinv))
          as (l1 & l2 & He & _ & _ & He').
        rewrite He', <- Hperm, He. symmetry. apply Permutation_middle.
Qed.

(** X12.  Every tree built from an empty tree by insertions only, in
    each of which [malloc] returned a fresh node, is well formed,
    balanced, and has the right cached heights; it holds the entries
    whose insertion returned a count that is not zero, each once. *)
Theorem insertions_keep_balance ops cap hp tr hist :
  forallb is_insert ops = true -> 0 <= cap <= ULONG_MAX ->
  run_ops ops (∅, mkTree None 0 cap, []) = Some (hp, tr, hist) ->
  exists t,
    tree_inv hp tr t /\ heights_consistent t = true /\ balanced t = true
    /\ entries t ≡ₚ hist.
Proof.
  intros Hall Hcap Hrun.
  destruct (run_inserts_avl ops _ _ _ _ _ _ E Hall (tree_inv_empty cap Hcap) I
              (Permutation_refl _) Hrun)
    as (t & Hinv & Havl & Hperm).
  exists t. split; [exact Hinv|]. apply avl_iff in Havl as [Hc Hb]. auto.
Qed.

(** X13.  A deletion from a well-formed, balanced tree with the right
    cached heights keeps both properties when the node that it unlinks
    (the node of the key, or the node with the greatest key of its left
    subtree when it has two sons) has no son; when that node has a son,
    the tree is left with a cached height that is wrong. *)
Theorem strDelete_balance hp tr t key opts :
  tree_inv hp tr t -> heights_consistent t = true -> balanced t = true ->
  0 <= opts -> In key (map fst (entries t)) ->
  exists hp' tr' t' u,
    strDelete (Some tr) (Some key) opts hp = Some ((1, Some tr'), hp')
    /\ tree_inv hp' tr' t'
    /\ unlinked key t = Some u
    /\ (is_leaf u = true -> heights_consistent t' = true /\ balanced t' = true)
    /\ (is_leaf u = false -> heights_consistent t' = false).
Proof.
  intros Hinv Hc Hb Ho Hk.
  pose proof (proj2 (avl_iff t) (conj Hc Hb)) as Havl.
  destruct (delete_a_present key t (inv_sorted _ _ _ Hinv) Hk) as (t' & pf & Hd).
  destruct (unlinked_present key t (inv_sorted _ _ _ Hinv) Hk) as (u & Hu).
  pose proof (strDelete_run hp tr t key opts Hinv Ho) as Hrun. rewrite Hd in Hrun.
  destruct Hrun as (hp' & tr' & q & -> & Hrun & Hinv' & _).
  destruct (delete_a_avl key t t' _ u Havl Hd Hu) as [Hleaf Hson].
  exists hp', tr', t', u. split; [exact Hrun|]. split; [exact Hinv'|].
  split; [exact Hu|]. split.
  - intros H. apply avl_iff. apply Hleaf. exact H.
  - exact Hson.
Qed.

(** X14.  [_strRotate] at a node whose subtrees are balanced with the
    right cached heights, and whose heights differ by two, leaves a
    balanced subtree with the right cached heights at the same node, with
    the same entries in the same order and the same nodes; its height is
    that of the higher subtree or one more. *)
Theorem strRotate_restores_balance hp fa p l k d h r :
  rep hp fa (T p l k d h r) -> NoDup (ptrs (T p l k d h r)) ->
  avl l -> avl r -> 0 <= h -> Z.abs (height_a l - height_a r) = 2 ->
  exists hp' t',
    _strRotate (Some p) hp = Some (tt, hp')
    /\ rep hp' fa t' /\ root t' = Some p
    /\ avl t'
    /\ entries t' = entries (T p l k d h r)
    /\ ptrs t' ≡ₚ ptrs (T p l k d h r)
    /\ same_outside (ptrs (T p l k d h r)) hp hp'
    /\ Z.max (height_a l) (height_a r) <= height_a t' <= 1 + Z.max (height_a l) (height_a r).
Proof.
  intros Hrep Hnd Hl Hr Hh Hd.
  set (t := T p l k d h r) in *.
  destruct (rotate_run hp fa t Hrep Hnd) as (hp' & Hrun & Hrep' & Hso).
  { split; [exact Hh|]. split; apply avl_heights_nonneg; assumption. }
  exists hp', (rotate_a t). split; [exact Hrun|]. split; [exact Hrep'|].
  split; [apply root_rotate|].
  assert (Havl : avl (rotate_a t)
                 /\ Z.max (height_a l) (height_a r) <= height_a (rotate_a t)
                    <= 1 + Z.max (height_a l) (height_a r)).
  { destruct (Z.eq_dec (height_a l) (height_a r + 2)) as [He|He].
    - destruct (rotate_avl_left p l k d h r Hl Hr He) as [Ha Hht].
      split; [exact Ha|]. fold t in Hht. destruct Hht as [Hht|[_ Hht]]; lia.
    - assert (He' : height_a r = height_a l + 2) by lia.
      destruct (rotate_avl_right p l k d h r Hl Hr He') as [Ha Hht].
      split; [exact Ha|]. fold t in Hht. destruct Hht as [Hht|[_ Hht]]; lia. }
  destruct Havl as [Havl Hht].
  split; [exact Havl|]. split; [apply entries_rotate|]. split; [apply ptrs_rotate|].
  split; [exact Hso|exact Hht].
Qed.

(** X15.  On a tree with the right cached heights, a right rotation at
    a node followed by a left rotation at the same node gives back the
    heap as it was, and so does a left rotation followed by a right
    rotation. *)
Theorem opposite_rotations_cancel hp fa t :
  rep hp fa t -> NoDup (ptrs t) -> heights_consistent t = true ->
  (is_Some (root (left_of t)) ->
   (_strRightRotation (root t) ;;; _strLeftRotation (root t)) hp = Some (tt, hp))
  /\ (is_Some (root (right_of t)) ->
      (_strLeftRotation (root t) ;;; _strRightRotation (root t)) hp = Some (tt, hp)).
Proof.
  intros Hrep Hnd Hc. split; intros Hs.
  - destruct (rightRotation_run hp fa t Hs Hrep Hnd) as (hp1 & Hrun1 & Hrep1 & Hso1).
    destruct t as [|n [|l a kl dl hl b] kn dn hn c];
      try (exfalso; destruct Hs as [? Hs]; discriminate Hs).
    set (t := T n (T l a kl dl hl b) kn dn hn c) in *.
    assert (Hinv : leftRotation_a (rightRotation_a t) = t).
    { simpl in Hc. apply andb_true_iff in Hc as [Hc _]. apply andb_true_iff in Hc as [Hn Hc].
      apply andb_true_iff in Hc as [Hc _]. apply andb_true_iff in Hc as [Hl _].
      apply Z.eqb_eq in Hn, Hl. apply rotations_inverse_a; assumption. }
    destruct (leftRotation_run hp1 fa (rightRotation_a t)) as (hp2 & Hrun2 & Hrep2 & Hso2).
    { simpl. eexists. reflexivity. }
    { exact Hrep1. }
    { rewrite ptrs_rightRotation. exact Hnd. }
    rewrite Hinv in Hrep2. rewrite root_rightRotation in Hrun2.
    unfold bind. rewrite Hrun1, Hrun2. f_equal. f_equal.
    apply (rep_heap_eq hp hp2 fa t Hrep Hrep2).
    eapply same_outside_trans; [exact Hso1|].
    eapply same_outside_mono; [|exact Hso2].
    intros q Hq. rewrite <- (ptrs_rightRotation t). exact Hq.
  - destruct (leftRotation_run hp fa t Hs Hrep Hnd) as (hp1 & Hrun1 & Hrep1 & Hso1).
    destruct t as [|n a kn dn hn [|r b kr dr hr c]];
      try (exfalso; destruct Hs as [? Hs]; discriminate Hs).
    set (t := T n a kn dn hn (T r b kr dr hr c)) in *.
    assert (Hinv : rightRotation_a (leftRotation_a t) = t).
    { simpl in Hc. apply andb_true_iff in Hc as [Hc Hc'].
      apply andb_true_iff in Hc as [Hn _].
      apply andb_true_iff in Hc' as [Hc' _]. apply andb_true_iff in Hc' as [Hr _].
      apply Z.eqb_eq in Hn, Hr. apply rotations_inverse_b; assumption. }
    destruct (rightRotation_run hp1 fa (leftRotation_a t)) as (hp2 & Hrun2 & Hrep2 & Hso2).
    { simpl. eexists. reflexivity. }
    { exact Hrep1. }
    { rewrite ptrs_leftRotation. exact Hnd. }
    rewrite Hinv in Hrep2. rewrite root_leftRotation in Hrun2.
    unfold bind. rewrite Hrun1, Hrun2. f_equal. f_equal.
    apply (rep_heap_eq hp hp2 fa t Hrep Hrep2).
    eapply same_outside_trans; [exact Hso1|].
    eapply same_outside_mono; [|exact Hso2].
    intros q Hq. rewrite <- (ptrs_leftRotation t). exact Hq.
Qed.

(** * Internal subroutines *)

(** X16.  Cutting the left subtree of a node and hanging it again as
    the left subtree gives back the heap as it was; between the two
    calls the son has no father, the father has no left son, and no
    other cell has changed.  The same holds on the right. *)
Theorem cut_then_hang_subtree (hp : heap) f fn s sn :
  hp !! f = Some fn -> hp !! s = Some sn -> _father sn = Some f -> s <> f ->
  (_leftSon fn = Some s ->
   exists hp1,
     _strCutLeftSubtree (Some f) hp = Some (Some s, hp1)
     /\ hp1 !! f = Some (set_leftSon None fn)
     /\ hp1 !! s = Some (set_father None sn)
     /\ (forall q, q <> f -> q <> s -> hp1 !! q = hp !! q)
     /\ _strInsertAsLeftSubtree (Some f) (Some s) hp1 = Some (tt, hp))
  /\ (_rightSon fn = Some s ->
      exists hp1,
        _strCutRightSubtree (Some f) hp = Some (Some s, hp1)
        /\ hp1 !! f = Some (set_rightSon None fn)
        /\ hp1 !! s = Some (set_father None sn)
        /\ (forall q, q <> f -> q <> s -> hp1 !! q = hp !! q)
        /\ _strInsertAsRightSubtree (Some f) (Some s) hp1 = Some (tt, hp)).
Proof.
  intros Hf Hs Hfa Hne. split; intros Hl.
  - apply (cut_insert_left hp f fn s sn); assumption.
  - apply (cut_insert_right hp f fn s sn); assumption.
Qed.

(** X17.  [_strSwapInfo] on two nodes exchanges their keys and their
    data and nothing else: the links and the heights of the two nodes
    and every other cell stay as they were; a second call gives back the
    heap as it was. *)
Theorem strSwapInfo_exchanges (hp : heap) p pn q qn :
  hp !! p = Some pn -> hp !! q = Some qn -> p <> q ->
  exists hp1,
    _strSwapInfo (Some p) (Some q) hp = Some (tt, hp1)
    /\ hp1 !! p = Some (mkNode (_father pn) (_leftSon pn) (_rightSon pn) (_height pn)
                          (_key qn) (_data qn))
    /\ hp1 !! q = Some (mkNode (_father qn) (_leftSon qn) (_rightSon qn) (_height qn)
                          (_key pn) (_data pn))
    /\ (forall x, x <> p -> x <> q -> hp1 !! x = hp !! x)
    /\ _strSwapInfo (Some p) (Some q) hp1 = Some (tt, hp).
Proof.
  intros Hp Hq Hne.
  pose proof (swapInfo_run hp p pn q qn Hp Hq Hne) as Hrun.
  pose proof (swapInfo_twice hp p pn q qn Hp Hq) as Htwice.
  unfold bind in Htwice. rewrite Hrun in Htwice.
  eexists. split; [exact Hrun|]. split; [|split; [|split]].
  - rewrite lookup_insert_ne by congruence. rewrite lookup_insert_eq. reflexivity.
  - rewrite lookup_insert_eq. reflexivity.
  - intros x Hx1 Hx2. rewrite !lookup_insert_ne by congruence. reflexivity.
  - exact Htwice.
Qed.

(** X18.  On a subtree with a node and sorted entries, [_strMaxKeySon]
    returns the node that holds the last entry in symmetric order: it has
    no right son, and no entry of the subtree has a greater key. *)
Theorem strMaxKeySon_greatest hp fa t :
  rep hp fa t -> NoDup (ptrs t) -> t <> E -> sorted_keys (entries t) ->
  exists q n,
    _strMaxKeySon (root t) hp = Some (Some q, hp)
    /\ q ∈ ptrs t /\ hp !! q = Some n /\ _rightSon n = None
    /\ last (entries t) = Some (_key n, _data n)
    /\ forall e, In e (entries t) -> key_le (fst e) (_key n).
Proof.
  intros Hrep Hnd Hne Hs.
  destruct (maxKeySon_a t []) as [c m] eqn:Hm.
  pose proof (maxKeySon_spec t [] c m Hne Hm) as (Hplug & _ & (p & l & k & d & h & ->)).
  destruct (maxKeySon_a_last t [] c p l k d h Hm Hne) as (pre & He & Hp).
  assert (Hcell : hp !! p = Some (mkNode (ctx_father_from fa c) (root l) None h k d)).
  { pose proof Hrep as H. simpl in Hplug. rewrite <- Hplug in H.
    apply rep_plug_from in H as [_ (H & _)]. exact H. }
  exists p, (mkNode (ctx_father_from fa c) (root l) None h k d).
  split; [|split; [exact Hp|split; [exact Hcell|split; [reflexivity|split]]]].
  - unfold _strMaxKeySon. rewrite with_fuel_run.
    rewrite (maxKeySon_loop_run t [] hp fa (S (size hp)) Hne Hrep).
    + rewrite Hm. reflexivity.
    + pose proof (length_ptrs_size hp fa t Hrep Hnd). lia.
  - rewrite He. apply last_snoc.
  - rewrite He in Hs |- *. cbn [_key]. apply (sorted_keys_last pre k d Hs).
Qed.

(** * The height of a balanced tree *)

Lemma avl_size_bound t : avl t ->
  forall k, 0 <= k -> 2 * k - 1 <= height_a t -> 2 ^ k <= Z.of_nat (length (ptrs t)) + 1.
Proof.
  induction t as [|p l IHl kk d h r IHr]; intros Havl k Hk Hh.
  - simpl in Hh. assert (k = 0) as -> by lia. simpl. lia.
  - destruct Havl as (Hhh & Hb & Hl & Hr).
    cbn [ptrs length height_a] in *. rewrite length_app.
    destruct (Z.eq_dec k 0) as [->|Hk0]; [simpl; lia|].
    specialize (IHl Hl (k - 1)). specialize (IHr Hr (k - 1)).
    replace k with (Z.succ (k - 1)) by lia. rewrite Z.pow_succ_r by lia.
    lia.
Qed.

Lemma depth_le_height q t : forall n,
  depth_in q t = Some n -> Z.of_nat n <= real_height t.
Proof.
  induction t as [|p l IHl k d h r IHr]; intros n Hn; [discriminate|].
  cbn [depth_in real_height] in *.
  destruct (decide (q = p)) as [_|_].
  { injection Hn as <-.
    assert (H : forall s, -1 <= real_height s).
    { induction s; simpl; lia. }
    pose proof (H l). pose proof (H r). lia. }
  destruct (depth_in q l) as [nl|].
  { injection Hn as <-. specialize (IHl nl eq_refl). lia. }
  destruct (depth_in q r) as [nr|]; [|discriminate].
  injection Hn as <-. specialize (IHr nr eq_refl). lia.
Qed.

(** X19.  In a tree built from an empty tree by insertions only, a node
    at depth n (the root has depth 0) exists only when the tree counts
    at least 2^((n+1)/2) - 1 nodes: the depth of every node, and so the
    number of nodes that a search meets, is logarithmic in the count. *)
Theorem insertions_logarithmic_depth ops cap hp tr hist :
  forallb is_insert ops = true -> 0 <= cap <= ULONG_MAX ->
  run_ops ops (∅, mkTree None 0 cap, []) = Some (hp, tr, hist) ->
  exists t,
    tree_inv hp tr t
    /\ forall q n, depth_in q t = Some n ->
         2 ^ ((Z.of_nat n + 1) / 2) <= nodesCount tr + 1.
Proof.
  intros Hall Hcap Hrun.
  destruct (run_inserts_avl ops _ _ _ _ _ _ E Hall (tree_inv_empty cap Hcap) I
              (Permutation_refl _) Hrun)
    as (t & Hinv & Havl & _).
  exists t. split; [exact Hinv|]. intros q n Hn.
  rewrite (inv_count _ _ _ Hinv).
  apply (avl_size_bound t Havl).
  - apply Z.div_pos; lia.
  - pose proof (depth_le_height q t n Hn) as Hd.
    rewrite (avl_real_height t Havl) in Hd.
    pose proof (Z.mul_div_le (Z.of_nat n + 1) 2). lia.
Qed.

(** * Cutting a subtree *)

(** X20.  [_strCutSubtree] at a node that is not the root splits a tree
    into two: the subtree of the node, which now has no father, and the
    rest of the tree with an empty place where the node was.  At the root
    the call returns the root and changes nothing. *)
Theorem strCutSubtree_splits hp f c p l k d h r :
  rep hp None (plug (f :: c) (T p l k d h r)) ->
  NoDup (ptrs (plug (f :: c) (T p l k d h r))) ->
  (exists hp',
     _strCutSubtree (Some p) hp = Some (Some p, hp')
     /\ rep hp' None (plug (f :: c) E)
     /\ rep hp' None (T p l k d h r)
     /\ same_outside (ptrs (plug (f :: c) (T p l k d h r))) hp hp')
  /\ _strCutSubtree (root (plug (f :: c) (T p l k d h r))) hp
     = Some (root (plug (f :: c) (T p l k d h r)), hp).
Proof.
  intros Hrep Hnd. split.
  2:{ destruct (plug (f :: c) (T p l k d h r)) as [|q tl kq dq hq tr] eqn:Ht.
      - exfalso. eapply plug_nonempty; [|exact Ht]. discriminate.
      - destruct Hrep as (Hq & _). cbn [root _strCutSubtree].
        eapply bind_run; [apply deref_run; exact Hq|]. reflexivity. }
  assert (Hso : forall hp', same_outside (frame_ptrs f ++ ctx_ptrs c ++ p :: ptrs l ++ ptrs r) hp hp' ->
                 same_outside (ptrs (plug (f :: c) (T p l k d h r))) hp hp').
  { intros hp' H. eapply same_outside_mono; [|exact H]. intros q.
    rewrite ptrs_plug. simpl. rewrite <- app_assoc. auto. }
  apply rep_plug in Hrep as [Hctx Hsub].
  rewrite ptrs_plug in Hnd. cbn [ctx_ptrs ptrs] in Hnd.
  destruct f as [pf kf df hf fr|pf fl kf df hf]; cbn [rep_ctx_from frame_ptrs root ctx_father_from frame_ptr] in *;
    destruct Hctx as (Hpf & Hr & Hctx); destruct Hsub as (Hp & Hl & Hr');
    rewrite <- ?app_assoc in Hnd; cbn [app] in Hnd; nodup_facts.
  - eexists. split; [|split; [|split]].
    + eapply cutSubtree_left_run; [lookup|fields; reflexivity|lookup|neq|reflexivity|].
      fields. destruct fr; simpl in *; [congruence|]. nodup_facts. congruence.
    + apply rep_plug. split; [|exact I].
      cbn [rep_ctx_from root]. split; [lookup|]. split.
      * eapply rep_agree; [|exact Hr]. solve_agree.
      * eapply rep_ctx_agree; [|exact Hctx]. solve_agree.
    + split; [lookup|]. split.
      * eapply rep_agree; [|exact Hl]. solve_agree.
      * eapply rep_agree; [|exact Hr']. solve_agree.
    + apply Hso. simpl. solve_same_outside.
  - eexists. split; [|split; [|split]].
    + eapply cutSubtree_right_run; [lookup|fields; reflexivity|lookup|neq|reflexivity|].
      fields. destruct fl; simpl in *; [congruence|]. nodup_facts. congruence.
    + apply rep_plug. split; [|exact I].
      cbn [rep_ctx_from root]. split; [lookup|]. split.
      * eapply rep_agree; [|exact Hr]. solve_agree.
      * eapply rep_ctx_agree; [|exact Hctx]. solve_agree.
    + split; [lookup|]. split.
      * eapply rep_agree; [|exact Hl]. solve_agree.
      * eapply rep_agree; [|exact Hr']. solve_agree.
    + apply Hso. simpl. solve_same_outside.
Qed.

(** * A search without a key *)

(** X21.  [strSearch] does not test the key: with a NULL key it returns
    NULL on an empty tree, but on a tree with a node it hands the NULL
    pointer to [strcmp] at the root, and the call has no result. *)
Theorem strSearch_null_key hp tr t opts :
  tree_inv hp tr t -> 0 < opts ->
  (t = E -> strSearch (Some tr) None opts hp = Some (None, hp))
  /\ (t <> E -> strSearch (Some tr) None opts hp = None).
Proof.
  intros Hinv Ho. unfold strSearch, _searchStrNode.
  replace (opts <=? 0) with false by (symmetry; apply Z.leb_gt; exact Ho).
  rewrite (inv_root _ _ _ Hinv). split.
  - intros ->. reflexivity.
  - intros Hne. destruct t as [|p l k d h r]; [congruence|].
    destruct (inv_rep _ _ _ Hinv) as (Hp & _).
    cbn [root]. unfold bind at 1. rewrite with_fuel_run.
    cbn [_searchStrNode_loop]. unfold bind at 1, deref. rewrite Hp. reflexivity.
Qed.

(** * The whole life of a tree *)

(** X22.  [deleteStrTree], with options that are not negative and when
    [calloc] can allocate the array of [strBFS], on any tree built from
    an empty tree by calls of [strInsert] in each of which [malloc]
    returned a fresh node and by calls of [strDelete], returns 0 and
    leaves no node allocated. *)
Theorem deleteStrTree_after_any_program hp tr hist opts :
  built hp tr hist -> 0 <= opts ->
  deleteStrTree (Some tr) opts true hp = Some ((0, None), ∅).
Proof.
  intros Hb Ho. destruct (built_dom hp tr hist Hb) as (t & Hinv & Hdom).
  destruct (deleteStrTree_run hp tr t opts Hinv Ho) as (hp' & Hrun & Hhp').
  rewrite Hrun. f_equal. f_equal.
  apply map_eq. intros q. rewrite lookup_empty, Hhp'.
  destruct (decide (q ∈ ptrs t)) as [Hq|Hq]; [reflexivity|].
  apply not_elem_of_dom. intros Hin. apply Hq. apply Hdom. exact Hin.
Qed.

(** * Instances of the further theorems *)

Lemma rep_two : rep heap_two None shape_two.
Proof. simpl. repeat split; reflexivity. Qed.

Lemma nodup_two : NoDup (ptrs shape_two).
Proof. apply (bool_decide_unpack _). vm_compute. exact I. Qed.

Lemma rep_rot : rep heap_rot None shape_rot.
Proof. simpl. repeat split; reflexivity. Qed.

Lemma nodup_rot : NoDup (ptrs shape_rot).
Proof. apply (bool_decide_unpack _). vm_compute. exact I. Qed.

Lemma strInsert_sorted_position_a :
  exists hp' tr' t' l1 l2,
    strInsert (Some tree_a) (Some "b") 5 (Some 2%positive) heap_a
    = Some ((nodesCount tree_a + 1, Some tr'), hp')
    /\ tree_inv hp' tr' t'
    /\ entries shape_a = l1 ++ l2 /\ keys_lt "b" l1 /\ keys_ge "b" l2
    /\ entries t' = l1 ++ ("b"%string, 5) :: l2
    /\ ptrs t' ≡ₚ 2%positive :: ptrs shape_a
    /\ dom hp' = {[2%positive]} ∪ dom heap_a.
Proof.
  apply (strInsert_sorted_position heap_a tree_a shape_a "b" 5 2 tree_inv_a).
  - reflexivity.
  - vm_compute. discriminate.
Defined.

Lemma strDelete_removes_found_entry_a :
  exists hp' tr' t' q l1 d l2,
    strDelete (Some tree_a) (Some "a") 0 heap_a = Some ((1, Some tr'), hp')
    /\ tree_inv hp' tr' t'
    /\ strSearch (Some tree_a) (Some "a") SEARCH_DATA heap_a = Some (Some (VData d), heap_a)
    /\ entries shape_a = l1 ++ ("a"%string, d) :: l2
    /\ entries t' = l1 ++ l2
    /\ q :: ptrs t' ≡ₚ ptrs shape_a
    /\ dom hp' = dom heap_a ∖ {[q]}
    /\ nodesCount tr' = nodesCount tree_a - 1
    /\ maxNodes tr' = maxNodes tree_a
    /\ (_root tr' = None <-> nodesCount tree_a = 1).
Proof.
  apply (strDelete_removes_found_entry heap_a tree_a shape_a "a" 0 tree_inv_a).
  - lia.
  - simpl. left. reflexivity.
Defined.

Lemma strSearch_after_strInsert_a :
  exists hp' tr',
    strInsert (Some tree_a) (Some "b") 5 (Some 2%positive) heap_a
    = Some ((nodesCount tree_a + 1, Some tr'), hp')
    /\ strSearch (Some tr') (Some "b") SEARCH_DATA hp' = Some (Some (VData 5), hp')
    /\ strSearch (Some tr') (Some "a") SEARCH_DATA hp' = Some (Some (VData 7), hp').
Proof.
  destruct (strSearch_after_strInsert heap_a tree_a shape_a "b" 5 2 tree_inv_a)
    as (hp' & tr' & Hrun & Hnew & _ & Hold).
  - reflexivity.
  - vm_compute. discriminate.
  - simpl. intros [H|[]]. discriminate H.
  - exists hp', tr'. split; [exact Hrun|]. split; [exact Hnew|].
    apply (Hold "a"%string 7); [discriminate|reflexivity].
Defined.

Lemma strDelete_after_strInsert_a :
  exists hp1 tr1 hp2 tr2 t2,
    strInsert (Some tree_a) (Some "b") 5 (Some 2%positive) heap_a
    = Some ((nodesCount tree_a + 1, Some tr1), hp1)
    /\ strDelete (Some tr1) (Some "b") 0 hp1 = Some ((1, Some tr2), hp2)
    /\ tree_inv hp2 tr2 t2
    /\ entries t2 = entries shape_a
    /\ nodesCount tr2 = nodesCount tree_a
    /\ maxNodes tr2 = maxNodes tree_a
    /\ size hp2 = size heap_a
    /\ forall opts', strSearch (Some tr2) (Some "b") opts' hp2 = Some (None, hp2).
Proof.
  apply (strDelete_after_strInsert heap_a tree_a shape_a "b" 5 2 0 tree_inv_a).
  - reflexivity.
  - vm_compute. discriminate.
  - simpl. intros [H|[]]. discriminate H.
  - lia.
Defined.

Lemma built_heap_is_tree_dup :
  exists t,
    tree_inv heap_dup tree_dup t
    /\ (forall q, q ∈ dom heap_dup <-> q ∈ ptrs t)
    /\ Z.of_nat (size heap_dup) = nodesCount tree_dup
    /\ (_root tree_dup = None <-> heap_dup = ∅).
Proof. exact (built_heap_is_tree heap_dup tree_dup dup_hist built_dup). Defined.





Lemma deleteStrTree_failures_a :
  deleteStrTree None 0 true heap_a = Some ((-1, None), heap_a)
  /\ deleteStrTree (Some tree_a) (-1) true heap_a = Some ((-1, Some tree_a), heap_a)
  /\ deleteStrTree (Some tree_a) 0 false heap_a = None.
Proof.
  destruct (deleteStrTree_failures heap_a tree_a shape_a 0 tree_inv_a) as (Hnull & _ & Hno & _).
  destruct (deleteStrTree_failures heap_a tree_a shape_a (-1) tree_inv_a) as (_ & Hneg & _).
  split; [apply Hnull|]. split; [apply Hneg; lia|]. apply Hno; [lia|discriminate].
Defined.

Lemma strInsert_keeps_balance_a :
  exists hp' tr' t',
    strInsert (Some tree_a) (Some "b") 5 (Some 2%positive) heap_a
    = Some ((nodesCount tree_a + 1, Some tr'), hp')
    /\ tree_inv hp' tr' t'
    /\ heights_consistent t' = true /\ balanced t' = true.
Proof.
  apply (strInsert_keeps_balance heap_a tree_a shape_a "b" 5 2 tree_inv_a).
  - reflexivity.
  - reflexivity.
  - reflexivity.
  - vm_compute. discriminate.
Defined.

Lemma insertions_keep_balance_dup :
  exists t,
    tree_inv heap_dup tree_dup t /\ heights_consistent t = true /\ balanced t = true
    /\ entries t ≡ₚ dup_hist.
Proof.
  apply (insertions_keep_balance dup_ops ULONG_MAX heap_dup tree_dup dup_hist).
  - reflexivity.
  - unfold ULONG_MAX. lia.
  - exact run_dup_ops.
Defined.

Lemma strDelete_balance_two :
  exists hp' tr' t' u,
    strDelete (Some tree_two) (Some "a") 0 heap_two = Some ((1, Some tr'), hp')
    /\ tree_inv hp' tr' t'
    /\ unlinked "a" shape_two = Some u
    /\ (is_leaf u = true -> heights_consistent t' = true /\ balanced t' = true)
    /\ (is_leaf u = false -> heights_consistent t' = false).
Proof.
  apply (strDelete_balance heap_two tree_two shape_two "a" 0 tree_inv_two).
  - reflexivity.
  - reflexivity.
  - lia.
  - simpl. left. reflexivity.
Defined.

Lemma strRotate_restores_balance_rot :
  exists hp' t',
    _strRotate (Some 1%positive) heap_rot = Some (tt, hp')
    /\ rep hp' None t' /\ root t' = Some 1%positive
    /\ avl t'
    /\ entries t' = entries shape_rot.
Proof.
  destruct (strRotate_restores_balance heap_rot None 1 (T 2 (T 3 E "a" 10 0 E) "b" 20 1 E)
              "c" 30 2 E rep_rot nodup_rot)
    as (hp' & t' & Hrun & Hrep & Hroot & Havl & He & _).
  - simpl. repeat split; lia.
  - exact I.
  - lia.
  - reflexivity.
  - exists hp', t'. repeat split; assumption.
Defined.

Lemma opposite_rotations_cancel_rot :
  (_strRightRotation (Some 1%positive) ;;; _strLeftRotation (Some 1%positive)) heap_rot
  = Some (tt, heap_rot).
Proof.
  apply (opposite_rotations_cancel heap_rot None shape_rot rep_rot nodup_rot).
  - reflexivity.
  - simpl. eexists. reflexivity.
Defined.

Lemma cut_then_hang_subtree_two :
  exists hp1,
    _strCutLeftSubtree (Some 1%positive) heap_two = Some (Some 2%positive, hp1)
    /\ _strInsertAsLeftSubtree (Some 1%positive) (Some 2%positive) hp1 = Some (tt, heap_two).
Proof.
  destruct (cut_then_hang_subtree heap_two 1 (mkNode None (Some 2%positive) None 1 "b" 0)
              2 (mkNode (Some 1%positive) None None 0 "a" 0)) as [Hleft _].
  - reflexivity.
  - reflexivity.
  - reflexivity.
  - discriminate.
  - destruct (Hleft eq_refl) as (hp1 & Hcut & _ & _ & _ & Hhang).
    exists hp1. split; [exact Hcut|exact Hhang].
Defined.

Lemma strSwapInfo_exchanges_two :
  exists hp1,
    _strSwapInfo (Some 1%positive) (Some 2%positive) heap_two = Some (tt, hp1)
    /\ hp1 !! 1%positive = Some (mkNode None (Some 2%positive) None 1 "a" 0)
    /\ hp1 !! 2%positive = Some (mkNode (Some 1%positive) None None 0 "b" 0)
    /\ _strSwapInfo (Some 1%positive) (Some 2%positive) hp1 = Some (tt, heap_two).
Proof.
  destruct (strSwapInfo_exchanges heap_two 1 (mkNode None (Some 2%positive) None 1 "b" 0)
              2 (mkNode (Some 1%positive) None None 0 "a" 0))
    as (hp1 & Hrun & Hp & Hq & _ & Hback).
  - reflexivity.
  - reflexivity.
  - discriminate.
  - exists hp1. repeat split; assumption.
Defined.

Lemma strMaxKeySon_greatest_dup :
  exists q n,
    _strMaxKeySon (Some 1%positive) heap_dup = Some (Some q, heap_dup)
    /\ heap_dup !! q = Some n
    /\ last (entries shape_dup) = Some (_key n, _data n).
Proof.
  destruct (strMaxKeySon_greatest heap_dup None shape_dup)
    as (q & n & Hrun & _ & Hn & _ & Hlast & _).
  - apply (inv_rep _ _ _ tree_inv_dup).
  - apply (inv_nodup _ _ _ tree_inv_dup).
  - discriminate.
  - apply (inv_sorted _ _ _ tree_inv_dup).
  - exists q, n. repeat split; assumption.
Defined.

Lemma insertions_logarithmic_depth_dup :
  exists t,
    tree_inv heap_dup tree_dup t
    /\ forall q n, depth_in q t = Some n ->
         2 ^ ((Z.of_nat n + 1) / 2) <= nodesCount tree_dup + 1.
Proof.
  apply (insertions_logarithmic_depth dup_ops ULONG_MAX heap_dup tree_dup dup_hist).
  - reflexivity.
  - unfold ULONG_MAX. lia.
  - exact run_dup_ops.
Defined.

Lemma strCutSubtree_splits_two :
  exists hp',
    _strCutSubtree (Some 2%positive) heap_two = Some (Some 2%positive, hp')
    /\ rep hp' None (T 1 E "b" 0 1 E)
    /\ rep hp' None (T 2 E "a" 0 0 E).
Proof.
  destruct (strCutSubtree_splits heap_two (FL 1 "b" 0 1 E) [] 2 E "a" 0 0 E rep_two nodup_two)
    as [(hp' & Hrun & Hrest & Hsub & _) _].
  exists hp'. repeat split; try assumption; apply Hrest || apply Hsub.
Defined.

Lemma strSearch_null_key_a :
  strSearch (Some tree_a) None SEARCH_DATA heap_a = None.
Proof.
  apply (strSearch_null_key heap_a tree_a shape_a SEARCH_DATA tree_inv_a).
  - reflexivity.
  - discriminate.
Defined.

Lemma deleteStrTree_after_any_program_dup :
  deleteStrTree (Some tree_dup) 0 true heap_dup = Some ((0, None), ∅).
Proof.
  apply (deleteStrTree_after_any_program heap_dup tree_dup dup_hist 0 built_dup). lia.
Defined.
